(** * Memory SSA over interval maps: a shallow embedding of libdg

    Sources embedded here:
    - [src/analysis/ReachingDefinitions/Srg/IntervalMap.h]
      ([Interval], [IntervalMap]);
    - [lib/analysis/MemorySSA/MemorySSA.cpp]
      ([MemorySSATransformation] and the query layer).

    Classes whose headers are not among the sources ([Offset], [DefSite],
    [DefinitionsMap], [RWNode], [RWBBlock]) are modelled from the
    specification; each such definition says so. *)

From stdpp Require Import base list numbers.
From Stdlib Require Import ZArith Lia.

Local Open Scope Z_scope.

(** ** Offsets *)

Module Offset.

(** Modelled from the spec: [analysis/Offset.h] is missing.  An offset is
    a non-negative integer or the sentinel [UNKNOWN]; the code reads the
    raw field ([start.offset]), so the sentinel is a value of the same
    unsigned 64-bit type, its largest one. *)
Definition UNKNOWN : Z := 2 ^ 64 - 1.

(** Modelled from the spec: [Offset::isUnknown], the test for the
    sentinel. *)
Definition isUnknown (o : Z) : bool := o =? UNKNOWN.

(** Modelled from the spec: arithmetic with [UNKNOWN] yields [UNKNOWN];
    a sum that leaves the type is unknown as well. *)
Definition add (a b : Z) : Z :=
  if isUnknown a || isUnknown b || (UNKNOWN - b <=? a) then UNKNOWN
  else a + b.

(** Modelled from the spec: the difference, [UNKNOWN] when an operand is
    or when it would be negative. *)
Definition sub (a b : Z) : Z :=
  if isUnknown a || isUnknown b || (a <? b) then UNKNOWN
  else a - b.

End Offset.

(** Modelled from the spec: [intervalsOverlap] of [RDMap.h] is missing.
    The arguments are (start, length) pairs of half-open byte ranges
    [[start, start+length)]; a length of [UNKNOWN] reaches to the end of
    the object. *)
Definition intervalsDisjunctive (a a_len b b_len : Z) : bool :=
  if Offset.isUnknown a_len then
    if Offset.isUnknown b_len then false
    else if a <=? b then false else b_len <=? a - b
  else if Offset.isUnknown b_len then
    if a <=? b then a_len <=? b - a else false
  else if a <=? b then a_len <=? b - a else b_len <=? a - b.

(** Modelled from the spec: [intervalsOverlap] of [RDMap.h], the negation
    of the above. *)
Definition intervalsOverlap (a1 a2 b1 b2 : Z) : bool :=
  negb (intervalsDisjunctive a1 a2 b1 b2).

(** ** [class Interval] (IntervalMap.h, lines 16-68) *)

Record Interval : Type := mkInterval { start : Z; len : Z }.

#[global] Instance Interval_eq_dec : EqDecision Interval.
Proof. solve_decision. Defined.

Module IntervalOps.

Definition isUnknown (i : Interval) : bool :=
  Offset.isUnknown (start i) || (len i =? 0).

Definition overlaps (i other : Interval) : bool :=
  if isUnknown i || isUnknown other then false
  else intervalsOverlap (start i) (len i) (start other) (len other).

Definition isSubsetOf (i other : Interval) : bool :=
  (start other <=? start i)
  && (Offset.add (start i) (len i)
      <=? Offset.add (start other) (len other)).

Definition getStart (i : Interval) : Z := start i.
Definition getLength (i : Interval) : Z := len i.

(** [Interval::min] and [Interval::max], on the raw offsets. *)
Definition min (a b : Z) : Z := if a <? b then a else b.
Definition max (a b : Z) : Z := if b <? a then a else b.

(** [Interval::unite] changes the interval in place and tells whether it
    did: the result is the flag and the interval afterwards. *)
Definition unite (i other : Interval) : bool * Interval :=
  if isUnknown i || isUnknown other then (false, i)
  else if overlaps i other
          || (Offset.add (start i) (len i) =? start other)
          || (Offset.add (start other) (len other) =? start i)
  then
    let a := min (start i) (start other) in
    let b := max (Offset.add (start i) (len i))
               (Offset.add (start other) (len other)) in
    (true, mkInterval a (Offset.sub b a))
  else (false, i).

End IntervalOps.

(** ** [class DisjointIntervalSet] (IntervalMap.h, lines 70-123) *)

Module DisjointIntervalSet.
Import IntervalOps.

(** The loop of [insert]: [interval] swallows the elements it can be
    united with, which are erased; the others stay. *)
Fixpoint insert_loop (interval : Interval) (intervals : list Interval)
    : Interval * list Interval :=
  match intervals with
  | [] => (interval, [])
  | it :: rest =>
      let '(united, interval') := unite interval it in
      if united then insert_loop interval' rest
      else
        let '(final, kept) := insert_loop interval' rest in
        (final, it :: kept)
  end.

Definition insert (interval : Interval) (intervals : list Interval)
    : list Interval :=
  let '(final, kept) := insert_loop interval intervals in
  kept ++ [final].

(** The constructor from a container inserts its elements one by one. *)
Definition of_container (c : list Interval) : list Interval :=
  fold_left (λ s i, insert i s) c [].

End DisjointIntervalSet.

(** ** [class IntervalMap<V>] (IntervalMap.h, lines 134-249)

    [buckets] is a vector of (interval, value) pairs. *)

Module IntervalMap.
Import IntervalOps.

Section WithValue.
Context {V : Type}.

Definition buckets_t : Type := list (Interval * V).

(** The loop of [killOverlapping].  It carries the local vector
    [to_add] next to the buckets that stay; the second piece is pushed
    from the value that the first [std::move] has already taken. *)
Fixpoint killOverlapping_loop (ki : Interval) (buckets : buckets_t)
    (to_add : buckets_t) : buckets_t * buckets_t :=
  match buckets with
  | [] => ([], to_add)
  | (interval, v) :: rest =>
      if overlaps interval ki then
        let to_add' :=
          if negb (isSubsetOf ki interval) then
            let new_int1 :=
              mkInterval (getStart interval)
                (Offset.sub (getStart ki) (getStart interval)) in
            let start2 := Offset.add (getStart ki) (getLength ki) in
            let end2 :=
              Offset.add (getStart interval) (getLength interval) in
            let new_int2 := mkInterval start2 (Offset.sub end2 start2) in
            to_add ++ [(new_int1, v); (new_int2, v)]
          else to_add in
        killOverlapping_loop ki rest to_add'
      else
        let '(kept, to_add') := killOverlapping_loop ki rest to_add in
        ((interval, v) :: kept, to_add')
  end.

(** [to_add] is a local of the method and goes out of scope with it:
    only the buckets survive. *)
Definition killOverlapping (ki : Interval) (buckets : buckets_t)
    : buckets_t :=
  fst (killOverlapping_loop ki buckets []).

Definition add (interval : Interval) (value : V) (buckets : buckets_t)
    : buckets_t :=
  buckets ++ [(interval, value)].

(** The test shared by [collect] and [collectAll]. *)
Definition hits (interval : Interval) (key : Interval) : bool :=
  isUnknown interval || isUnknown key || overlaps key interval.

Definition collectAll (interval : Interval) (buckets : buckets_t)
    : list V :=
  map snd (List.filter (λ b, hits interval (fst b)) (rev buckets)).

(** [isCovered]: an unknown interval counts as covered; a known one is
    covered when one element of the set contains it. *)
Definition isCovered (interval : Interval) (intervals : list Interval)
    : bool :=
  if isUnknown interval then true
  else existsb (λ it, overlaps interval it && isSubsetOf interval it)
         intervals.

(** One round of the loop of [collect] on the bucket [b]; the state is
    ([result], [intervals], [is_covered]). *)
Definition collect_step (interval : Interval)
    (st : list V * list Interval * bool) (b : Interval * V)
    : list V * list Interval * bool :=
  let '(result, intervals, is_covered) := st in
  if isUnknown interval || isUnknown (fst b)
     || (overlaps (fst b) interval && negb (isCovered (fst b) intervals))
  then
    let intervals' := DisjointIntervalSet.insert (fst b) intervals in
    (result ++ [snd b], intervals', isCovered interval intervals')
  else st.

(** [collect]: the buckets are walked from the last one to the first. *)
Definition collect (interval : Interval) (covered : list Interval)
    (buckets : buckets_t) : list V * list Interval * bool :=
  fold_left (collect_step interval) (rev buckets)
    ([], DisjointIntervalSet.of_container covered, false).

End WithValue.
End IntervalMap.

(** ** Def-sites and sets of nodes *)

(** Nodes and blocks are referred to by their index in the graph's node
    and block vectors: [graph.create] appends, nothing is ever removed. *)
Abbreviation NodeId := nat (only parsing).
Abbreviation BlockId := nat (only parsing).

(** Modelled from the spec: [DefSite] is a triple (target, start, length)
    whose target is a node. *)
Record DefSite : Type := mkDefSite { target : NodeId; offset : Z; dlen : Z }.

(** [extern RWNode *UNKNOWN_MEMORY]: the frontend's sentinel node; it is
    node 0 of every graph and is recognised by identity. *)
Definition UNKNOWN_MEMORY : NodeId := 0%nat.

(** Modelled from the spec: [ds.target->isUnknown()], identity with the
    sentinel. *)
Definition targetIsUnknown (ds : DefSite) : bool :=
  Nat.eqb (target ds) UNKNOWN_MEMORY.

(** [{UNKNOWN_MEMORY, 0, Offset::UNKNOWN}] *)
Definition unknownSite : DefSite := mkDefSite UNKNOWN_MEMORY 0 Offset.UNKNOWN.

(** A set of node or block pointers ([std::set], [DefUses]), kept as a
    list without repetition in the order of insertion; only membership is
    meant, but for the worklist of [performGvn], whose order is modelled
    below. *)
Definition set_insert (x : nat) (s : list nat) : list nat :=
  if decide (x ∈ s) then s else s ++ [x].

Definition set_insert_all (xs : list nat) (s : list nat) : list nat :=
  fold_left (λ acc x, set_insert x acc) xs s.

(** ** [DefinitionsMap] *)

Module DefinitionsMap.
Import IntervalOps.

(** Modelled from the spec: [DefinitionsMap.h] is missing.  The map takes
    a target to a mapping of intervals to sets of nodes, kept as the list
    of its keys in the order of their insertion. *)
Definition t : Type := list (NodeId * list (Interval * list NodeId)).

Definition empty : t := [].

(** The interval map of a target (empty when the target has none) and its
    replacement, [std::map::operator[]]. *)
Fixpoint find (m : t) (tgt : NodeId) : list (Interval * list NodeId) :=
  match m with
  | [] => []
  | (k, b) :: rest => if Nat.eqb k tgt then b else find rest tgt
  end.

Fixpoint replace (m : t) (tgt : NodeId) (b : list (Interval * list NodeId))
    : t :=
  match m with
  | [] => [(tgt, b)]
  | (k, b0) :: rest =>
      if Nat.eqb k tgt then (k, b) :: rest
      else (k, b0) :: replace rest tgt b
  end.

(** The range of a def-site as an interval of IntervalMap.h. *)
Definition getInterval (ds : DefSite) : Interval :=
  mkInterval (offset ds) (dlen ds).

(** Modelled from the spec: [get(ds)], all values mapped to any interval
    overlapping [ds]'s range for [ds.target]; an unknown interval overlaps
    nothing.  The set is listed from the newest key on. *)
Definition get (m : t) (ds : DefSite) : list NodeId :=
  set_insert_all
    (concat
       (map snd
          (List.filter
             (λ kv : Interval * list NodeId,
                overlaps (fst kv) (getInterval ds))
             (rev (find m (target ds))))))
    [].

(** The end of an interval, [start + len]; [UNKNOWN] for an interval that
    reaches to the end of the object. *)
Definition iend (i : Interval) : Z := Offset.add (start i) (len i).

(** What a strong update of the range [i] leaves of a key: a key that
    does not overlap [i] as it is, and of a key that overlaps [i] the
    sub-ranges before and behind [i], with the value set of the key. *)
Definition split (i : Interval) (kv : Interval * list NodeId)
    : list (Interval * list NodeId) :=
  if overlaps (fst kv) i then
    (if start (fst kv) <? start i
     then [(mkInterval (start (fst kv))
              (Offset.sub (start i) (start (fst kv))), snd kv)]
     else [])
    ++ (if iend i <? iend (fst kv)
        then [(mkInterval (iend i) (Offset.sub (iend (fst kv)) (iend i)),
               snd kv)]
        else [])
  else [kv].

(** Modelled from the spec: [update(ds, v)], the strong update: clear any
    sub-coverage of [ds] on [ds.target], splitting the overlapping
    neighbours on the boundaries of [ds], then insert [ds.range -> {v}]. *)
Definition update (m : t) (ds : DefSite) (v : NodeId) : t :=
  replace m (target ds)
    (flat_map (split (getInterval ds)) (find m (target ds))
     ++ [(getInterval ds, [v])]).

(** What is left of [piece] once the bytes of [key] are taken out. *)
Definition subtract (key piece : Interval) : list Interval :=
  if overlaps key piece then
    (if start piece <? start key
     then [mkInterval (start piece)
             (Offset.sub (start key) (start piece))]
     else [])
    ++ (if iend key <? iend piece
        then [mkInterval (iend key) (Offset.sub (iend piece) (iend key))]
        else [])
  else [piece].

(** Modelled from the spec: the uncovered gaps inside [ds]'s range under
    [ds.target].  An unknown range has none, as in [isCovered] of
    IntervalMap.h. *)
Definition undefinedIntervals (m : t) (ds : DefSite) : list Interval :=
  if isUnknown (getInterval ds) then []
  else
    fold_left (λ pieces key, flat_map (subtract key) pieces)
      (map fst (find m (target ds))) [getInterval ds].

(** Modelled from the spec: weak update, merge [v] into the value sets
    of the keys that intersect [ds] and insert new keys for the
    uncovered sub-ranges of [ds]. *)
Definition add (m : t) (ds : DefSite) (v : NodeId) : t :=
  let b := find m (target ds) in
  let merged :=
    map (λ kv : Interval * list NodeId,
           if IntervalMap.hits (getInterval ds) (fst kv)
           then (fst kv, set_insert v (snd kv)) else kv) b in
  replace m (target ds)
    (fold_left (λ acc gap, IntervalMap.add gap [v] acc)
       (undefinedIntervals m ds) merged).

(** Modelled from the spec: the weak update with a set of values, used by
    [findAllReachingDefinitions]. *)
Definition add_set (m : t) (ds : DefSite) (vs : list NodeId) : t :=
  fold_left (λ acc v, add acc ds v) vs m.

(** Modelled from the spec: add [v] to the value set of every existing
    (target, interval) key. *)
Definition addAll (m : t) (v : NodeId) : t :=
  map (λ e : NodeId * list (Interval * list NodeId),
         (fst e,
          map (λ kv : Interval * list NodeId,
                 (fst kv, set_insert v (snd kv))) (snd e))) m.

(** Modelled from the spec: [definesTarget(t)], whether the map has an
    entry for the target. *)
Definition definesTarget (m : t) (tgt : NodeId) : bool :=
  existsb (λ e : NodeId * list (Interval * list NodeId),
             Nat.eqb (fst e) tgt) m.

(** Every node stored anywhere in the map. *)
Definition values (m : t) : list NodeId :=
  concat (map (λ e : NodeId * list (Interval * list NodeId),
                 concat (map snd (snd e))) m).

End DefinitionsMap.

(** ** The read-write graph *)

(** Modelled from the spec: node kinds. *)
Inductive RWNodeType : Type := GENERIC | PHI | UNKNOWN.

#[global] Instance RWNodeType_eq_dec : EqDecision RWNodeType.
Proof. solve_decision. Defined.

(** Modelled from the spec: [RWNode]; [successors] are the node-level CFG
    edges that [prependAndUpdateCFG] rewires. *)
Record RWNode : Type := mkRWNode {
  getType : RWNodeType;
  getBBlock : option BlockId;
  overwrites : list DefSite;
  defs : list DefSite;
  uses : list DefSite;
  defuse : list NodeId;
  successors : list NodeId
}.

(** Modelled from the spec: [RWBBlock]; a predecessor pointer may be null
    (dead code has no block). *)
Record RWBBlock : Type := mkRWBBlock {
  getNodes : list NodeId;
  definitions : DefinitionsMap.t;
  preds : list (option BlockId)
}.

(** The transformation object: the graph it works on and its registry of
    PHI nodes. *)
Record MemorySSATransformation : Type := mkMemorySSA {
  graph_nodes : list RWNode;
  graph_blocks : list RWBBlock;
  _phis : list NodeId
}.

(** Modelled from the spec: the unique predecessor if exactly one exists. *)
Definition getSinglePredecessor (blk : RWBBlock) : option BlockId :=
  match preds blk with
  | [Some p] => Some p
  | _ => None
  end.

(** Modelled from the spec: a use references unknown memory when a target
    is [UNKNOWN_MEMORY] or an offset is [UNKNOWN]. *)
Definition usesUnknown (nd : RWNode) : bool :=
  existsb (λ ds, targetIsUnknown ds || Offset.isUnknown (offset ds)
                 || Offset.isUnknown (dlen ds)) (uses nd).

(** ** Results and the state monad of the transformation *)

Inductive Failure : Type := AssertionFailed | NullPointer | DanglingPointer.

Inductive result (A : Type) : Type :=
| Ok (a : A)
| Abort (f : Failure)
| OutOfFuel.
Arguments Ok {A} a.
Arguments Abort {A} f.
Arguments OutOfFuel {A}.

#[global] Instance result_ret : MRet result := λ A a, Ok a.
#[global] Instance result_bind : MBind result := λ A B f r,
  match r with
  | Ok a => f a
  | Abort e => Abort e
  | OutOfFuel => OutOfFuel
  end.

Definition M (A : Type) : Type :=
  MemorySSATransformation → result (A * MemorySSATransformation).

#[global] Instance M_ret : MRet M := λ A a st, Ok (a, st).
#[global] Instance M_bind : MBind M := λ A B f c st,
  match c st with
  | Ok (a, st') => f a st'
  | Abort e => Abort e
  | OutOfFuel => OutOfFuel
  end.

Definition abort {A} (e : Failure) : M A := λ _, Abort e.
Definition out_of_fuel {A} : M A := λ _, OutOfFuel.

Definition assert (b : bool) : M unit :=
  if b then mret tt else abort AssertionFailed.

Definition deref {A} (o : option A) : result A :=
  match o with
  | Some a => Ok a
  | None => Abort DanglingPointer
  end.

Fixpoint foldM {A B} (f : A → B → M A) (a : A) (l : list B) : M A :=
  match l with
  | [] => mret a
  | x :: rest => a' ← f a x; foldM f a' rest
  end.

Definition forM_ {B} (l : list B) (f : B → M unit) : M unit :=
  foldM (λ _ x, f x) tt l.

Fixpoint fold_result {A B} (f : A → B → result A) (a : A) (l : list B)
    : result A :=
  match l with
  | [] => Ok a
  | x :: rest => a' ← f a x; fold_result f a' rest
  end.

Definition getNode (n : NodeId) : M RWNode := λ st,
  match graph_nodes st !! n with
  | Some nd => Ok (nd, st)
  | None => Abort DanglingPointer
  end.

Definition getBlock (b : BlockId) : M RWBBlock := λ st,
  match graph_blocks st !! b with
  | Some blk => Ok (blk, st)
  | None => Abort DanglingPointer
  end.

Definition modifyNode (n : NodeId) (f : RWNode → RWNode) : M unit := λ st,
  match graph_nodes st !! n with
  | Some nd =>
      Ok (tt, mkMemorySSA (<[n := f nd]> (graph_nodes st))
                (graph_blocks st) (_phis st))
  | None => Abort DanglingPointer
  end.

Definition modifyBlock (b : BlockId) (f : RWBBlock → RWBBlock) : M unit :=
  λ st,
  match graph_blocks st !! b with
  | Some blk =>
      Ok (tt, mkMemorySSA (graph_nodes st)
                (<[b := f blk]> (graph_blocks st)) (_phis st))
  | None => Abort DanglingPointer
  end.

Definition phis_size : M nat := λ st, Ok (length (_phis st), st).
Definition phis_from (i : nat) : M (list NodeId) := λ st,
  Ok (drop i (_phis st), st).

(** ** Graph and block primitives *)

(** Modelled from the spec: [graph.create(type)] makes a new node, in no
    block and with empty def-sites; it is the last node of the graph. *)
Definition graph_create (ty : RWNodeType) : M NodeId := λ st,
  let n := length (graph_nodes st) in
  Ok (n, mkMemorySSA (graph_nodes st ++ [mkRWNode ty None [] [] [] [] []])
           (graph_blocks st) (_phis st)).

(** [_phis.emplace_back(...)] *)
Definition phis_emplace_back (n : NodeId) : M unit := λ st,
  Ok (tt, mkMemorySSA (graph_nodes st) (graph_blocks st) (_phis st ++ [n])).

(** Modelled from the spec: [addOverwrites] appends a def-site to the
    strong updates of the node. *)
Definition addOverwrites (n : NodeId) (ds : DefSite) : M unit :=
  modifyNode n (λ nd,
    mkRWNode (getType nd) (getBBlock nd) (overwrites nd ++ [ds]) (defs nd)
      (uses nd) (defuse nd) (successors nd)).

(** Modelled from the spec: [node->defuse.add(container)], a union into
    the defuse set. *)
Definition defuse_add (n : NodeId) (found : list NodeId) : M unit :=
  modifyNode n (λ nd,
    mkRWNode (getType nd) (getBBlock nd) (overwrites nd) (defs nd) (uses nd)
      (set_insert_all found (defuse nd)) (successors nd)).

Definition setDefinitions (b : BlockId) (m : DefinitionsMap.t) : M unit :=
  modifyBlock b (λ blk, mkRWBBlock (getNodes blk) m (preds blk)).

(** The edges that entered [old] now enter [new]. *)
Definition retarget (old new : NodeId) (nd : RWNode) : RWNode :=
  mkRWNode (getType nd) (getBBlock nd) (overwrites nd) (defs nd) (uses nd)
    (defuse nd)
    (map (λ s, if Nat.eqb s old then new else s) (successors nd)).

(** Modelled from the spec: [prependAndUpdateCFG(n)] installs [n] as the
    new first node of the block, makes the former first node the successor
    of [n] and lets the block's entry edges target [n]; [n] now belongs to
    the block. *)
Definition prependAndUpdateCFG (b : BlockId) (n : NodeId) : M unit :=
  blk ← getBlock b;
  _ ← (λ st,
        match head (getNodes blk) with
        | Some h =>
            Ok (tt, mkMemorySSA (retarget h n <$> graph_nodes st)
                      (graph_blocks st) (_phis st))
        | None => Ok (tt, st)
        end);
  _ ← modifyNode n (λ nd,
        mkRWNode (getType nd) (Some b) (overwrites nd) (defs nd) (uses nd)
          (defuse nd) (option_list (head (getNodes blk))));
  modifyBlock b (λ blk', mkRWBBlock (n :: getNodes blk') (definitions blk')
                           (preds blk')).

(** ** MemorySSA.cpp *)

(** Lines 51-65 of [findDefinitions] and lines 93-105 of
    [findDefinitionsInBlock], which are the same statements: create the PHI
    in the registry, give it its one overwritten range, record it in the
    block's definitions and put it at the head of the block. *)
Definition emplacePhi (block : BlockId) (ds : DefSite) (interval : Interval)
    : M NodeId :=
  phi ← graph_create PHI;
  _ ← phis_emplace_back phi;
  let site := mkDefSite (target ds) (start interval) (len interval) in
  _ ← addOverwrites phi site;
  blk ← getBlock block;
  _ ← assert (bool_decide (DefinitionsMap.get (definitions blk) site = []));
  _ ← setDefinitions block (DefinitionsMap.update (definitions blk) site phi);
  _ ← prependAndUpdateCFG block phi;
  mret phi.

(** The body of the loop over [uncovered] in [findDefinitions]; [recur] is
    the recursive call. *)
Definition findDefinitions_step
    (recur : option BlockId → DefSite → M (list NodeId)) (block : BlockId)
    (ds : DefSite) (defs : list NodeId) (interval : Interval)
    : M (list NodeId) :=
  blk ← getBlock block;
  match getSinglePredecessor blk with
  | Some pred =>
      pdefs ← recur (Some pred) ds;
      mret (defs ++ pdefs)
  | None =>
      phi ← emplacePhi block ds interval;
      mret (defs ++ [phi])
  end.

(** [findDefinitions], lines 18-73.  [fuel] bounds the depth of the
    recursion into single predecessors; a target is an index and cannot be
    null, so the assertion on [ds.target] has no counterpart. *)
Fixpoint findDefinitions (fuel : nat) (block : option BlockId) (ds : DefSite)
    {struct fuel} : M (list NodeId) :=
  match block with
  | None => mret []
  | Some b =>
      match fuel with
      | O => out_of_fuel
      | S fuel' =>
          blk ← getBlock b;
          let defSet := DefinitionsMap.get (definitions blk) ds in
          let unknown := DefinitionsMap.get (definitions blk) unknownSite in
          let uncovered :=
            DefinitionsMap.undefinedIntervals (definitions blk) ds in
          foldM (findDefinitions_step (findDefinitions fuel') b ds)
            (defSet ++ unknown) uncovered
      end
  end.

(** [findDefinitionsInBlock], lines 78-111. *)
Definition findDefinitionsInBlock (block : BlockId) (ds : DefSite)
    : M (list NodeId) :=
  blk ← getBlock block;
  let defSet := DefinitionsMap.get (definitions blk) ds in
  let unknown := DefinitionsMap.get (definitions blk) unknownSite in
  let uncovered := DefinitionsMap.undefinedIntervals (definitions blk) ds in
  foldM (λ defs interval,
           phi ← emplacePhi block ds interval;
           mret (defs ++ [phi]))
    (defSet ++ unknown) uncovered.

(** [performLvn(block)], the three loops over one node. *)

Definition performLvn_overwrite (block : BlockId) (node : NodeId)
    (ds : DefSite) : M unit :=
  _ ← assert (negb (Offset.isUnknown (offset ds)));
  _ ← assert (negb (targetIsUnknown ds));
  blk ← getBlock block;
  setDefinitions block (DefinitionsMap.update (definitions blk) ds node).

Definition performLvn_def (block : BlockId) (node : NodeId) (ds : DefSite)
    : M unit :=
  if targetIsUnknown ds then
    blk ← getBlock block;
    let all := DefinitionsMap.addAll (definitions blk) node in
    setDefinitions block
      (DefinitionsMap.add all (mkDefSite (target ds) 0 Offset.UNKNOWN) node)
  else
    found ← findDefinitionsInBlock block ds;
    _ ← defuse_add node found;
    blk ← getBlock block;
    setDefinitions block (DefinitionsMap.add (definitions blk) ds node).

Definition performLvn_use (block : BlockId) (node : NodeId) (ds : DefSite)
    : M unit :=
  found ← findDefinitionsInBlock block ds;
  defuse_add node found.

Definition performLvn_node (block : BlockId) (node : NodeId) : M unit :=
  nd ← getNode node;
  _ ← forM_ (overwrites nd) (performLvn_overwrite block node);
  _ ← forM_ (defs nd) (performLvn_def block node);
  forM_ (uses nd) (performLvn_use block node).

(** The range-for over [block->getNodes()] walks the nodes the block had
    on entry: PHIs go in front of the iterator. *)
Definition performLvn_block (block : BlockId) : M unit :=
  blk ← getBlock block;
  forM_ (getNodes blk) (performLvn_node block).

Definition performLvn : M unit := λ st,
  forM_ (seq 0 (length (graph_blocks st))) performLvn_block st.

(** [std::set<RWNode *> phis]: the worklist of [performGvn] is ordered by
    the addresses of the nodes, [addr]; [phis.begin()] is the node of least
    address. *)
Fixpoint least (addr : NodeId → Z) (x : NodeId) (l : list NodeId) : NodeId :=
  match l with
  | [] => x
  | y :: rest => least addr (if addr y <? addr x then y else x) rest
  end.

Definition pop_begin (addr : NodeId → Z) (phis : list NodeId)
    : option (NodeId * list NodeId) :=
  match phis with
  | [] => None
  | x :: rest =>
      let m := least addr x rest in
      Some (m, List.filter (λ y, negb (Nat.eqb y m)) phis)
  end.

(** The loop over the predecessors of the PHI's block. *)
Definition performGvn_pred (depth : nat) (phi : NodeId) (ds : DefSite)
    (phis : list NodeId) (I : option BlockId) : M (list NodeId) :=
  old_phis_size ← phis_size;
  found ← findDefinitions depth I ds;
  _ ← defuse_add phi found;
  new ← phis_from old_phis_size;
  mret (set_insert_all new phis).

Fixpoint performGvn_loop (addr : NodeId → Z) (depth fuel : nat)
    (phis : list NodeId) {struct fuel} : M unit :=
  match pop_begin addr phis with
  | None => mret tt
  | Some (phi, rest) =>
      match fuel with
      | O => out_of_fuel
      | S fuel' =>
          nd ← getNode phi;
          _ ← assert (Nat.eqb (length (overwrites nd)) 1);
          match overwrites nd with
          | [] => abort AssertionFailed
          | ds :: _ =>
              match getBBlock nd with
              | None => abort NullPointer
              | Some block =>
                  blk ← getBlock block;
                  phis' ← foldM (performGvn_pred depth phi ds) rest
                            (preds blk);
                  performGvn_loop addr depth fuel' phis'
              end
          end
      end
  end.

Definition performGvn (addr : NodeId → Z) (depth fuel : nat) : M unit :=
  λ st,
  performGvn_loop addr depth fuel (set_insert_all (_phis st) []) st.

(** ** The query layer

    The queries only read the graph; they are functions of the
    transformation object into [result].  The pair that
    [recGatherNonPhisDefs] threads is ([phis], [ret]): the visited PHIs and
    the non-PHI nodes gathered so far. *)

Definition isPhi (nd : RWNode) : bool := bool_decide (getType nd = PHI).

Definition gather_step
    (recur : NodeId → list NodeId * list NodeId
             → result (list NodeId * list NodeId))
    (g : list RWNode) (acc : list NodeId * list NodeId) (n : NodeId)
    : result (list NodeId * list NodeId) :=
  nd ← deref (g !! n);
  if negb (isPhi nd) then Ok (fst acc, set_insert n (snd acc))
  else recur n acc.

Fixpoint recGatherNonPhisDefs (g : list RWNode) (fuel : nat) (phi : NodeId)
    (acc : list NodeId * list NodeId) {struct fuel}
    : result (list NodeId * list NodeId) :=
  match fuel with
  | O => OutOfFuel
  | S fuel' =>
      nd ← deref (g !! phi);
      if negb (isPhi nd) then Abort AssertionFailed
      else if decide (phi ∈ fst acc) then Ok acc
      else
        fold_result (gather_step (recGatherNonPhisDefs g fuel') g)
          (phi :: fst acc, snd acc) (defuse nd)
  end.

Definition gatherNonPhisDefs (g : list RWNode) (fuel : nat)
    (nodes : list NodeId) : result (list NodeId) :=
  acc ← fold_result (gather_step (recGatherNonPhisDefs g fuel) g) ([], [])
          nodes;
  Ok (snd acc).

(** The LVN rules replayed on a local map, lines 246-265. *)
Definition replay_node (nd : RWNode) (node : NodeId)
    (defs0 : DefinitionsMap.t) : DefinitionsMap.t :=
  let defs1 :=
    fold_left (λ m ds, DefinitionsMap.update m ds node) (overwrites nd)
      defs0 in
  fold_left (λ m ds,
               if targetIsUnknown ds then
                 DefinitionsMap.add (DefinitionsMap.addAll m node)
                   (mkDefSite (target ds) 0 Offset.UNKNOWN) node
               else DefinitionsMap.add m ds node)
    (defs nd) defs1.

Fixpoint replay_block (g : list RWNode) (from : NodeId)
    (nodes : list NodeId) (defs0 : DefinitionsMap.t)
    : result DefinitionsMap.t :=
  match nodes with
  | [] => Ok defs0
  | node :: rest =>
      if Nat.eqb node from then Ok defs0
      else
        nd ← deref (g !! node);
        replay_block g from rest (replay_node nd node defs0)
  end.

(** Lines 309-328: what one predecessor block adds to the local map and to
    the found definitions. *)
Definition absorb_entry
    (acc : DefinitionsMap.t * list NodeId)
    (it : NodeId * list (Interval * list NodeId))
    : DefinitionsMap.t * list NodeId :=
  let '(defs0, foundDefs) := acc in
  if negb (DefinitionsMap.definesTarget defs0 (fst it)) then
    (DefinitionsMap.replace defs0 (fst it) (snd it),
     set_insert_all (concat (map snd (snd it))) foundDefs)
  else
    (fold_left (λ m (it2 : Interval * list NodeId),
                  fold_left (λ m' undefInterv,
                               DefinitionsMap.add_set m'
                                 (mkDefSite (fst it) (start undefInterv)
                                    (len undefInterv))
                                 (snd it2))
                    (DefinitionsMap.undefinedIntervals m
                       (mkDefSite (fst it) (start (fst it2))
                          (len (fst it2))))
                    m)
       (snd it) defs0,
     foundDefs).

(** The block walker, lines 297-339; the pair it threads is
    ([foundDefs], [visitedBlocks]). *)
Fixpoint findAllReachingDefinitions_walk (bs : list RWBBlock) (fuel : nat)
    (defs0 : DefinitionsMap.t) (from : option BlockId)
    (acc : list NodeId * list BlockId) {struct fuel}
    : result (list NodeId * list BlockId) :=
  match from with
  | None => Ok acc
  | Some b =>
      match fuel with
      | O => OutOfFuel
      | S fuel' =>
          if decide (b ∈ snd acc) then Ok acc
          else
            blk ← deref (bs !! b);
            let '(defs1, foundDefs) :=
              fold_left absorb_entry (definitions blk) (defs0, fst acc) in
            match getSinglePredecessor blk with
            | Some singlePred =>
                findAllReachingDefinitions_walk bs fuel' defs1
                  (Some singlePred) (foundDefs, b :: snd acc)
            | None =>
                fold_result
                  (λ a I, findAllReachingDefinitions_walk bs fuel' defs1 I a)
                  (foundDefs, b :: snd acc) (preds blk)
            end
      end
  end.

Definition findAllReachingDefinitions (st : MemorySSATransformation)
    (fuel : nat) (from : NodeId) : result (list NodeId) :=
  nd ← deref (graph_nodes st !! from);
  match getBBlock nd with
  | None => Abort AssertionFailed
  | Some block =>
      blk ← deref (graph_blocks st !! block);
      defs0 ← replay_block (graph_nodes st) from (getNodes blk)
                DefinitionsMap.empty;
      let foundDefs := set_insert_all (DefinitionsMap.values defs0) [] in
      acc ← match getSinglePredecessor blk with
            | Some singlePred =>
                findAllReachingDefinitions_walk (graph_blocks st) fuel defs0
                  (Some singlePred) (foundDefs, [])
            | None =>
                fold_result
                  (λ a I,
                     findAllReachingDefinitions_walk (graph_blocks st) fuel
                       defs0 I a)
                  (foundDefs, []) (preds blk)
            end;
      gatherNonPhisDefs (graph_nodes st) fuel (fst acc)
  end.

Definition getReachingDefinitions (st : MemorySSATransformation)
    (fuel : nat) (use : NodeId) : result (list NodeId) :=
  nd ← deref (graph_nodes st !! use);
  if usesUnknown nd then findAllReachingDefinitions st fuel use
  else gatherNonPhisDefs (graph_nodes st) fuel (defuse nd).

(** Recursion depth that the queries never exceed on this graph. *)
Definition query_fuel (st : MemorySSATransformation) : nat :=
  S (Nat.max (length (graph_nodes st)) (length (graph_blocks st))).

(** The whole pipeline on a graph handed over by the frontend. *)
Definition run (addr : NodeId → Z) (depth fuel : nat) : M unit :=
  _ ← performLvn;
  performGvn addr depth fuel.

(** ** Auxiliary predicates and example graphs *)

(** Scenario S4 of the specification. *)
Module S4.
Definition t : NodeId := 1%nat.
Definition n1 : NodeId := 2%nat.
Definition nU : NodeId := 3%nat.
Definition u : NodeId := 4%nat.

Definition node (b : option BlockId) (o d us : list DefSite) : RWNode :=
  mkRWNode GENERIC b o d us [] [].

(** Block 0 holds [n1; nU; u]; nodes 0 and 1 are [UNKNOWN_MEMORY] and the
    target [t]. *)
Definition graph : MemorySSATransformation :=
  mkMemorySSA
    [ mkRWNode UNKNOWN None [] [] [] [] [];
      node None [] [] [];
      node (Some 0%nat) [mkDefSite t 0 4] [] [];
      node (Some 0%nat) [] [mkDefSite UNKNOWN_MEMORY 0 Offset.UNKNOWN] [];
      node (Some 0%nat) [] [] [mkDefSite t 0 4] ]
    [ mkRWBBlock [n1; nU; u] DefinitionsMap.empty [] ]
    [].

(** The same graph once analysed: [u] has its two definitions and the
    block its definitions map; nothing else has changed. *)
Definition analysed : MemorySSATransformation :=
  mkMemorySSA
    [ mkRWNode UNKNOWN None [] [] [] [] [];
      node None [] [] [];
      node (Some 0%nat) [mkDefSite t 0 4] [] [];
      node (Some 0%nat) [] [mkDefSite UNKNOWN_MEMORY 0 Offset.UNKNOWN] [];
      mkRWNode GENERIC (Some 0%nat) [] [] [mkDefSite t 0 4] [n1; nU] [] ]
    [ mkRWBBlock [n1; nU; u]
        [ (t, [(mkInterval 0 4, [n1; nU])]);
          (UNKNOWN_MEMORY, [(mkInterval 0 Offset.UNKNOWN, [nU])]) ]
        [] ]
    [].
End S4.

(** Scenario S3 of the specification: block 0 holds [n1; n2; u], where
    [n1] overwrites [(t, 0, 8)], [n2] overwrites [(t, 2, 2)] and [u] reads
    [(t, 0, 8)]. *)
Module S3.
Definition t : NodeId := 1%nat.
Definition n1 : NodeId := 2%nat.
Definition n2 : NodeId := 3%nat.
Definition u : NodeId := 4%nat.

Definition graph : MemorySSATransformation :=
  mkMemorySSA
    [ mkRWNode UNKNOWN None [] [] [] [] [];
      mkRWNode GENERIC None [] [] [] [] [];
      mkRWNode GENERIC (Some 0%nat) [mkDefSite t 0 8] [] [] [] [];
      mkRWNode GENERIC (Some 0%nat) [mkDefSite t 2 2] [] [] [] [];
      mkRWNode GENERIC (Some 0%nat) [] [] [mkDefSite t 0 8] [] [] ]
    [ mkRWBBlock [n1; n2; u] DefinitionsMap.empty [] ]
    [].

(** The reaching definitions of [u] once the graph is analysed, the
    addresses of the nodes growing with the order of their creation. *)
Definition reaching : result (list NodeId) :=
  match run Z.of_nat 4 8 graph with
  | Ok (_, st) => getReachingDefinitions st (query_fuel st) u
  | Abort e => Abort e
  | OutOfFuel => OutOfFuel
  end.
End S3.

(** The node that [emplacePhi] creates in block [b] for [site], and the
    transformation it leaves: the PHI is the last node of the graph and of
    the registry, the first node of [b], and [b]'s definitions are
    strongly updated with it. *)
Definition phi_node (b : BlockId) (blk : RWBBlock) (site : DefSite) : RWNode :=
  mkRWNode PHI (Some b) [site] [] [] [] (option_list (head (getNodes blk))).

Definition emplaced (st : MemorySSATransformation) (b : BlockId)
    (blk : RWBBlock) (site : DefSite) : MemorySSATransformation :=
  let phi := length (graph_nodes st) in
  mkMemorySSA
    (match head (getNodes blk) with
     | Some h => retarget h phi <$> graph_nodes st
     | None => graph_nodes st
     end ++ [phi_node b blk site])
    (<[b := mkRWBBlock (phi :: getNodes blk)
              (DefinitionsMap.update (definitions blk) site phi)
              (preds blk)]> (graph_blocks st))
    (_phis st ++ [phi]).

(** A partial-correctness triple for the transformation's monad: a run from
    a state in [P] that returns ends in [Q], and a run that aborts does not
    abort on a null pointer. *)
Definition hoare {A} (P : MemorySSATransformation → Prop) (c : M A)
    (Q : A → MemorySSATransformation → Prop) : Prop :=
  ∀ st, P st →
    match c st with
    | Ok (a, st') => Q a st'
    | Abort e => e ≠ NullPointer
    | OutOfFuel => True
    end.

(** The node exists and lies in a block. *)
Definition has_block (st : MemorySSATransformation) (n : NodeId) : Prop :=
  ∃ nd b, graph_nodes st !! n = Some nd ∧ getBBlock nd = Some b.

(** Every PHI of the registry lies in a block, and the registry holds at
    least the nodes [X]. *)
Definition phis_have_block (X : list NodeId) (st : MemorySSATransformation)
    : Prop :=
  Forall (has_block st) (_phis st) ∧ X ⊆ _phis st.

(** The node [node] exists and is not in its own defuse set. *)
Definition not_self_defined (node : NodeId) (st : MemorySSATransformation)
    : Prop :=
  ∃ nd, graph_nodes st !! node = Some nd ∧ node ∉ defuse nd.

(** A fork: block 0 (the entry, holding node 2) precedes blocks 1 and 2,
    whose nodes 3 and 4 read the overlapping ranges [(t, 0, 4)] and
    [(t, 2, 4)] of the target [t] (node 1). *)
Module Fork.
Definition t : NodeId := 1%nat.

Definition node (b : option BlockId) (us : list DefSite) : RWNode :=
  mkRWNode GENERIC b [] [] us [] [].

Definition graph : MemorySSATransformation :=
  mkMemorySSA
    [ mkRWNode UNKNOWN None [] [] [] [] [];
      node None [];
      node (Some 0%nat) [];
      node (Some 1%nat) [mkDefSite t 0 4];
      node (Some 2%nat) [mkDefSite t 2 4] ]
    [ mkRWBBlock [2%nat] DefinitionsMap.empty [];
      mkRWBBlock [3%nat] DefinitionsMap.empty [Some 0%nat];
      mkRWBBlock [4%nat] DefinitionsMap.empty [Some 0%nat] ]
    [].

(** Two layouts of the nodes in memory: addresses growing, and falling,
    with the order of creation. *)
Definition ascending (n : NodeId) : Z := Z.of_nat n.
Definition descending (n : NodeId) : Z := - Z.of_nat n.

(** The defuse set of node [n] after a run, if the run returned. *)
Definition defuse_after (r : result (unit * MemorySSATransformation))
    (n : NodeId) : option (list NodeId) :=
  match r with
  | Ok (_, st) => defuse <$> graph_nodes st !! n
  | _ => None
  end.
End Fork.

(** A node with two weak definitions of overlapping ranges of [t]. *)
Module TwoDefs.
Definition t : NodeId := 1%nat.
Definition n : NodeId := 2%nat.

Definition graph : MemorySSATransformation :=
  mkMemorySSA
    [ mkRWNode UNKNOWN None [] [] [] [] [];
      mkRWNode GENERIC None [] [] [] [] [];
      mkRWNode GENERIC (Some 0%nat) []
        [mkDefSite t 0 4; mkDefSite t 2 4] [] [] [] ]
    [ mkRWBBlock [n] DefinitionsMap.empty [] ]
    [].
End TwoDefs.

(** ** Measures and predicates for the queries *)

(** How many elements of [l] are not in [visited]. *)
Definition count (l visited : list nat) : nat :=
  length (List.filter (λ i, negb (bool_decide (i ∈ visited))) l).

(** How many of the indices below [n] are not in [visited]. *)
Definition unvisited (n : nat) (visited : list nat) : nat :=
  count (seq 0 n) visited.

(** The node exists and is not a PHI. *)
Definition non_phi (g : list RWNode) (n : NodeId) : Prop :=
  ∃ nd, g !! n = Some nd ∧ getType nd ≠ PHI.

(** Well-formed graphs: the pointers they hold are pointers to their own
    nodes and blocks. *)
Definition closed_defuse (g : list RWNode) : Prop :=
  ∀ n nd m, g !! n = Some nd → m ∈ defuse nd → (m < length g)%nat.

Definition closed_preds (bs : list RWBBlock) : Prop :=
  ∀ b blk p, bs !! b = Some blk → Some p ∈ preds blk → (p < length bs)%nat.

Definition closed_blocks (st : MemorySSATransformation) : Prop :=
  ∀ b blk n,
    graph_blocks st !! b = Some blk →
    n ∈ getNodes blk ∨ n ∈ DefinitionsMap.values (definitions blk) →
    (n < length (graph_nodes st))%nat.

Definition well_formed (st : MemorySSATransformation) : Prop :=
  closed_defuse (graph_nodes st) ∧ closed_preds (graph_blocks st)
  ∧ closed_blocks st.

(** [use] is a node of a well-formed graph and, if it reads unknown
    memory, lies in a block of the graph. *)
Definition query_ready (st : MemorySSATransformation) (use : NodeId) : Prop :=
  well_formed st
  ∧ ∃ nd, graph_nodes st !! use = Some nd
          ∧ (usesUnknown nd = true →
             ∃ b, getBBlock nd = Some b
                  ∧ (b < length (graph_blocks st))%nat).

(** What a gathering run from [acc] may end in: the visited PHIs only
    grow, the gathered nodes stay non-PHI, the recursion depth was enough,
    and only a pointer out of the graph aborts it ([V] says that the
    pointers the run starts from are in the graph). *)
Definition gather_ok (g : list RWNode) (V : Prop)
    (acc : list NodeId * list NodeId)
    (r : result (list NodeId * list NodeId)) : Prop :=
  match r with
  | Ok acc' =>
      fst acc ⊆ fst acc'
      ∧ (Forall (non_phi g) (snd acc) → Forall (non_phi g) (snd acc'))
  | Abort _ => V → ¬ closed_defuse g
  | OutOfFuel => False
  end.

(** [x] is one of [found] or is recorded in the definitions of a block. *)
Definition from_blocks (bs : list RWBBlock) (found : list NodeId)
    (x : NodeId) : Prop :=
  x ∈ found
  ∨ ∃ b blk, bs !! b = Some blk
             ∧ x ∈ DefinitionsMap.values (definitions blk).

(** The same for the block walker: the visited blocks only grow and the
    definitions found come from the blocks' definitions. *)
Definition walk_ok (bs : list RWBBlock) (V : Prop)
    (acc : list NodeId * list BlockId)
    (r : result (list NodeId * list BlockId)) : Prop :=
  match r with
  | Ok acc' =>
      snd acc ⊆ snd acc' ∧ ∀ x, x ∈ fst acc' → from_blocks bs (fst acc) x
  | Abort _ => V → ¬ closed_preds bs
  | OutOfFuel => False
  end.

(** Two PHIs (nodes 3 and 4) that define each other; node 2 writes
    [(t, 0, 4)], node 5 reads it through the PHI 4. *)
Module Cycle.
Definition t : NodeId := 1%nat.

Definition graph : MemorySSATransformation :=
  mkMemorySSA
    [ mkRWNode UNKNOWN None [] [] [] [] [];
      mkRWNode GENERIC None [] [] [] [] [];
      mkRWNode GENERIC (Some 0%nat) [mkDefSite t 0 4] [] [] [] [];
      mkRWNode PHI (Some 1%nat) [mkDefSite t 0 4] [] [] [2%nat; 4%nat] [];
      mkRWNode PHI (Some 2%nat) [mkDefSite t 0 4] [] [] [3%nat] [];
      mkRWNode GENERIC (Some 2%nat) [] [] [mkDefSite t 0 4] [4%nat] [] ]
    [ mkRWBBlock [2%nat] [(t, [(mkInterval 0 4, [2%nat])])] [];
      mkRWBBlock [3%nat] [(t, [(mkInterval 0 4, [3%nat])])]
        [Some 0%nat; Some 2%nat];
      mkRWBBlock [4%nat; 5%nat] [(t, [(mkInterval 0 4, [4%nat])])]
        [Some 1%nat] ]
    [3%nat; 4%nat].
End Cycle.

(** ** Predicates on intervals *)

(** A known interval of positive length whose end is a known offset. *)
Definition proper (i : Interval) : Prop :=
  0 ≤ start i ∧ 0 < len i ∧ start i + len i < Offset.UNKNOWN.

(** At least one byte lies between the two intervals. *)
Definition separated (a b : Interval) : Prop :=
  start a + len a < start b ∨ start b + len b < start a.

(** [inside a b]: every byte of [a] is a byte of [b]. *)
Definition inside (a b : Interval) : Prop :=
  start b ≤ start a ∧ start a + len a ≤ start b + len b.

(** Any two elements of the list are related. *)
Fixpoint pairwise {A} (R : A → A → Prop) (l : list A) : Prop :=
  match l with
  | [] => True
  | x :: rest => Forall (R x) rest ∧ pairwise R rest
  end.

(** ** Relations between the transformation before and after *)

(** Every run of [c] that returns relates the state it started from to the
    state it ends in. *)
Definition keeps {A}
    (R : MemorySSATransformation → MemorySSATransformation → Prop)
    (c : M A) : Prop :=
  ∀ st a st', c st = Ok (a, st') → R st st'.

(** A node keeps its kind, its block and its def-sites, and its defuse set
    has lost no node. *)
Definition node_kept (nd nd' : RWNode) : Prop :=
  getType nd' = getType nd ∧ getBBlock nd' = getBBlock nd
  ∧ overwrites nd' = overwrites nd ∧ defs nd' = defs nd
  ∧ uses nd' = uses nd ∧ defuse nd ⊆ defuse nd'.

(** A block keeps its predecessors, and its nodes but for nodes numbered
    from [bound] put in front of them. *)
Definition block_kept (bound : nat) (blk blk' : RWBBlock) : Prop :=
  preds blk' = preds blk
  ∧ ∃ news, getNodes blk' = news ++ getNodes blk
            ∧ Forall (λ n, (bound ≤ n)%nat) news.

(** The node [nd'] of number [n] is a PHI as the transformation makes
    them: one overwritten range, no weak definition, no use, and a place
    among the nodes of the block it belongs to. *)
Definition created_phi (st' : MemorySSATransformation) (n : NodeId)
    (nd' : RWNode) : Prop :=
  getType nd' = PHI ∧ (∃ site, overwrites nd' = [site])
  ∧ defs nd' = [] ∧ uses nd' = []
  ∧ ∃ b blk', getBBlock nd' = Some b ∧ graph_blocks st' !! b = Some blk'
              ∧ n ∈ getNodes blk'.

(** [st'] is [st] with PHIs created: the nodes of [st] are kept, the new
    nodes are PHIs, they are the new entries of the registry in the order
    of their creation, and the blocks are those of [st] with new nodes in
    front. *)
Record extends (st st' : MemorySSATransformation) : Prop := mkExtends {
  ext_length : (length (graph_nodes st) ≤ length (graph_nodes st'))%nat;
  ext_phis :
    _phis st'
    = _phis st ++ seq (length (graph_nodes st))
                    (length (graph_nodes st') - length (graph_nodes st));
  ext_nodes :
    ∀ n nd, graph_nodes st !! n = Some nd →
      ∃ nd', graph_nodes st' !! n = Some nd' ∧ node_kept nd nd';
  ext_blocks_length : length (graph_blocks st') = length (graph_blocks st);
  ext_blocks :
    ∀ b blk, graph_blocks st !! b = Some blk →
      ∃ blk', graph_blocks st' !! b = Some blk'
              ∧ block_kept (length (graph_nodes st)) blk blk';
  ext_created :
    ∀ n nd', (length (graph_nodes st) ≤ n)%nat →
      graph_nodes st' !! n = Some nd' → created_phi st' n nd'
}.

(** The blocks other than [b] are the same in [st'] as in [st]. *)
Definition elsewhere (b : BlockId) (st st' : MemorySSATransformation)
    : Prop :=
  ∀ b', b' ≠ b → graph_blocks st' !! b' = graph_blocks st !! b'.

(** The blocks of [st] that have a single predecessor are the same in
    [st']. *)
Definition single_pred_kept (st st' : MemorySSATransformation) : Prop :=
  ∀ b blk, graph_blocks st !! b = Some blk →
    is_Some (getSinglePredecessor blk) → graph_blocks st' !! b = Some blk.

(** The fork after LVN and GVN, with the addresses growing. *)
Module ForkRun.
Definition analysed : MemorySSATransformation :=
  Eval vm_compute in
    match run Fork.ascending 2 8 Fork.graph with
    | Ok (_, st') => st'
    | _ => Fork.graph
    end.

(** The fork after LVN, and after the LVN of block 1 alone. *)
Definition after_lvn : MemorySSATransformation :=
  Eval vm_compute in
    match performLvn Fork.graph with
    | Ok (_, st') => st'
    | _ => Fork.graph
    end.

Definition after_lvn_of_block_1 : MemorySSATransformation :=
  Eval vm_compute in
    match performLvn_block 1%nat Fork.graph with
    | Ok (_, st') => st'
    | _ => Fork.graph
    end.
End ForkRun.

(** ** Predicates for [gatherNonPhisDefs] *)

(** [reaches g nodes n]: [n] is one of [nodes], or is in the defuse set of
    a PHI that is reached from [nodes]. *)
Inductive reaches (g : list RWNode) (nodes : list NodeId) : NodeId → Prop :=
| reaches_root n : n ∈ nodes → reaches g nodes n
| reaches_defuse p nd n :
    reaches g nodes p → g !! p = Some nd → isPhi nd = true →
    n ∈ defuse nd → reaches g nodes n.

(** The node [n] has been dealt with: it is a visited PHI or a gathered
    node that is no PHI. *)
Definition handled (g : list RWNode) (acc : list NodeId * list NodeId)
    (n : NodeId) : Prop :=
  ∃ nd, g !! n = Some nd ∧ if isPhi nd then n ∈ fst acc else n ∈ snd acc.

(** The loop over the defuse set of [p] is over. *)
Definition expanded (g : list RWNode) (acc : list NodeId * list NodeId)
    (p : NodeId) : Prop :=
  ∀ nd n, g !! p = Some nd → n ∈ defuse nd → handled g acc n.

(** What is visited or gathered is reached from [nodes], and nothing is
    gathered twice. *)
Definition gather_sound (g : list RWNode) (nodes : list NodeId)
    (acc : list NodeId * list NodeId) : Prop :=
  (∀ p, p ∈ fst acc → reaches g nodes p)
  ∧ (∀ x, x ∈ snd acc → reaches g nodes x ∧ non_phi g x)
  ∧ NoDup (snd acc).

(** The effect of gathering from the nodes [ns]: the two sets have grown,
    [ns] are dealt with, and so are the defuse sets of the PHIs that this
    run has visited. *)
Definition gather_post (g : list RWNode) (nodes ns : list NodeId)
    (acc acc' : list NodeId * list NodeId) : Prop :=
  fst acc ⊆ fst acc' ∧ snd acc ⊆ snd acc'
  ∧ (∀ n, n ∈ ns → handled g acc' n)
  ∧ (∀ p, p ∈ fst acc' → p ∈ fst acc ∨ expanded g acc' p)
  ∧ ((∀ n, n ∈ ns → reaches g nodes n) →
     gather_sound g nodes acc → gather_sound g nodes acc').

(** Every target that has an entry in the definitions of a block of
    [bs] has an entry in [defs0]. *)
Definition all_defined (bs : list RWBBlock) (defs0 : DefinitionsMap.t)
    : Prop :=
  Forall (λ blk,
            Forall (λ it : NodeId * list (Interval * list NodeId),
                      DefinitionsMap.definesTarget defs0 (fst it) = true)
              (definitions blk)) bs.

(** ** Triples for the runs that return *)

(** A run of [c] from a state in [P] that returns ends in [Q]. *)
Definition triple {A} (P : MemorySSATransformation → Prop) (c : M A)
    (Q : A → MemorySSATransformation → Prop) : Prop :=
  ∀ st a st', P st → c st = Ok (a, st') → Q a st'.

(** A well-formed transformation with [N] nodes at least. *)
Definition well_formed_from (N : nat) (st : MemorySSATransformation)
    : Prop :=
  well_formed st ∧ (N ≤ length (graph_nodes st))%nat.

(** The pointers [l] are pointers to nodes of the graph. *)
Definition nodes_of (st : MemorySSATransformation) (l : list NodeId)
    : Prop :=
  ∀ x, x ∈ l → (x < length (graph_nodes st))%nat.

(** ** The bytes of intervals *)

(** The byte [z] lies in the interval, and in one of the intervals. *)
Definition contains (i : Interval) (z : Z) : Prop :=
  start i ≤ z < start i + len i.

Definition covers (l : list Interval) (z : Z) : Prop :=
  ∃ i, i ∈ l ∧ contains i z.

(** ** Values of the offset type *)

(** Offsets are numbers in [Z] here; the values of the unsigned type of
    the code are those from 0 to the sentinel. *)
Definition is_offset (z : Z) : Prop := 0 ≤ z ≤ Offset.UNKNOWN.

Definition valid_interval (i : Interval) : Prop :=
  is_offset (start i) ∧ is_offset (len i).

Definition valid_site (ds : DefSite) : Prop :=
  is_offset (offset ds) ∧ is_offset (dlen ds).

(** The keys stored for a target hold values of the offset type. *)
Definition valid_keys (m : DefinitionsMap.t) (tgt : NodeId) : Prop :=
  Forall (λ kv : Interval * list NodeId, valid_interval (fst kv))
    (DefinitionsMap.find m tgt).

(** [a] ends where [b] starts, or before. *)
Definition precedes (a b : Interval) : Prop :=
  DefinitionsMap.iend a ≤ start b.

(** ** The PHIs of one call of [findDefinitions] *)

(** No key of [tgt] in the block overlaps one of the intervals: what
    the assertion in the loop of [findDefinitions] asks of the intervals
    it is about to give a PHI. *)
Definition fresh (tgt : NodeId) (blk : RWBBlock) (gaps : list Interval)
    : Prop :=
  ∀ kv i, kv ∈ DefinitionsMap.find (definitions blk) tgt → i ∈ gaps →
    IntervalOps.overlaps (fst kv) i = false.

(** The transformation after a PHI has been created in block [b] for each
    of the intervals, in their order, under the target [tgt]. *)
Fixpoint emplace_all (st : MemorySSATransformation) (b : BlockId)
    (tgt : NodeId) (intervals : list Interval) : MemorySSATransformation :=
  match intervals with
  | [] => st
  | i :: rest =>
      match graph_blocks st !! b with
      | Some blk =>
          emplace_all
            (emplaced st b blk (mkDefSite tgt (start i) (len i))) b tgt rest
      | None => st
      end
  end.

(** ** The offsets of a transformation *)

(** The def-sites of a node hold values of the offset type. *)
Definition valid_node (nd : RWNode) : Prop :=
  Forall valid_site (overwrites nd) ∧ Forall valid_site (defs nd)
  ∧ Forall valid_site (uses nd).

Definition valid_map (m : DefinitionsMap.t) : Prop :=
  ∀ tgt, valid_keys m tgt.

(** Every offset of the graph, in the def-sites of the nodes and in the
    keys of the blocks' definitions, is a value of the offset type. *)
Definition valid_offsets (st : MemorySSATransformation) : Prop :=
  Forall valid_node (graph_nodes st)
  ∧ Forall (λ blk, valid_map (definitions blk)) (graph_blocks st).
(** * Properties *)

(** Case analysis on every comparison of the goal and the hypotheses. *)
Ltac zcases :=
  repeat match goal with
    | |- context [?a =? ?b] => destruct (Z.eqb_spec a b)
    | |- context [?a <? ?b] => destruct (Z.ltb_spec a b)
    | |- context [?a <=? ?b] => destruct (Z.leb_spec a b)
    | H : context [?a =? ?b] |- _ => destruct (Z.eqb_spec a b)
    | H : context [?a <? ?b] |- _ => destruct (Z.ltb_spec a b)
    | H : context [?a <=? ?b] |- _ => destruct (Z.leb_spec a b)
    end.

Ltac unfold_intervals :=
  unfold IntervalOps.unite, IntervalOps.overlaps, IntervalOps.isSubsetOf,
    IntervalOps.isUnknown, IntervalOps.min, IntervalOps.max,
    intervalsOverlap, intervalsDisjunctive, Offset.add, Offset.sub,
    Offset.isUnknown in *.

(** ** Intervals *)

Lemma isUnknown_spec (i : Interval) :
  IntervalOps.isUnknown i = true ↔ start i = Offset.UNKNOWN ∨ len i = 0.
Proof.
  unfold IntervalOps.isUnknown, Offset.isUnknown.
  rewrite orb_true_iff, !Z.eqb_eq. reflexivity.
Qed.

(** C9.  [overlaps] answers false as soon as one of the two intervals is
    unknown, an interval being unknown exactly when its start is [UNKNOWN]
    or its length is 0; so an interval of length 0 overlaps nothing. *)
Theorem overlaps_unknown_is_false (a b : Interval) :
  (start a = Offset.UNKNOWN ∨ len a = 0)
  ∨ (start b = Offset.UNKNOWN ∨ len b = 0) →
  IntervalOps.overlaps a b = false.
Proof.
  rewrite <- !isUnknown_spec. unfold IntervalOps.overlaps.
  intros [-> | ->]; [reflexivity | ].
  rewrite orb_true_r. reflexivity.
Qed.

Lemma overlaps_unknown_is_false_witness :
  IntervalOps.overlaps (mkInterval 5 0) (mkInterval 0 10) = false
  ∧ IntervalOps.overlaps (mkInterval 0 10) (mkInterval Offset.UNKNOWN 4)
    = false.
Proof.
  split.
  - apply (overlaps_unknown_is_false (mkInterval 5 0) (mkInterval 0 10)).
    left. right. reflexivity.
  - apply (overlaps_unknown_is_false (mkInterval 0 10)
             (mkInterval Offset.UNKNOWN 4)).
    right. left. reflexivity.
Defined.

(** A known interval of positive length overlaps itself. *)
Lemma overlaps_refl (i : Interval) :
  start i ≠ Offset.UNKNOWN → 0 < len i → IntervalOps.overlaps i i = true.
Proof.
  intros Hs Hl. unfold IntervalOps.overlaps, IntervalOps.isUnknown.
  unfold Offset.isUnknown at 1 2.
  destruct (Z.eqb_spec (start i) Offset.UNKNOWN); [contradiction | ].
  destruct (Z.eqb_spec (len i) 0); [lia | ]. simpl.
  unfold intervalsOverlap, intervalsDisjunctive.
  destruct (Offset.isUnknown (len i)); [reflexivity | ].
  rewrite Z.leb_refl, Z.sub_diag.
  destruct (Z.leb_spec (len i) 0); [lia | reflexivity].
Qed.

(** ** Interval maps *)

Section IntervalMapFacts.
Context {V : Type}.
Implicit Types (buckets to_add : list (Interval * V)).

(** Whatever [killOverlapping] computes into [to_add], the buckets that
    survive are those that do not overlap [ki]. *)
Lemma killOverlapping_loop_fst ki buckets to_add :
  fst (IntervalMap.killOverlapping_loop ki buckets to_add)
  = List.filter (λ b, negb (IntervalOps.overlaps (fst b) ki)) buckets.
Proof.
  revert to_add. induction buckets as [ | [interval v] rest IH];
    intros to_add; simpl; [reflexivity | ].
  destruct (IntervalOps.overlaps interval ki); simpl.
  - apply IH.
  - specialize (IH to_add).
    destruct (IntervalMap.killOverlapping_loop ki rest to_add).
    simpl in *. congruence.
Qed.

Lemma killOverlapping_filter ki buckets :
  IntervalMap.killOverlapping ki buckets
  = List.filter (λ b, negb (IntervalOps.overlaps (fst b) ki)) buckets.
Proof. apply killOverlapping_loop_fst. Qed.

Lemma collectAll_app interval buckets1 buckets2 :
  IntervalMap.collectAll interval (buckets1 ++ buckets2)
  = IntervalMap.collectAll interval buckets2
    ++ IntervalMap.collectAll interval buckets1.
Proof.
  unfold IntervalMap.collectAll.
  rewrite rev_app_distr, List.filter_app, map_app. reflexivity.
Qed.

Lemma collectAll_none interval buckets :
  Forall (λ b, IntervalMap.hits interval (fst b) = false) buckets →
  IntervalMap.collectAll interval buckets = [].
Proof.
  unfold IntervalMap.collectAll. intros H.
  apply Forall_rev in H. induction H as [ | b l Hb _ IH]; [reflexivity | ].
  simpl. rewrite Hb. exact IH.
Qed.

(** After kill-then-add on keys that are all known, only the new bucket
    answers a query for [ki]. *)
Lemma collectAll_kill_add ki (v : V) buckets :
  start ki ≠ Offset.UNKNOWN → 0 < len ki →
  Forall (λ b, IntervalOps.isUnknown (fst b) = false) buckets →
  IntervalMap.collectAll ki
    (IntervalMap.add ki v (IntervalMap.killOverlapping ki buckets))
  = [v].
Proof.
  intros Hs Hl Hk. unfold IntervalMap.add. rewrite collectAll_app.
  rewrite (collectAll_none ki (IntervalMap.killOverlapping ki buckets)).
  - unfold IntervalMap.collectAll. simpl. unfold IntervalMap.hits.
    rewrite (overlaps_refl ki Hs Hl), !orb_true_r. reflexivity.
  - rewrite killOverlapping_filter.
    induction Hk as [ | b l Hb _ IH]; simpl; [constructor | ].
    destruct (IntervalOps.overlaps (fst b) ki) eqn:Ho; simpl;
      [exact IH | ].
    constructor; [ | exact IH].
    unfold IntervalMap.hits. rewrite Hb, Ho.
    assert (IntervalOps.isUnknown ki = false) as ->; [ | reflexivity].
    apply not_true_is_false. rewrite isUnknown_spec. lia.
Qed.

End IntervalMapFacts.

(** ** Definition maps *)

Lemma set_insert_all_elem (xs s : list nat) (x : nat) :
  x ∈ set_insert_all xs s ↔ x ∈ xs ∨ x ∈ s.
Proof.
  unfold set_insert_all. revert s.
  induction xs as [ | y ys IH]; intros s; simpl.
  - rewrite elem_of_nil. tauto.
  - rewrite IH, elem_of_cons. unfold set_insert.
    destruct (decide (y ∈ s)) as [Hy | Hy].
    + split; [intros [H | H]; auto | intros [[-> | H] | H]; auto].
    + rewrite elem_of_app, list_elem_of_singleton. tauto.
Qed.

Lemma find_replace (m : DefinitionsMap.t) tgt b :
  DefinitionsMap.find (DefinitionsMap.replace m tgt b) tgt = b.
Proof.
  induction m as [ | [k b0] rest IH]; simpl.
  - rewrite Nat.eqb_refl. reflexivity.
  - destruct (Nat.eqb_spec k tgt) as [-> | Hne]; simpl.
    + rewrite Nat.eqb_refl. reflexivity.
    + destruct (Nat.eqb_spec k tgt); [contradiction | exact IH].
Qed.

(** ** Intervals of the definition maps *)

Section ValidIntervals.
Implicit Types (a b i k p q : Interval).

Lemma valid_known i :
  valid_interval i → IntervalOps.isUnknown i = false →
  0 ≤ start i < Offset.UNKNOWN ∧ 0 < len i ≤ Offset.UNKNOWN.
Proof.
  intros [[H1 H2] [H3 H4]] Hk.
  apply not_true_iff_false in Hk. rewrite isUnknown_spec in Hk. lia.
Qed.

Lemma iend_known i :
  valid_interval i → IntervalOps.isUnknown i = false →
  start i < DefinitionsMap.iend i ≤ Offset.UNKNOWN.
Proof.
  intros Hv Hk. destruct (valid_known i Hv Hk) as [Hs Hl].
  unfold DefinitionsMap.iend, Offset.add, Offset.isUnknown.
  destruct (Z.eqb_spec (start i) Offset.UNKNOWN); [lia | ].
  destruct (Z.eqb_spec (len i) Offset.UNKNOWN); simpl; [lia | ].
  destruct (Z.leb_spec (Offset.UNKNOWN - len i) (start i)); lia.
Qed.

(** Two known intervals overlap when each starts before the end of the
    other. *)
Lemma overlaps_valid a b :
  valid_interval a → valid_interval b →
  IntervalOps.overlaps a b = true
  ↔ IntervalOps.isUnknown a = false ∧ IntervalOps.isUnknown b = false
    ∧ start a < DefinitionsMap.iend b ∧ start b < DefinitionsMap.iend a.
Proof.
  intros Ha Hb. unfold IntervalOps.overlaps.
  destruct (IntervalOps.isUnknown a) eqn:Ka; simpl;
    [split; [discriminate | intros (H & _); discriminate] | ].
  destruct (IntervalOps.isUnknown b) eqn:Kb; simpl;
    [split; [discriminate | intros (_ & H & _); discriminate] | ].
  destruct (valid_known a Ha Ka) as [As Al].
  destruct (valid_known b Hb Kb) as [Bs Bl].
  unfold intervalsOverlap, intervalsDisjunctive, DefinitionsMap.iend.
  unfold Offset.add, Offset.isUnknown.
  destruct (Z.eqb_spec (start a) Offset.UNKNOWN); [lia | ].
  destruct (Z.eqb_spec (start b) Offset.UNKNOWN); [lia | ]. simpl.
  destruct (Z.eqb_spec (len a) Offset.UNKNOWN);
    destruct (Z.eqb_spec (len b) Offset.UNKNOWN); simpl;
    repeat match goal with
      | |- context [?x <=? ?y] => destruct (Z.leb_spec x y); simpl
      end;
    (split; [intros Hov; try discriminate Hov; repeat split; lia
            | intros (_ & _ & Hab & Hba); try reflexivity; lia]).
Qed.

(** The interval from [x] to [y]. *)
Lemma piece_spec (x y : Z) :
  0 ≤ x → x < y → y ≤ Offset.UNKNOWN →
  valid_interval (mkInterval x (Offset.sub y x))
  ∧ IntervalOps.isUnknown (mkInterval x (Offset.sub y x)) = false
  ∧ DefinitionsMap.iend (mkInterval x (Offset.sub y x)) = y.
Proof.
  intros Hx Hxy Hy.
  unfold valid_interval, is_offset, IntervalOps.isUnknown.
  unfold DefinitionsMap.iend, Offset.add, Offset.sub, Offset.isUnknown.
  simpl.
  destruct (Z.eqb_spec x Offset.UNKNOWN); [lia | ].
  destruct (Z.eqb_spec y Offset.UNKNOWN) as [-> | Hne]; simpl.
  - destruct (Z.eqb_spec Offset.UNKNOWN 0); [lia | ].
    repeat split; lia.
  - destruct (Z.ltb_spec y x); [lia | ].
    destruct (Z.eqb_spec (y - x) Offset.UNKNOWN); [lia | ].
    destruct (Z.eqb_spec (y - x) 0); [lia | ]. simpl.
    destruct (Z.leb_spec (Offset.UNKNOWN - (y - x)) x); [lia | ].
    repeat split; lia.
Qed.

(** An interval that lies in an interval that does not overlap [k] does
    not overlap [k]. *)
Lemma overlaps_inside k p q :
  valid_interval k → valid_interval p → valid_interval q →
  IntervalOps.isUnknown p = false →
  start p ≤ start q → DefinitionsMap.iend q ≤ DefinitionsMap.iend p →
  IntervalOps.overlaps k p = false → IntervalOps.overlaps k q = false.
Proof.
  intros Hk Hp Hq Kp Hs He Hno. apply not_true_iff_false. intros Ho.
  apply not_true_iff_false in Hno. apply Hno.
  apply (overlaps_valid k q Hk Hq) in Ho as (Kk & Kq & H1 & H2).
  apply (overlaps_valid k p Hk Hp). repeat split; auto; lia.
Qed.

Lemma precedes_disjoint a b :
  valid_interval a → valid_interval b → precedes a b →
  IntervalOps.overlaps a b = false ∧ IntervalOps.overlaps b a = false.
Proof.
  intros Ha Hb Hab. unfold precedes in Hab.
  split; apply not_true_iff_false; intros Ho.
  - apply (overlaps_valid a b Ha Hb) in Ho as (_ & _ & _ & H). lia.
  - apply (overlaps_valid b a Hb Ha) in Ho as (_ & _ & H & _). lia.
Qed.

Lemma overlaps_self i :
  valid_interval i → IntervalOps.isUnknown i = false →
  IntervalOps.overlaps i i = true.
Proof.
  intros Hv Hk. apply (overlaps_valid i i Hv Hv).
  pose proof (iend_known i Hv Hk). repeat split; auto; lia.
Qed.

(** What a strong update of [i] leaves of a key does not overlap [i]. *)
Lemma split_spec i (kv : Interval * list NodeId) :
  valid_interval i → IntervalOps.isUnknown i = false →
  valid_interval (fst kv) →
  Forall (λ kv' : Interval * list NodeId,
            valid_interval (fst kv')
            ∧ IntervalOps.overlaps (fst kv') i = false
            ∧ snd kv' = snd kv)
    (DefinitionsMap.split i kv).
Proof.
  intros Hi Ki Hk. unfold DefinitionsMap.split.
  destruct (IntervalOps.overlaps (fst kv) i) eqn:Ho;
    [ | constructor; [auto | constructor]].
  apply (overlaps_valid _ i Hk Hi) in Ho as (Kk & _ & H1 & H2).
  destruct (valid_known _ Hk Kk) as [Ks Kl].
  destruct (valid_known i Hi Ki) as [Is Il].
  pose proof (iend_known i Hi Ki) as Ie.
  pose proof (iend_known _ Hk Kk) as Ke.
  apply Forall_app. split.
  - destruct (Z.ltb_spec (start (fst kv)) (start i)); [ | constructor].
    destruct (piece_spec (start (fst kv)) (start i)) as (P1 & P2 & P3);
      [lia | lia | lia | ].
    constructor; [ | constructor]. simpl.
    split; [exact P1 | ]. split; [ | reflexivity].
    apply not_true_iff_false. intros Ho.
    apply (overlaps_valid _ i P1 Hi) in Ho as (_ & _ & _ & Hlt). lia.
  - destruct (Z.ltb_spec (DefinitionsMap.iend i)
                (DefinitionsMap.iend (fst kv))); [ | constructor].
    destruct (piece_spec (DefinitionsMap.iend i)
                (DefinitionsMap.iend (fst kv))) as (P1 & P2 & P3);
      [lia | lia | lia | ].
    constructor; [ | constructor]. simpl.
    split; [exact P1 | ]. split; [ | reflexivity].
    apply not_true_iff_false. intros Ho.
    apply (overlaps_valid _ i P1 Hi) in Ho as (_ & _ & Hlt & _).
    simpl in Hlt. lia.
Qed.

(** A key that does not overlap [i] is not split. *)
Lemma split_fresh i (b : list (Interval * list NodeId)) :
  Forall (λ kv, IntervalOps.overlaps (fst kv) i = false) b →
  flat_map (DefinitionsMap.split i) b = b.
Proof.
  induction 1 as [ | kv rest Hkv _ IH]; simpl; [reflexivity | ].
  unfold DefinitionsMap.split at 1. rewrite Hkv, IH. reflexivity.
Qed.

End ValidIntervals.

Lemma filter_rev_none {A} (f : A → bool) (l : list A) :
  Forall (λ x, f x = false) l → List.filter f (rev l) = [].
Proof.
  intros H. apply Forall_rev in H.
  induction H as [ | x l' Hx _ IH]; simpl; [reflexivity | ].
  rewrite Hx. exact IH.
Qed.

(** [get] finds nothing where no key overlaps. *)
Lemma get_none (m : DefinitionsMap.t) (ds : DefSite) :
  Forall (λ kv : Interval * list NodeId,
            IntervalOps.overlaps (fst kv) (DefinitionsMap.getInterval ds)
            = false)
    (DefinitionsMap.find m (target ds)) →
  DefinitionsMap.get m ds = [].
Proof.
  intros H. unfold DefinitionsMap.get.
  rewrite (filter_rev_none _ _ H). reflexivity.
Qed.

(** [get] after a key has been appended under which [ds] alone lies. *)
Lemma get_snoc (m : DefinitionsMap.t) (ds : DefSite)
    (b : list (Interval * list NodeId)) (i : Interval) (v : NodeId) :
  DefinitionsMap.find m (target ds) = b ++ [(i, [v])] →
  IntervalOps.overlaps i (DefinitionsMap.getInterval ds) = true →
  Forall (λ kv : Interval * list NodeId,
            IntervalOps.overlaps (fst kv) (DefinitionsMap.getInterval ds)
            = false) b →
  DefinitionsMap.get m ds = [v].
Proof.
  intros Hfind Hi Hb. unfold DefinitionsMap.get.
  rewrite Hfind, rev_app_distr. simpl. rewrite Hi. simpl.
  rewrite (filter_rev_none _ _ Hb). reflexivity.
Qed.

Lemma get_update_same (m : DefinitionsMap.t) (ds : DefSite) (v : NodeId) :
  valid_site ds → offset ds ≠ Offset.UNKNOWN → dlen ds ≠ 0 →
  valid_keys m (target ds) →
  DefinitionsMap.get (DefinitionsMap.update m ds v) ds = [v].
Proof.
  intros Hv Hs Hl Hk.
  assert (valid_interval (DefinitionsMap.getInterval ds)) as Hi by exact Hv.
  assert (IntervalOps.isUnknown (DefinitionsMap.getInterval ds) = false)
    as Ki.
  { apply not_true_iff_false. rewrite isUnknown_spec. simpl. tauto. }
  apply (get_snoc _ ds
           (flat_map (DefinitionsMap.split (DefinitionsMap.getInterval ds))
              (DefinitionsMap.find m (target ds)))
           (DefinitionsMap.getInterval ds) v).
  - unfold DefinitionsMap.update. apply find_replace.
  - apply overlaps_self; assumption.
  - unfold valid_keys in Hk.
    induction Hk as [ | kv rest Hkv _ IH]; simpl; [constructor | ].
    apply Forall_app. split; [ | exact IH].
    eapply List.Forall_impl; [ | apply (split_spec _ kv Hi Ki Hkv)].
    intros kv' (_ & H & _). exact H.
Qed.

(** A strong update keeps the offsets of the keys in the offset type. *)
Lemma valid_keys_update (m : DefinitionsMap.t) (ds : DefSite) (v : NodeId) :
  valid_site ds → valid_keys m (target ds) →
  valid_keys (DefinitionsMap.update m ds v) (target ds).
Proof.
  intros Hv Hk. unfold valid_keys, DefinitionsMap.update.
  rewrite find_replace.
  assert (valid_interval (DefinitionsMap.getInterval ds)) as Hi by exact Hv.
  apply Forall_app. split; [ | constructor; [exact Hi | constructor]].
  unfold valid_keys in Hk.
  induction Hk as [ | kv rest Hkv _ IH]; simpl; [constructor | ].
  apply Forall_app. split; [ | exact IH].
  destruct (IntervalOps.isUnknown (DefinitionsMap.getInterval ds)) eqn:Ki.
  - unfold DefinitionsMap.split, IntervalOps.overlaps. rewrite Ki.
    rewrite orb_true_r. constructor; [exact Hkv | constructor].
  - eapply List.Forall_impl; [ | apply (split_spec _ kv Hi Ki Hkv)].
    intros kv' (H & _). exact H.
Qed.

(** C2.  [killOverlapping] at its failing input: the key [[0,8)] of the
    value 2 overlaps [ki = [2,4)] and reaches beyond it on both sides.
    The comment of the method says that the intersection is removed,
    possibly splitting the interval into two; the method erases the whole
    bucket, and whatever it has put into its local vector [to_add] is not
    put back.  So after [killOverlapping] and [add] of the value 3 under
    [ki], the bytes 0 and 6, which lie outside [ki] and were mapped to 2,
    are mapped to nothing. *)
Theorem killOverlapping_drops_bytes_outside :
  let buckets := [(mkInterval 0 8, 2%nat)] in
  let ki := mkInterval 2 2 in
  let buckets' :=
    IntervalMap.add ki 3%nat (IntervalMap.killOverlapping ki buckets) in
  (IntervalMap.collectAll (mkInterval 0 1) buckets = [2%nat]
   ∧ IntervalMap.collectAll (mkInterval 6 1) buckets = [2%nat])
  ∧ (IntervalOps.overlaps (mkInterval 0 1) ki = false
     ∧ IntervalOps.overlaps (mkInterval 6 1) ki = false)
  ∧ buckets' = [(ki, 3%nat)]
  ∧ (IntervalMap.collectAll (mkInterval 0 1) buckets' = []
     ∧ IntervalMap.collectAll (mkInterval 6 1) buckets' = [])
  ∧ ∀ (other : Interval) (to_add : list (Interval * nat)),
      fst (IntervalMap.killOverlapping_loop other buckets to_add)
      = List.filter (λ b, negb (IntervalOps.overlaps (fst b) other))
          buckets.
Proof.
  split; [vm_compute; split; reflexivity | ].
  split; [vm_compute; split; reflexivity | ].
  split; [vm_compute; reflexivity | ].
  split; [vm_compute; split; reflexivity | ].
  intros other to_add. apply killOverlapping_loop_fst.
Qed.

(** Scenario S3 on the definitions of a block as the specification
    describes them: the strong update of [(t, 2, 2)] splits the key
    [[0,8)] of the first writer, which still defines [[0,2)] and [[4,8)];
    the read of [(t, 0, 8)] is reached by both writers. *)
Example partial_overwrite_keeps_first_writer :
  S3.reaching = Ok [S3.n2; S3.n1].
Proof. vm_compute. reflexivity. Qed.

(** ** Local value numbering: the strong update *)

(** C1, as stated, fails for a strong update of length 0: the interval
    [(2, 0)] counts as unknown and overlaps nothing, itself included.
    Node 2 overwrites [(t, 0, 4)], node 3 overwrites [(t, 2, 0)];
    afterwards [get (t, 2, 0)] is empty, and node 2 still defines
    [(t, 0, 4)]. *)
Lemma strong_update_zero_length_is_lost :
  let n1 := mkRWNode GENERIC (Some 0%nat) [mkDefSite 1%nat 0 4] [] [] [] [] in
  let n2 := mkRWNode GENERIC (Some 0%nat) [mkDefSite 1%nat 2 0] [] [] [] [] in
  let other ty := mkRWNode ty None [] [] [] [] [] in
  let st := mkMemorySSA [other UNKNOWN; other GENERIC; n1; n2]
              [mkRWBBlock [2%nat; 3%nat] [] []] [] in
  ∃ st' blk',
    performLvn st = Ok (tt, st')
    ∧ graph_blocks st' !! 0%nat = Some blk'
    ∧ DefinitionsMap.get (definitions blk') (mkDefSite 1%nat 2 0) = []
    ∧ DefinitionsMap.get (definitions blk') (mkDefSite 1%nat 2 0)
      ≠ [3%nat]
    ∧ DefinitionsMap.get (definitions blk') (mkDefSite 1%nat 0 4)
      = [2%nat].
Proof.
  vm_compute. eexists _, _.
  split; [reflexivity | ]. split; [reflexivity | ].
  split; [reflexivity | ]. split; [discriminate | reflexivity].
Qed.

(** C1, amended.  When LVN processes the overwrites entry [(t, s, l)] of
    [node] with a known target, a known start and a length that is not 0,
    the block's [get (t, s, l)] is exactly [{node}] afterwards.  The
    offsets of the entry and of the keys stored for [t] are values of the
    offset type. *)
Theorem strong_update_kills (st : MemorySSATransformation)
    (block : BlockId) (blk : RWBBlock) (node : NodeId) (ds : DefSite) :
  graph_blocks st !! block = Some blk →
  targetIsUnknown ds = false →
  valid_site ds →
  offset ds ≠ Offset.UNKNOWN →
  dlen ds ≠ 0 →
  valid_keys (definitions blk) (target ds) →
  ∃ st' blk',
    performLvn_overwrite block node ds st = Ok (tt, st')
    ∧ graph_blocks st' !! block = Some blk'
    ∧ DefinitionsMap.get (definitions blk') ds = [node].
Proof.
  intros Hb Ht Hv Hs Hl Hk.
  unfold performLvn_overwrite, setDefinitions, modifyBlock, getBlock, assert.
  unfold mbind, M_bind, mret, M_ret. rewrite Ht.
  unfold Offset.isUnknown.
  destruct (Z.eqb_spec (offset ds) Offset.UNKNOWN); [contradiction | ].
  simpl. rewrite Hb. simpl. rewrite Hb.
  eexists _, _. split; [reflexivity | ]. simpl.
  split.
  - apply list_lookup_insert_eq. apply lookup_lt_Some in Hb. exact Hb.
  - simpl. apply get_update_same; assumption.
Qed.

Lemma strong_update_kills_witness :
  ∃ st' blk',
    performLvn_overwrite 0%nat 7%nat (mkDefSite 1%nat 2 4)
      (mkMemorySSA []
         [mkRWBBlock [] [(1%nat, [(mkInterval 0 8, [5%nat])])] []] [])
    = Ok (tt, st')
    ∧ graph_blocks st' !! 0%nat = Some blk'
    ∧ DefinitionsMap.get (definitions blk') (mkDefSite 1%nat 2 4)
      = [7%nat].
Proof.
  apply (strong_update_kills
           (mkMemorySSA []
              [mkRWBBlock [] [(1%nat, [(mkInterval 0 8, [5%nat])])] []] [])
           0%nat
           (mkRWBBlock [] [(1%nat, [(mkInterval 0 8, [5%nat])])] [])
           7%nat (mkDefSite 1%nat 2 4)).
  - reflexivity.
  - reflexivity.
  - unfold valid_site, is_offset, Offset.UNKNOWN. simpl. lia.
  - simpl. unfold Offset.UNKNOWN. lia.
  - simpl. lia.
  - repeat constructor; unfold is_offset, Offset.UNKNOWN; simpl; lia.
Defined.

(** ** The null block *)

Lemma defuse_add_nil (n : NodeId) (nd : RWNode) (st : MemorySSATransformation) :
  graph_nodes st !! n = Some nd → defuse_add n [] st = Ok (tt, st).
Proof.
  intros H. unfold defuse_add, modifyNode. rewrite H. cbv beta.
  assert (mkRWNode (getType nd) (getBBlock nd) (overwrites nd) (defs nd)
            (uses nd) (set_insert_all [] (defuse nd)) (successors nd) = nd)
    as -> by (destruct nd; reflexivity).
  rewrite (list_insert_id _ _ _ H). destruct st; reflexivity.
Qed.

(** C7.  Asked about a null block, [findDefinitions] returns no
    definition and leaves the transformation (registry, nodes, every
    block's definitions) as it was, and so does the block walker of
    [findAllReachingDefinitions]; the GVN loop that made the call goes on
    with its worklist unchanged. *)
Theorem findDefinitions_null_block (fuel : nat) (ds : DefSite)
    (st : MemorySSATransformation) :
  findDefinitions fuel None ds st = Ok ([], st)
  ∧ (∀ bs defs0 acc,
       findAllReachingDefinitions_walk bs fuel defs0 None acc = Ok acc)
  ∧ (∀ phi phis,
       is_Some (graph_nodes st !! phi) →
       performGvn_pred fuel phi ds phis None st = Ok (phis, st)).
Proof.
  split; [destruct fuel; reflexivity | ].
  split; [intros; destruct fuel; reflexivity | ].
  intros phi phis [nd Hnd]. unfold performGvn_pred, phis_size, phis_from.
  unfold mbind, M_bind, mret, M_ret.
  assert (findDefinitions fuel None ds st = Ok ([], st)) as ->
    by (destruct fuel; reflexivity).
  rewrite (defuse_add_nil phi nd st Hnd), drop_all. reflexivity.
Qed.

Lemma findDefinitions_null_block_witness :
  performGvn_pred 3 0%nat (mkDefSite 1%nat 0 4) [0%nat; 2%nat] None
    (mkMemorySSA [mkRWNode PHI (Some 0%nat) [mkDefSite 1%nat 0 4] [] [] [] []]
       [mkRWBBlock [0%nat] [] [None]] [0%nat])
  = Ok ([0%nat; 2%nat],
        mkMemorySSA
          [mkRWNode PHI (Some 0%nat) [mkDefSite 1%nat 0 4] [] [] [] []]
          [mkRWBBlock [0%nat] [] [None]] [0%nat]).
Proof.
  apply (findDefinitions_null_block 3 (mkDefSite 1%nat 0 4)
           (mkMemorySSA
              [mkRWNode PHI (Some 0%nat) [mkDefSite 1%nat 0 4] [] [] [] []]
              [mkRWBBlock [0%nat] [] [None]] [0%nat])).
  exists (mkRWNode PHI (Some 0%nat) [mkDefSite 1%nat 0 4] [] [] [] []).
  reflexivity.
Defined.

(** ** Scenario S4: a write to unknown memory *)


(** C6.  On the block [n1; nU; u] of scenario S4 the analysis gives
    [reachingDefinitions(u) = {n1, nU}]: [nU] has joined the value set of
    the one existing key [(t, [0,4))] and is registered under
    [(UNKNOWN_MEMORY, 0, UNKNOWN)]; no PHI exists and [nU] has no defuse
    entry. *)
Theorem unknown_write_taints (addr : NodeId → Z) (depth fuel : nat) :
  run addr depth fuel S4.graph = Ok (tt, S4.analysed)
  ∧ getReachingDefinitions S4.analysed (query_fuel S4.analysed) S4.u
    = Ok [S4.n1; S4.nU]
  ∧ definitions <$> graph_blocks S4.analysed !! 0%nat
    = Some [ (S4.t, [(mkInterval 0 4, [S4.n1; S4.nU])]);
             (UNKNOWN_MEMORY, [(mkInterval 0 Offset.UNKNOWN, [S4.nU])]) ]
  ∧ _phis S4.analysed = []
  ∧ defuse <$> graph_nodes S4.analysed !! S4.nU = Some [].
Proof.
  split; [destruct fuel; vm_compute; reflexivity | ].
  split; [vm_compute; reflexivity | ].
  repeat split.
Qed.

(** ** PHI creation *)

Lemma emplacePhi_cases (b : BlockId) (ds : DefSite) (i : Interval)
    (st : MemorySSATransformation) :
  emplacePhi b ds i st
  = match graph_blocks st !! b with
    | None => Abort DanglingPointer
    | Some blk =>
        let site := mkDefSite (target ds) (start i) (len i) in
        if bool_decide (DefinitionsMap.get (definitions blk) site = [])
        then Ok (length (graph_nodes st), emplaced st b blk site)
        else Abort AssertionFailed
    end.
Proof.
  unfold emplacePhi, graph_create, phis_emplace_back, addOverwrites.
  unfold setDefinitions, prependAndUpdateCFG, modifyNode, modifyBlock.
  unfold getBlock, assert, mbind, M_bind, mret, M_ret. simpl.
  rewrite (list_lookup_middle _ [] _ _ eq_refl). simpl.
  destruct (graph_blocks st !! b) as [blk | ] eqn:Hb; [ | reflexivity].
  simpl. case_bool_decide as Hget; [ | reflexivity]. simpl.
  pose proof (lookup_lt_Some _ _ _ Hb) as Hlt.
  rewrite Hb. simpl. rewrite (list_lookup_insert_eq _ _ _ Hlt). simpl.
  assert (∀ (l : list RWNode) x y n,
            n = length l → <[n := y]> (l ++ [x]) = l ++ [y]) as Hlast.
  { intros l x y n ->.
    replace (length l) with (length l + 0)%nat at 1 by lia.
    rewrite insert_app_r. reflexivity. }
  unfold emplaced, phi_node.
  destruct (head (getNodes blk)) as [h | ]; simpl.
  - rewrite (Hlast _ _ _ _ eq_refl), fmap_app. simpl.
    pose proof (eq_sym (length_fmap (retarget h (length (graph_nodes st)))
                          (graph_nodes st))) as Hlen.
    rewrite (list_lookup_middle _ [] _ _ Hlen). simpl.
    rewrite (Hlast _ _ _ _ Hlen).
    rewrite (list_lookup_insert_eq _ _ _ Hlt). simpl.
    rewrite list_insert_insert_eq. reflexivity.
  - rewrite (Hlast _ _ _ _ eq_refl).
    rewrite (list_lookup_middle _ [] _ _ eq_refl). simpl.
    rewrite (Hlast _ _ _ _ eq_refl).
    rewrite (list_lookup_insert_eq _ _ _ Hlt). simpl.
    rewrite list_insert_insert_eq. reflexivity.
Qed.

(** ** Triples *)

Section Hoare.
Implicit Types (P : MemorySSATransformation → Prop).

Lemma hoare_ret {A} P (Q : A → MemorySSATransformation → Prop) (a : A) :
  (∀ st, P st → Q a st) → hoare P (mret a) Q.
Proof. intros H st HP. apply H, HP. Qed.

Lemma hoare_bind {A B} P (R : A → MemorySSATransformation → Prop)
    (Q : B → MemorySSATransformation → Prop) (c : M A) (f : A → M B) :
  hoare P c R → (∀ a, hoare (R a) (f a) Q) → hoare P (c ≫= f) Q.
Proof.
  intros Hc Hf st HP. specialize (Hc st HP).
  unfold mbind, M_bind. destruct (c st) as [[a st'] | e | ]; auto.
  apply (Hf a st' Hc).
Qed.

Lemma hoare_conseq {A} P P' (Q Q' : A → MemorySSATransformation → Prop)
    (c : M A) :
  hoare P' c Q' → (∀ st, P st → P' st) → (∀ a st, Q' a st → Q a st) →
  hoare P c Q.
Proof.
  intros Hc HP HQ st Hst. specialize (Hc st (HP st Hst)).
  destruct (c st) as [[a st'] | e | ]; auto.
Qed.

Lemma hoare_foldM {A B} (I : A → MemorySSATransformation → Prop)
    (f : A → B → M A) (l : list B) :
  (∀ a x, x ∈ l → hoare (I a) (f a x) I) →
  ∀ a, hoare (I a) (foldM f a l) I.
Proof.
  induction l as [ | x rest IH]; intros Hf a; simpl.
  - apply hoare_ret. auto.
  - apply (hoare_bind _ I).
    + apply Hf. left.
    + intros a'. apply IH. intros a'' y Hy. apply Hf. right. exact Hy.
Qed.

End Hoare.

Lemma hoare_forM_ {B} (I : MemorySSATransformation → Prop) (l : list B)
    (f : B → M unit) :
  (∀ x, x ∈ l → hoare I (f x) (λ _, I)) → hoare I (forM_ l f) (λ _, I).
Proof.
  intros Hf. unfold forM_.
  apply (hoare_foldM (λ _ : unit, I) (λ _ x, f x) l).
  intros _ x Hx. apply Hf, Hx.
Qed.

Lemma hoare_getBlock P (b : BlockId) :
  hoare P (getBlock b) (λ blk st, P st ∧ graph_blocks st !! b = Some blk).
Proof.
  intros st HP. unfold getBlock.
  destruct (graph_blocks st !! b) eqn:Hb; [split; [exact HP | exact Hb] | ].
  discriminate.
Qed.

Lemma hoare_getNode P (n : NodeId) :
  hoare P (getNode n) (λ nd st, P st ∧ graph_nodes st !! n = Some nd).
Proof.
  intros st HP. unfold getNode.
  destruct (graph_nodes st !! n) eqn:Hn; [split; [exact HP | exact Hn] | ].
  discriminate.
Qed.

Lemma hoare_assert P (c : bool) :
  hoare P (assert c) (λ _ st, P st ∧ c = true).
Proof.
  intros st HP. destruct c; simpl; [split; [exact HP | reflexivity] | ].
  discriminate.
Qed.

Lemma hoare_modifyNode P (Q : MemorySSATransformation → Prop)
    (n : NodeId) (f : RWNode → RWNode) :
  (∀ st nd, P st → graph_nodes st !! n = Some nd →
     Q (mkMemorySSA (<[n := f nd]> (graph_nodes st)) (graph_blocks st)
          (_phis st))) →
  hoare P (modifyNode n f) (λ _, Q).
Proof.
  intros H st HP. unfold modifyNode.
  destruct (graph_nodes st !! n) eqn:Hn; [apply H; assumption | ].
  discriminate.
Qed.

Lemma hoare_modifyBlock P (Q : MemorySSATransformation → Prop)
    (b : BlockId) (f : RWBBlock → RWBBlock) :
  (∀ st blk, P st → graph_blocks st !! b = Some blk →
     Q (mkMemorySSA (graph_nodes st) (<[b := f blk]> (graph_blocks st))
          (_phis st))) →
  hoare P (modifyBlock b f) (λ _, Q).
Proof.
  intros H st HP. unfold modifyBlock.
  destruct (graph_blocks st !! b) eqn:Hb; [apply H; assumption | ].
  discriminate.
Qed.

Lemma hoare_emplacePhi P (Q : NodeId → MemorySSATransformation → Prop)
    (b : BlockId) (ds : DefSite) (i : Interval) :
  (∀ st blk, P st → graph_blocks st !! b = Some blk →
     Q (length (graph_nodes st))
       (emplaced st b blk (mkDefSite (target ds) (start i) (len i)))) →
  hoare P (emplacePhi b ds i) Q.
Proof.
  intros H st HP. rewrite emplacePhi_cases.
  destruct (graph_blocks st !! b) eqn:Hb; [ | discriminate].
  simpl. case_bool_decide; [ | discriminate]. apply H; assumption.
Qed.

Lemma hoare_false {A} (P : MemorySSATransformation → Prop) (c : M A)
    (Q : A → MemorySSATransformation → Prop) :
  (∀ st, ¬ P st) → hoare P c Q.
Proof. intros H st HP. destruct (H st HP). Qed.

Lemma hoare_abort {A} (P : MemorySSATransformation → Prop) (e : Failure)
    (Q : A → MemorySSATransformation → Prop) :
  e ≠ NullPointer → hoare P (abort e) Q.
Proof. intros H st _. exact H. Qed.

Lemma hoare_out_of_fuel {A} (P : MemorySSATransformation → Prop)
    (Q : A → MemorySSATransformation → Prop) :
  hoare P out_of_fuel Q.
Proof. intros st _. exact I. Qed.

(** ** Every PHI of the registry lies in a block *)

Lemma has_block_emplaced st b blk site p :
  has_block st p → has_block (emplaced st b blk site) p.
Proof.
  intros (nd & b' & Hnd & Hb'). pose proof (lookup_lt_Some _ _ _ Hnd) as Hlt.
  unfold has_block, emplaced. simpl.
  destruct (head (getNodes blk)) as [h | ].
  - exists (retarget h (length (graph_nodes st)) nd), b'.
    rewrite lookup_app_l by (rewrite length_fmap; exact Hlt).
    rewrite list_lookup_fmap, Hnd. split; [reflexivity | exact Hb'].
  - exists nd, b'. rewrite lookup_app_l by exact Hlt. split; assumption.
Qed.

Lemma has_block_emplaced_new st b blk site :
  has_block (emplaced st b blk site) (length (graph_nodes st)).
Proof.
  exists (phi_node b blk site), b. split; [ | reflexivity].
  unfold emplaced. simpl. apply list_lookup_middle.
  destruct (head (getNodes blk)); [rewrite length_fmap | ]; reflexivity.
Qed.

Lemma phis_have_block_emplaced X st b blk site :
  phis_have_block X st → phis_have_block X (emplaced st b blk site).
Proof.
  intros [Hall Hsub]. split.
  - simpl. apply Forall_app. split.
    + eapply List.Forall_impl; [ | exact Hall].
      intros p Hp. apply has_block_emplaced, Hp.
    + constructor; [apply has_block_emplaced_new | constructor].
  - simpl. intros x Hx. apply elem_of_app. left. apply Hsub, Hx.
Qed.

Lemma has_block_insert st n nd nd' bs ps p :
  graph_nodes st !! n = Some nd → getBBlock nd' = getBBlock nd →
  has_block st p →
  has_block (mkMemorySSA (<[n := nd']> (graph_nodes st)) bs ps) p.
Proof.
  intros Hn Heq (ndp & b & Hp & Hb). unfold has_block. simpl.
  destruct (decide (n = p)) as [-> | Hne].
  - exists nd', b. split.
    + apply list_lookup_insert_eq. eapply lookup_lt_Some, Hn.
    + rewrite Heq. congruence.
  - exists ndp, b. rewrite list_lookup_insert_ne by exact Hne. auto.
Qed.

Lemma phis_block_emplacePhi X b ds i :
  hoare (phis_have_block X) (emplacePhi b ds i) (λ _, phis_have_block X).
Proof.
  apply hoare_emplacePhi. intros st blk HP _.
  apply phis_have_block_emplaced, HP.
Qed.

Lemma phis_block_defuse_add X n found :
  hoare (phis_have_block X) (defuse_add n found) (λ _, phis_have_block X).
Proof.
  apply hoare_modifyNode. intros st nd [Hall Hsub] Hn. split; [ | exact Hsub].
  simpl. eapply List.Forall_impl; [ | exact Hall].
  intros p Hp. eapply has_block_insert; [exact Hn | reflexivity | exact Hp].
Qed.

Lemma phis_block_setDefinitions X b m :
  hoare (phis_have_block X) (setDefinitions b m) (λ _, phis_have_block X).
Proof.
  apply hoare_modifyBlock. intros st blk [Hall Hsub] _. split; assumption.
Qed.

Lemma phis_block_findDefinitions X fuel :
  ∀ block ds,
    hoare (phis_have_block X) (findDefinitions fuel block ds)
      (λ _, phis_have_block X).
Proof.
  induction fuel as [ | fuel IH]; intros [b | ] ds; simpl;
    try (apply hoare_ret; auto); try apply hoare_out_of_fuel.
  eapply hoare_bind; [apply hoare_getBlock | ]. intros blk.
  eapply hoare_conseq;
    [apply (hoare_foldM (λ _, phis_have_block X)) | tauto | auto].
  intros defs0 interval _. unfold findDefinitions_step.
  eapply hoare_bind; [apply hoare_getBlock | ]. intros blk'.
  destruct (getSinglePredecessor blk') as [pred | ].
  - eapply hoare_bind.
    + eapply hoare_conseq; [apply (IH (Some pred) ds) | tauto | ].
      intros a st H. exact H.
    + intros pdefs. apply hoare_ret. auto.
  - eapply hoare_bind.
    + eapply hoare_conseq; [apply (phis_block_emplacePhi X) | tauto | ].
      intros a st H. exact H.
    + intros phi. apply hoare_ret. auto.
Qed.

Lemma phis_block_findDefinitionsInBlock X block ds :
  hoare (phis_have_block X) (findDefinitionsInBlock block ds)
    (λ _, phis_have_block X).
Proof.
  unfold findDefinitionsInBlock.
  eapply hoare_bind; [apply hoare_getBlock | ]. intros blk.
  eapply hoare_conseq;
    [apply (hoare_foldM (λ _, phis_have_block X)) | tauto | auto].
  intros defs0 interval _.
  eapply hoare_bind; [apply (phis_block_emplacePhi X) | ].
  intros phi. apply hoare_ret. auto.
Qed.

(** One step of a triple proof: run [lem] for the next command, keeping of
    the precondition only what [lem] asks for. *)
Tactic Notation "hbind" open_constr(lem) :=
  eapply hoare_bind;
  [ eapply hoare_conseq;
    [ apply lem
    | intros ?; cbv beta; tauto
    | intros ? ? H; exact H ]
  | intros ? ].

Tactic Notation "hread" open_constr(lem) :=
  eapply hoare_bind; [ apply lem | intros ? ].

Tactic Notation "hlast" open_constr(lem) :=
  eapply hoare_conseq;
  [ apply lem
  | intros ?; cbv beta; tauto
  | intros ? ? H; cbv beta; auto ].

Lemma phis_block_performLvn_node X block node :
  hoare (phis_have_block X) (performLvn_node block node)
    (λ _, phis_have_block X).
Proof.
  unfold performLvn_node. hread hoare_getNode.
  eapply hoare_bind with (R := λ _, phis_have_block X).
  { hlast (hoare_forM_ (phis_have_block X)).
    intros ds _. unfold performLvn_overwrite.
    hread hoare_assert. hread hoare_assert. hread hoare_getBlock.
    hlast (phis_block_setDefinitions X). }
  intros ?.
  eapply hoare_bind with (R := λ _, phis_have_block X).
  { apply hoare_forM_. intros ds _. unfold performLvn_def.
    destruct (targetIsUnknown ds).
    - hread hoare_getBlock. hlast (phis_block_setDefinitions X).
    - hbind (phis_block_findDefinitionsInBlock X).
      hbind (phis_block_defuse_add X).
      hread hoare_getBlock. hlast (phis_block_setDefinitions X). }
  intros ?. apply hoare_forM_. intros ds _. unfold performLvn_use.
  hbind (phis_block_findDefinitionsInBlock X). apply phis_block_defuse_add.
Qed.

Lemma phis_block_performLvn X :
  hoare (phis_have_block X) performLvn (λ _, phis_have_block X).
Proof.
  intros st HP. unfold performLvn.
  apply (hoare_forM_ (phis_have_block X)
           (seq 0 (length (graph_blocks st))) performLvn_block);
    [ | exact HP].
  intros block _. unfold performLvn_block.
  hread hoare_getBlock. hlast (hoare_forM_ (phis_have_block X)).
  intros node _. apply phis_block_performLvn_node.
Qed.

Lemma least_elem addr x l : least addr x l ∈ x :: l.
Proof.
  revert x. induction l as [ | y rest IH]; intros x; simpl; [left | ].
  specialize (IH (if addr y <? addr x then y else x)).
  apply elem_of_cons in IH as [-> | IH].
  - destruct (addr y <? addr x); [right; left | left].
  - right. right. exact IH.
Qed.

Lemma pop_begin_spec addr phis phi rest :
  pop_begin addr phis = Some (phi, rest) → phi ∈ phis ∧ rest ⊆ phis.
Proof.
  destruct phis as [ | x l]; [discriminate | ]. unfold pop_begin.
  remember (x :: l) as phis eqn:Hphis. intros H.
  assert (phi = least addr x l
          ∧ rest = List.filter (λ y, negb (Nat.eqb y (least addr x l))) phis)
    as [-> ->] by (split; congruence).
  split; [subst phis; apply least_elem | ].
  intros y Hy. apply list_elem_of_In, filter_In in Hy as [Hy _].
  apply list_elem_of_In in Hy. exact Hy.
Qed.

Lemma set_insert_all_subseteq (xs s X : list nat) :
  xs ⊆ X → s ⊆ X → set_insert_all xs s ⊆ X.
Proof.
  intros Hxs Hs x Hx. apply set_insert_all_elem in Hx as [Hx | Hx]; auto.
Qed.

Lemma phis_block_performGvn_pred depth phi ds phis I :
  hoare (phis_have_block phis) (performGvn_pred depth phi ds phis I)
    (λ phis' st, phis_have_block phis' st).
Proof.
  unfold performGvn_pred.
  eapply hoare_bind with (R := λ _, phis_have_block phis).
  { intros st HP. exact HP. }
  intros old.
  hbind (phis_block_findDefinitions phis). hbind (phis_block_defuse_add phis).
  eapply hoare_bind with
    (R := λ new st, phis_have_block phis st ∧ new ⊆ _phis st).
  { intros st HP. simpl. split; [exact HP | ].
    intros x Hx. apply list_elem_of_lookup in Hx as [k Hk].
    rewrite lookup_drop in Hk. eapply list_elem_of_lookup_2, Hk. }
  intros new. apply hoare_ret. intros st [[Hall Hsub] Hnew].
  split; [exact Hall | ]. apply set_insert_all_subseteq; assumption.
Qed.

Lemma phis_have_block_weaken X Y st :
  Y ⊆ X → phis_have_block X st → phis_have_block Y st.
Proof.
  intros HYX [Hall Hsub]. split; [exact Hall | ].
  intros y Hy. apply Hsub, HYX, Hy.
Qed.

Lemma phis_block_performGvn_loop addr depth fuel :
  ∀ phis,
    hoare (phis_have_block phis) (performGvn_loop addr depth fuel phis)
      (λ _, phis_have_block []).
Proof.
  induction fuel as [ | fuel IH]; intros phis; simpl;
    destruct (pop_begin addr phis) as [[phi rest] | ] eqn:Hpop;
    try apply hoare_out_of_fuel;
    try (apply hoare_ret; intros st;
         apply phis_have_block_weaken, list_subseteq_nil).
  apply pop_begin_spec in Hpop as [Hphi Hrest].
  hread hoare_getNode. hread hoare_assert.
  destruct (overwrites a) as [ | ds others];
    [apply hoare_abort; discriminate | ].
  destruct (getBBlock a) as [block | ] eqn:Hblock.
  - hread hoare_getBlock.
    eapply hoare_bind with (R := λ phis' st, phis_have_block phis' st).
    + eapply hoare_conseq;
        [ apply (hoare_foldM (λ phis' st, phis_have_block phis' st))
        | | intros ? ? H; exact H ].
      * intros phis' I _. apply phis_block_performGvn_pred.
      * intros st [[[H _] _] _]. cbv beta.
        apply (phis_have_block_weaken phis); assumption.
    + intros phis'. apply IH.
  - apply hoare_false. intros st [[[Hall Hsub] Hnd] _].
    apply Hsub, list_elem_of_In in Hphi.
    apply (proj1 (List.Forall_forall _ _) Hall) in Hphi
      as (nd & b & Hnd' & Hb).
    congruence.
Qed.

(** C10.  The PHIs of the registry lie in blocks, and this is kept by LVN
    and by GVN, which put every PHI they create at the head of a block; so
    [performGvn] never stops on the null block of a PHI it has popped. *)
Theorem gvn_phi_block_not_null (addr : NodeId → Z) (depth fuel : nat)
    (st : MemorySSATransformation) :
  Forall (has_block st) (_phis st) →
  performGvn addr depth fuel st ≠ Abort NullPointer
  ∧ (∀ st', performGvn addr depth fuel st = Ok (tt, st') →
       Forall (has_block st') (_phis st'))
  ∧ (∀ st', performLvn st = Ok (tt, st') →
       Forall (has_block st') (_phis st'))
  ∧ run addr depth fuel st ≠ Abort NullPointer.
Proof.
  intros Hall.
  assert (phis_have_block [] st) as HP0
    by (split; [exact Hall | apply list_subseteq_nil]).
  assert (hoare (phis_have_block []) (performGvn addr depth fuel)
            (λ _, phis_have_block [])) as Hgvn.
  { intros s [Hs _]. unfold performGvn.
    apply (phis_block_performGvn_loop addr depth fuel). split; [exact Hs | ].
    intros x Hx. apply set_insert_all_elem in Hx as [Hx | Hx]; [exact Hx | ].
    inversion Hx. }
  pose proof (Hgvn st HP0) as H1.
  pose proof (phis_block_performLvn [] st HP0) as H2.
  assert (hoare (phis_have_block []) (run addr depth fuel)
            (λ _, phis_have_block [])) as Hrun.
  { unfold run. eapply hoare_bind; [apply (phis_block_performLvn []) | ].
    intros ?. exact Hgvn. }
  pose proof (Hrun st HP0) as H3.
  repeat split.
  - intros Heq. rewrite Heq in H1. apply H1. reflexivity.
  - intros st' Heq. rewrite Heq in H1. apply H1.
  - intros st' Heq. rewrite Heq in H2. apply H2.
  - intros Heq. rewrite Heq in H3. apply H3. reflexivity.
Qed.

Lemma gvn_phi_block_not_null_witness :
  performGvn Fork.ascending 2 8 Fork.graph ≠ Abort NullPointer
  ∧ (∀ st', performGvn Fork.ascending 2 8 Fork.graph = Ok (tt, st') →
       Forall (has_block st') (_phis st'))
  ∧ (∀ st', performLvn Fork.graph = Ok (tt, st') →
       Forall (has_block st') (_phis st'))
  ∧ run Fork.ascending 2 8 Fork.graph ≠ Abort NullPointer.
Proof.
  apply (gvn_phi_block_not_null Fork.ascending 2 8 Fork.graph).
  simpl. constructor.
Defined.

(** ** [findDefinitions] and the blocks with a single predecessor *)

(** [findDefinitions] creates PHIs only in blocks without a single
    predecessor: a block that has one keeps its nodes, its definitions
    and its predecessors. *)
Lemma findDefinitions_single_pred_frame (b : BlockId) (blk : RWBBlock)
    (fuel : nat) :
  is_Some (getSinglePredecessor blk) →
  ∀ block ds,
    hoare (λ st, graph_blocks st !! b = Some blk)
      (findDefinitions fuel block ds)
      (λ _ st, graph_blocks st !! b = Some blk).
Proof.
  intros Hsingle.
  induction fuel as [ | fuel IH]; intros [b0 | ] ds; simpl;
    try (apply hoare_ret; auto); try apply hoare_out_of_fuel.
  hread hoare_getBlock.
  hlast (hoare_foldM (λ _ st, graph_blocks st !! b = Some blk)).
  intros defs0 interval _. unfold findDefinitions_step.
  hread hoare_getBlock.
  destruct (getSinglePredecessor a0) as [pred | ] eqn:Hpred.
  - hbind (IH (Some pred) ds). apply hoare_ret. auto.
  - eapply hoare_bind with (R := λ _ st, graph_blocks st !! b = Some blk);
      [ | intros ?; apply hoare_ret; auto].
    apply hoare_emplacePhi. intros st blk' [Hb Hb0] Hb0'. simpl.
    rewrite list_lookup_insert_ne; [exact Hb | ].
    intros ->. assert (blk = a0) as -> by congruence.
    rewrite Hpred in Hsingle. destruct Hsingle as [? ?]. discriminate.
Qed.

Lemma node_kept_refl nd : node_kept nd nd.
Proof. repeat split; reflexivity. Qed.

Lemma node_kept_trans nd1 nd2 nd3 :
  node_kept nd1 nd2 → node_kept nd2 nd3 → node_kept nd1 nd3.
Proof.
  intros (H1 & H2 & H3 & H4 & H5 & H6) (K1 & K2 & K3 & K4 & K5 & K6).
  repeat split; try congruence. intros x Hx. apply K6, H6, Hx.
Qed.

Lemma emplaced_nodes_length st b blk site :
  length (graph_nodes (emplaced st b blk site))
  = S (length (graph_nodes st)).
Proof.
  unfold emplaced. simpl. rewrite length_app. simpl.
  destruct (head (getNodes blk)); [rewrite length_fmap | ]; lia.
Qed.

Lemma emplaced_old_node st b blk site n nd :
  graph_nodes st !! n = Some nd →
  ∃ nd', graph_nodes (emplaced st b blk site) !! n = Some nd'
         ∧ node_kept nd nd'.
Proof.
  intros Hn. pose proof (lookup_lt_Some _ _ _ Hn) as Hlt.
  unfold emplaced. simpl. destruct (head (getNodes blk)) as [h | ].
  - exists (retarget h (length (graph_nodes st)) nd).
    rewrite lookup_app_l by (rewrite length_fmap; exact Hlt).
    rewrite list_lookup_fmap, Hn. split; [reflexivity | ].
    repeat split; reflexivity.
  - exists nd. rewrite lookup_app_l by exact Hlt.
    split; [exact Hn | apply node_kept_refl].
Qed.

Lemma emplaced_new_node st b blk site :
  graph_nodes (emplaced st b blk site) !! length (graph_nodes st)
  = Some (phi_node b blk site).
Proof.
  unfold emplaced. simpl. apply list_lookup_middle.
  destruct (head (getNodes blk)); [rewrite length_fmap | ]; reflexivity.
Qed.

(** ** The uncovered intervals *)

Lemma pairwise_app {A} (R : A → A → Prop) (l1 l2 : list A) :
  pairwise R l1 → pairwise R l2 →
  (∀ x y, x ∈ l1 → y ∈ l2 → R x y) →
  pairwise R (l1 ++ l2).
Proof.
  induction l1 as [ | x rest IH]; simpl; intros H1 H2 H12; [exact H2 | ].
  destruct H1 as [Hx Hrest]. split.
  - apply Forall_app. split; [exact Hx | ].
    apply List.Forall_forall. intros y Hy.
    apply H12; [left | apply list_elem_of_In, Hy].
  - apply IH; [exact Hrest | exact H2 | ].
    intros a y Ha Hy. apply H12; [right; exact Ha | exact Hy].
Qed.

(** What [subtract] leaves of a piece lies in the piece, in order, and
    does not overlap the key. *)
Lemma subtract_spec (key p : Interval) :
  valid_interval key → valid_interval p →
  IntervalOps.isUnknown p = false →
  Forall (λ q, valid_interval q ∧ IntervalOps.isUnknown q = false
               ∧ start p ≤ start q
               ∧ DefinitionsMap.iend q ≤ DefinitionsMap.iend p
               ∧ IntervalOps.overlaps key q = false)
    (DefinitionsMap.subtract key p)
  ∧ pairwise precedes (DefinitionsMap.subtract key p).
Proof.
  intros Hk Hp Kp. unfold DefinitionsMap.subtract.
  destruct (IntervalOps.overlaps key p) eqn:Ho.
  2: { split; [ | split; [constructor | exact I]].
       constructor; [ | constructor].
       split; [exact Hp | ]. split; [exact Kp | ].
       split; [lia | ]. split; [lia | exact Ho]. }
  apply (overlaps_valid key p Hk Hp) in Ho as (Kk & _ & H1 & H2).
  destruct (valid_known key Hk Kk) as [Ks Kl].
  destruct (valid_known p Hp Kp) as [Ps Pl].
  pose proof (iend_known key Hk Kk) as Ke.
  pose proof (iend_known p Hp Kp) as Pe.
  assert (start p < start key →
          let q := mkInterval (start p)
                     (Offset.sub (start key) (start p)) in
          valid_interval q ∧ IntervalOps.isUnknown q = false
          ∧ start p ≤ start q
          ∧ DefinitionsMap.iend q ≤ DefinitionsMap.iend p
          ∧ IntervalOps.overlaps key q = false
          ∧ DefinitionsMap.iend q = start key) as Hleft.
  { intros Hlt q.
    destruct (piece_spec (start p) (start key)) as (P1 & P2 & P3);
      [lia | lia | lia | ].
    fold q in P1, P2, P3. repeat split; try apply P1; auto.
    - simpl. lia.
    - lia.
    - apply not_true_iff_false. intros Ho.
      apply (overlaps_valid key q Hk P1) in Ho as (_ & _ & Hlt' & _). lia. }
  assert (DefinitionsMap.iend key < DefinitionsMap.iend p →
          let q := mkInterval (DefinitionsMap.iend key)
                     (Offset.sub (DefinitionsMap.iend p)
                        (DefinitionsMap.iend key)) in
          valid_interval q ∧ IntervalOps.isUnknown q = false
          ∧ start p ≤ start q
          ∧ DefinitionsMap.iend q ≤ DefinitionsMap.iend p
          ∧ IntervalOps.overlaps key q = false
          ∧ start q = DefinitionsMap.iend key) as Hright.
  { intros Hlt q.
    destruct (piece_spec (DefinitionsMap.iend key) (DefinitionsMap.iend p))
      as (P1 & P2 & P3); [lia | lia | lia | ].
    fold q in P1, P2, P3. repeat split; try apply P1; auto.
    - simpl. lia.
    - lia.
    - apply not_true_iff_false. intros Ho.
      apply (overlaps_valid key q Hk P1) in Ho as (_ & _ & _ & Hlt').
      simpl in Hlt'. lia. }
  destruct (Z.ltb_spec (start p) (start key)) as [Hl | Hl];
    destruct (Z.ltb_spec (DefinitionsMap.iend key) (DefinitionsMap.iend p))
      as [Hr | Hr]; simpl.
  - destruct (Hleft Hl) as (L1 & L2 & L3 & L4 & L5 & L6).
    destruct (Hright Hr) as (R1 & R2 & R3 & R4 & R5 & R6).
    split.
    + constructor; [exact (conj L1 (conj L2 (conj L3 (conj L4 L5)))) | ].
      constructor; [exact (conj R1 (conj R2 (conj R3 (conj R4 R5)))) | ].
      constructor.
    + cbn [pairwise app].
      split; [ | split; [constructor | exact I]].
      constructor; [ | constructor]. unfold precedes. rewrite L6, R6. lia.
  - destruct (Hleft Hl) as (L1 & L2 & L3 & L4 & L5 & L6).
    split.
    + constructor; [exact (conj L1 (conj L2 (conj L3 (conj L4 L5)))) | ].
      constructor.
    + cbn [pairwise app]. split; [constructor | exact I].
  - destruct (Hright Hr) as (R1 & R2 & R3 & R4 & R5 & R6).
    split.
    + constructor; [exact (conj R1 (conj R2 (conj R3 (conj R4 R5)))) | ].
      constructor.
    + cbn [pairwise app]. split; [constructor | exact I].
  - split; [constructor | exact I].
Qed.

Lemma subtract_all (key : Interval) (pieces : list Interval) :
  valid_interval key →
  Forall (λ p, valid_interval p ∧ IntervalOps.isUnknown p = false) pieces →
  pairwise precedes pieces →
  Forall (λ q, valid_interval q ∧ IntervalOps.isUnknown q = false
               ∧ IntervalOps.overlaps key q = false
               ∧ ∃ p, p ∈ pieces ∧ IntervalOps.isUnknown p = false
                      ∧ valid_interval p ∧ start p ≤ start q
                      ∧ DefinitionsMap.iend q ≤ DefinitionsMap.iend p)
    (flat_map (DefinitionsMap.subtract key) pieces)
  ∧ pairwise precedes (flat_map (DefinitionsMap.subtract key) pieces).
Proof.
  intros Hk Hpieces Hord.
  induction Hpieces as [ | p rest [Hp Kp] Hrest IH]; simpl;
    [split; [constructor | exact I] | ].
  destruct Hord as [Hp_rest Hord].
  destruct (IH Hord) as [IH1 IH2].
  destruct (subtract_spec key p Hk Hp Kp) as [S1 S2].
  split.
  - apply Forall_app. split.
    + eapply List.Forall_impl; [ | exact S1].
      intros q (Q1 & Q2 & Q3 & Q4 & Q5).
      split; [exact Q1 | ]. split; [exact Q2 | ]. split; [exact Q5 | ].
      exists p. split; [left | auto].
    + eapply List.Forall_impl; [ | exact IH1].
      intros q (Q1 & Q2 & Q3 & p' & Hp' & Q4).
      split; [exact Q1 | ]. split; [exact Q2 | ]. split; [exact Q3 | ].
      exists p'. split; [right; exact Hp' | exact Q4].
  - apply pairwise_app; [exact S2 | exact IH2 | ].
    intros x y Hx Hy.
    apply list_elem_of_In in Hx, Hy.
    pose proof (proj1 (List.Forall_forall _ _) S1 x Hx)
      as (_ & _ & _ & Hxe & _).
    pose proof (proj1 (List.Forall_forall _ _) IH1 y Hy)
      as (_ & _ & _ & p' & Hp' & _ & _ & Hys & _).
    apply list_elem_of_In in Hp'.
    pose proof (proj1 (List.Forall_forall _ _) Hp_rest p' Hp') as Hpp'.
    unfold precedes in *. lia.
Qed.

Lemma subtract_fold (keys : list Interval) :
  ∀ pieces,
    Forall valid_interval keys →
    Forall (λ p, valid_interval p ∧ IntervalOps.isUnknown p = false)
      pieces →
    pairwise precedes pieces →
    let gaps :=
      fold_left (λ pieces key, flat_map (DefinitionsMap.subtract key) pieces)
        keys pieces in
    Forall (λ q, valid_interval q ∧ IntervalOps.isUnknown q = false) gaps
    ∧ pairwise precedes gaps
    ∧ (∀ q, q ∈ gaps →
         ∃ p, p ∈ pieces ∧ IntervalOps.isUnknown p = false
              ∧ valid_interval p ∧ start p ≤ start q
              ∧ DefinitionsMap.iend q ≤ DefinitionsMap.iend p)
    ∧ ∀ k q, k ∈ keys → q ∈ gaps → IntervalOps.overlaps k q = false.
Proof.
  induction keys as [ | key rest IH]; intros pieces Hkeys Hpieces Hord;
    simpl.
  - split; [exact Hpieces | ]. split; [exact Hord | ]. split.
    + intros q Hq. exists q.
      apply list_elem_of_In in Hq.
      pose proof (proj1 (List.Forall_forall _ _) Hpieces q Hq) as [Q1 Q2].
      split; [apply list_elem_of_In, Hq | ].
      split; [exact Q2 | ]. split; [exact Q1 | ]. split; lia.
    + intros k q Hk. inversion Hk.
  - apply List.Forall_cons_iff in Hkeys as [Hkey Hrest].
    destruct (subtract_all key pieces Hkey Hpieces Hord) as [A1 A2].
    assert (Forall (λ p, valid_interval p
                         ∧ IntervalOps.isUnknown p = false)
              (flat_map (DefinitionsMap.subtract key) pieces)) as A1'.
    { eapply List.Forall_impl; [ | exact A1]. intros q (Q1 & Q2 & _).
      split; assumption. }
    destruct (IH _ Hrest A1' A2) as (G1 & G2 & G3 & G4).
    split; [exact G1 | ]. split; [exact G2 | ]. split.
    + intros q Hq. destruct (G3 q Hq) as (p1 & Hp1 & K1 & V1 & S1 & E1).
      apply list_elem_of_In in Hp1.
      pose proof (proj1 (List.Forall_forall _ _) A1 p1 Hp1)
        as (_ & _ & _ & p & Hp & Kp & Vp & Sp & Ep).
      exists p.
      split; [exact Hp | ]. split; [exact Kp | ]. split; [exact Vp | ].
      split; lia.
    + intros k q Hk Hq. apply elem_of_cons in Hk as [-> | Hk];
        [ | apply (G4 k q Hk Hq)].
      destruct (G3 q Hq) as (p1 & Hp1 & K1 & V1 & S1 & E1).
      apply list_elem_of_In in Hp1.
      pose proof (proj1 (List.Forall_forall _ _) A1 p1 Hp1)
        as (_ & _ & Hno & _).
      apply list_elem_of_In in Hq.
      pose proof (proj1 (List.Forall_forall _ _) G1 q Hq) as [Vq _].
      exact (overlaps_inside key p1 q Hkey V1 Vq K1 S1 E1 Hno).
Qed.

(** The uncovered intervals of a def-site are known intervals in their
    order, and no key of the target overlaps one of them. *)
Lemma undefinedIntervals_spec (m : DefinitionsMap.t) (ds : DefSite) :
  valid_site ds → valid_keys m (target ds) →
  Forall (λ q, valid_interval q ∧ IntervalOps.isUnknown q = false)
    (DefinitionsMap.undefinedIntervals m ds)
  ∧ pairwise precedes (DefinitionsMap.undefinedIntervals m ds)
  ∧ ∀ kv q, kv ∈ DefinitionsMap.find m (target ds) →
      q ∈ DefinitionsMap.undefinedIntervals m ds →
      IntervalOps.overlaps (fst kv) q = false.
Proof.
  intros Hds Hkeys. unfold DefinitionsMap.undefinedIntervals.
  destruct (IntervalOps.isUnknown (DefinitionsMap.getInterval ds)) eqn:Ki.
  { split; [constructor | ]. split; [exact I | ].
    intros kv q _ Hq. inversion Hq. }
  destruct (subtract_fold
              (map fst (DefinitionsMap.find m (target ds)))
              [DefinitionsMap.getInterval ds]) as (G1 & G2 & _ & G4).
  - apply Forall_fmap. exact Hkeys.
  - constructor; [split; [exact Hds | exact Ki] | constructor].
  - split; [constructor | exact I].
  - split; [exact G1 | ]. split; [exact G2 | ].
    intros kv q Hkv Hq. apply (G4 (fst kv) q); [ | exact Hq].
    apply list_elem_of_fmap. exists kv. split; [reflexivity | exact Hkv].
Qed.

(** ** The PHIs that [findDefinitions] creates *)

Lemma find_update_fresh (m : DefinitionsMap.t) (tgt : NodeId)
    (i : Interval) (v : NodeId) :
  Forall (λ kv : Interval * list NodeId,
            IntervalOps.overlaps (fst kv) i = false)
    (DefinitionsMap.find m tgt) →
  DefinitionsMap.find
    (DefinitionsMap.update m (mkDefSite tgt (start i) (len i)) v) tgt
  = DefinitionsMap.find m tgt ++ [(i, [v])].
Proof.
  intros Hfresh. unfold DefinitionsMap.update. simpl.
  rewrite find_replace. unfold DefinitionsMap.getInterval. simpl.
  destruct i as [s l]. simpl in *.
  rewrite (split_fresh _ _ Hfresh). reflexivity.
Qed.

Lemma get_site_none (m : DefinitionsMap.t) (tgt : NodeId) (i : Interval) :
  Forall (λ kv : Interval * list NodeId,
            IntervalOps.overlaps (fst kv) i = false)
    (DefinitionsMap.find m tgt) →
  DefinitionsMap.get m (mkDefSite tgt (start i) (len i)) = [].
Proof.
  intros H. apply get_none. simpl. unfold DefinitionsMap.getInterval.
  simpl. destruct i as [s l]. exact H.
Qed.

Lemma getSinglePredecessor_preds blk blk' :
  preds blk' = preds blk →
  getSinglePredecessor blk' = getSinglePredecessor blk.
Proof. unfold getSinglePredecessor. intros ->. reflexivity. Qed.

Section Emplace.
Local Open Scope nat_scope.
Variable b : BlockId.
Variable tgt : NodeId.

Lemma emplaced_fresh st blk i rest :
  graph_blocks st !! b = Some blk →
  Forall (λ q, valid_interval q ∧ IntervalOps.isUnknown q = false)
    (i :: rest) →
  pairwise precedes (i :: rest) →
  fresh tgt blk (i :: rest) →
  ∃ blk1,
    graph_blocks (emplaced st b blk (mkDefSite tgt (start i) (len i))) !! b
    = Some blk1
    ∧ getNodes blk1 = length (graph_nodes st) :: getNodes blk
    ∧ preds blk1 = preds blk
    ∧ DefinitionsMap.find (definitions blk1) tgt
      = DefinitionsMap.find (definitions blk) tgt
        ++ [(i, [length (graph_nodes st)])]
    ∧ fresh tgt blk1 rest.
Proof.
  intros Hb Hvalid [Hi Hord] Hfresh.
  apply List.Forall_cons_iff in Hvalid as [[Vi Ki] Hvalid].
  assert (Forall (λ kv : Interval * list NodeId,
                    IntervalOps.overlaps (fst kv) i = false)
            (DefinitionsMap.find (definitions blk) tgt)) as Hnone.
  { apply List.Forall_forall. intros kv Hkv.
    apply Hfresh; [apply list_elem_of_In, Hkv | left]. }
  eexists. split.
  { simpl. apply list_lookup_insert_eq. eapply lookup_lt_Some, Hb. }
  simpl. split; [reflexivity | ]. split; [reflexivity | ].
  rewrite (find_update_fresh _ tgt i _ Hnone).
  split; [reflexivity | ].
  intros kv j Hkv Hj. simpl in Hkv.
  rewrite (find_update_fresh _ tgt i _ Hnone) in Hkv.
  apply elem_of_app in Hkv as [Hkv | Hkv].
  - apply Hfresh; [exact Hkv | right; exact Hj].
  - apply list_elem_of_singleton in Hkv as ->. simpl.
    apply list_elem_of_In in Hj.
    pose proof (proj1 (List.Forall_forall _ _) Hi j Hj) as Hij.
    pose proof (proj1 (List.Forall_forall _ _) Hvalid j Hj) as [Vj _].
    apply (precedes_disjoint i j Vi Vj Hij).
Qed.

(** The loop of [findDefinitions] in a block without a single
    predecessor: no assertion fails and each interval gets its PHI. *)
Lemma emplace_loop
    (recur : option BlockId → DefSite → M (list NodeId)) (ds : DefSite)
    (gaps : list Interval) :
  target ds = tgt →
  ∀ st blk defs0,
    graph_blocks st !! b = Some blk →
    getSinglePredecessor blk = None →
    Forall (λ q, valid_interval q ∧ IntervalOps.isUnknown q = false) gaps →
    pairwise precedes gaps →
    fresh tgt blk gaps →
    foldM (findDefinitions_step recur b ds) defs0 gaps st
    = Ok (defs0 ++ seq (length (graph_nodes st)) (length gaps),
          emplace_all st b tgt gaps).
Proof.
  intros Htgt.
  induction gaps as [ | i rest IH];
    intros st blk defs0 Hb Hnone Hvalid Hord Hfresh; simpl.
  - rewrite app_nil_r. reflexivity.
  - rewrite Hb.
    destruct (emplaced_fresh st blk i rest Hb Hvalid Hord Hfresh)
      as (blk1 & Hb1 & _ & Hpreds & _ & Hfresh1).
    unfold mbind at 1, M_bind at 1, findDefinitions_step at 1.
    unfold mbind at 1, M_bind at 1, getBlock at 1. rewrite Hb, Hnone.
    unfold mbind at 1, M_bind at 1.
    rewrite emplacePhi_cases, Hb. cbv zeta. rewrite Htgt.
    rewrite get_site_none.
    2: { apply List.Forall_forall. intros kv Hkv.
         apply Hfresh; [apply list_elem_of_In, Hkv | left]. }
    rewrite bool_decide_eq_true_2 by reflexivity.
    unfold mret at 1, M_ret at 1.
    rewrite (IH _ blk1 (defs0 ++ [length (graph_nodes st)]) Hb1).
    + rewrite emplaced_nodes_length, <- app_assoc. reflexivity.
    + rewrite (getSinglePredecessor_preds blk blk1 Hpreds). exact Hnone.
    + apply List.Forall_cons_iff in Hvalid as [_ Hvalid]. exact Hvalid.
    + apply Hord.
    + exact Hfresh1.
Qed.

(** A query that none of the intervals overlaps is answered after the
    PHIs are created as it was before. *)
Lemma emplace_all_get (gaps : list Interval) :
  ∀ st blk (ds : DefSite),
    target ds = tgt →
    graph_blocks st !! b = Some blk →
    Forall (λ q, valid_interval q ∧ IntervalOps.isUnknown q = false) gaps →
    pairwise precedes gaps →
    fresh tgt blk gaps →
    (∀ j, j ∈ gaps →
       IntervalOps.overlaps j (DefinitionsMap.getInterval ds) = false) →
    ∃ blk',
      graph_blocks (emplace_all st b tgt gaps) !! b = Some blk'
      ∧ DefinitionsMap.get (definitions blk') ds
        = DefinitionsMap.get (definitions blk) ds.
Proof.
  induction gaps as [ | i rest IH];
    intros st blk ds Htgt Hb Hvalid Hord Hfresh Hq; simpl.
  - exists blk. split; [exact Hb | reflexivity].
  - rewrite Hb.
    destruct (emplaced_fresh st blk i rest Hb Hvalid Hord Hfresh)
      as (blk1 & Hb1 & _ & _ & Hfind1 & Hfresh1).
    destruct (IH _ blk1 ds Htgt Hb1) as (blk' & Hb' & Hget).
    + apply List.Forall_cons_iff in Hvalid as [_ Hvalid]. exact Hvalid.
    + apply Hord.
    + exact Hfresh1.
    + intros j Hj. apply Hq. right. exact Hj.
    + exists blk'. split; [exact Hb' | ]. rewrite Hget.
      unfold DefinitionsMap.get. rewrite Htgt, Hfind1, rev_app_distr.
      simpl. rewrite (Hq i (list_elem_of_here _ _)). reflexivity.
Qed.

(** The state after the loop. *)
Lemma emplace_all_spec (gaps : list Interval) :
  ∀ st blk,
    graph_blocks st !! b = Some blk →
    Forall (λ q, valid_interval q ∧ IntervalOps.isUnknown q = false) gaps →
    pairwise precedes gaps →
    fresh tgt blk gaps →
    let st' := emplace_all st b tgt gaps in
    let p0 := length (graph_nodes st) in
    _phis st' = _phis st ++ seq p0 (length gaps)
    ∧ (∀ n nd, graph_nodes st !! n = Some nd →
         ∃ nd', graph_nodes st' !! n = Some nd' ∧ node_kept nd nd')
    ∧ (∃ blk',
         graph_blocks st' !! b = Some blk'
         ∧ getNodes blk' = rev (seq p0 (length gaps)) ++ getNodes blk
         ∧ preds blk' = preds blk
         ∧ ∀ k i, gaps !! k = Some i →
             DefinitionsMap.get (definitions blk')
               (mkDefSite tgt (start i) (len i)) = [p0 + k])
    ∧ ∀ k i, gaps !! k = Some i →
        ∃ nd, graph_nodes st' !! (p0 + k) = Some nd
              ∧ getType nd = PHI ∧ getBBlock nd = Some b
              ∧ overwrites nd = [mkDefSite tgt (start i) (len i)]
              ∧ defs nd = [] ∧ uses nd = [].
Proof.
  induction gaps as [ | i rest IH]; intros st blk Hb Hvalid Hord Hfresh;
    simpl.
  - rewrite app_nil_r. split; [reflexivity | ]. split.
    { intros n nd Hn. exists nd. split; [exact Hn | apply node_kept_refl]. }
    split.
    + exists blk. split; [exact Hb | ]. split; [reflexivity | ].
      split; [reflexivity | ]. intros k i Hk. inversion Hk.
    + intros k i Hk. inversion Hk.
  - rewrite Hb.
    destruct (emplaced_fresh st blk i rest Hb Hvalid Hord Hfresh)
      as (blk1 & Hb1 & Hnodes1 & Hpreds1 & Hfind1 & Hfresh1).
    pose proof Hvalid as Hvalid0.
    apply List.Forall_cons_iff in Hvalid as [[Vi Ki] Hvalid].
    pose proof Hord as [Hi Hord'].
    set (site := mkDefSite tgt (start i) (len i)) in *.
    set (st1 := emplaced st b blk site) in *.
    destruct (IH st1 blk1 Hb1 Hvalid Hord' Hfresh1)
      as (P1 & P2 & (blk' & Hb' & Hnodes' & Hpreds' & Hget') & P4).
    assert (length (graph_nodes st1) = S (length (graph_nodes st)))
      as Hlen by apply emplaced_nodes_length.
    rewrite Hlen in P1, Hnodes', Hget', P4.
    split.
    { rewrite P1. unfold st1. simpl. rewrite <- app_assoc. reflexivity. }
    split.
    { intros n nd Hn.
      destruct (emplaced_old_node st b blk site n nd Hn)
        as (nd1 & Hn1 & K1).
      destruct (P2 n nd1 Hn1) as (nd' & Hn' & K').
      exists nd'. split; [exact Hn' | ].
      exact (node_kept_trans _ _ _ K1 K'). }
    split.
    + exists blk'. split; [exact Hb' | ]. split.
      { rewrite Hnodes', Hnodes1. simpl. rewrite <- app_assoc.
        reflexivity. }
      split; [congruence | ].
      intros [ | k] j Hk; simpl in Hk.
      * injection Hk as <-. rewrite Nat.add_0_r.
        destruct (emplace_all_get rest st1 blk1 site eq_refl Hb1 Hvalid
                    Hord' Hfresh1) as (blk'' & Hb'' & Hsame).
        { intros j Hj. apply list_elem_of_In in Hj.
          pose proof (proj1 (List.Forall_forall _ _) Hi j Hj) as Hij.
          pose proof (proj1 (List.Forall_forall _ _) Hvalid j Hj)
            as [Vj _].
          unfold site, DefinitionsMap.getInterval. simpl.
          destruct i as [s l]. simpl in *.
          apply (precedes_disjoint (mkInterval s l) j Vi Vj Hij). }
        assert (blk'' = blk') as -> by congruence. fold site.
        rewrite Hsame.
        apply (get_snoc _ site
                 (DefinitionsMap.find (definitions blk) tgt) i).
        -- exact Hfind1.
        -- unfold site, DefinitionsMap.getInterval. simpl.
           destruct i as [s l]. simpl.
           apply overlaps_self; assumption.
        -- apply List.Forall_forall. intros kv Hkv.
           unfold site, DefinitionsMap.getInterval. simpl.
           destruct i as [s l]. simpl.
           apply Hfresh; [apply list_elem_of_In, Hkv | left].
      * rewrite (Hget' k j Hk). f_equal. lia.
    + intros [ | k] j Hk; simpl in Hk.
      * injection Hk as <-. rewrite Nat.add_0_r.
        pose proof (emplaced_new_node st b blk site) as Hnew.
        destruct (P2 _ _ Hnew) as (nd' & Hn' & K1 & K2 & K3 & K4 & K5 & _).
        exists nd'. split; [exact Hn' | ].
        rewrite K1, K2, K3, K4, K5. repeat split; reflexivity.
      * replace (length (graph_nodes st) + S k)
          with (S (length (graph_nodes st)) + k) by lia.
        apply (P4 k j Hk).
Qed.

End Emplace.

(** The body of the loop in a block with a single predecessor. *)
Lemma findDefinitions_step_single_pred
    (recur : option BlockId → DefSite → M (list NodeId)) (b : BlockId)
    (blk : RWBBlock) (pred : BlockId) (ds : DefSite) (defs0 : list NodeId)
    (i : Interval) (st : MemorySSATransformation) :
  graph_blocks st !! b = Some blk →
  getSinglePredecessor blk = Some pred →
  findDefinitions_step recur b ds defs0 i st
  = (pdefs ← recur (Some pred) ds; mret (defs0 ++ pdefs)) st.
Proof.
  intros Hb Hpred.
  unfold findDefinitions_step, mbind, M_bind, getBlock.
  rewrite Hb, Hpred. reflexivity.
Qed.

(** The loop of [findDefinitions] in a block with a single predecessor:
    each interval is answered by the predecessor, and the block stays as
    it is. *)
Lemma single_pred_loop (fuel : nat) (b : BlockId) (blk : RWBBlock)
    (pred : BlockId) (ds : DefSite) (gaps : list Interval) :
  getSinglePredecessor blk = Some pred →
  ∀ st defs0,
    graph_blocks st !! b = Some blk →
    foldM (findDefinitions_step (findDefinitions fuel) b ds) defs0 gaps st
    = foldM (λ defs1 _,
               pdefs ← findDefinitions fuel (Some pred) ds;
               mret (defs1 ++ pdefs)) defs0 gaps st
    ∧ ∀ r st',
        foldM (findDefinitions_step (findDefinitions fuel) b ds) defs0
          gaps st = Ok (r, st') →
        graph_blocks st' !! b = Some blk.
Proof.
  intros Hpred. induction gaps as [ | i rest IH]; intros st defs0 Hb.
  - split; [reflexivity | ]. intros r st' H. simpl in H.
    unfold mret, M_ret in H. congruence.
  - pose proof (findDefinitions_single_pred_frame b blk fuel
                  (ex_intro _ pred Hpred) (Some pred) ds st Hb) as Hframe.
    pose proof (findDefinitions_step_single_pred (findDefinitions fuel)
                  b blk pred ds defs0 i st Hb Hpred) as Hstep.
    cbn [foldM]. unfold mbind, M_bind in Hstep |- *. rewrite Hstep.
    destruct (findDefinitions fuel (Some pred) ds st)
      as [[pdefs st1] | e | ]; [ | split; [reflexivity | discriminate]
                                 | split; [reflexivity | discriminate]].
    exact (IH st1 (defs0 ++ pdefs) Hframe).
Qed.

(** C3.  The uncovered intervals in [findDefinitions(block, ds)].  With a
    single predecessor each of them is answered by the recursive call on
    the predecessor, whose result is appended, and the block is left as it
    was.  Otherwise no assertion fails and each uncovered interval [i]
    gets a PHI, the next node of the graph: the nodes created are appended
    to the definitions returned, in the order of the intervals, and to the
    registry; each is a PHI of the block whose one overwrites entry is
    [(ds.target, i.start, i.length)]; the block's nodes are the PHIs, the
    last one first, followed by the nodes it had; and the block's
    definitions answer [(ds.target, i.start, i.length)] with the PHI of [i]
    alone.  The transformation left is [emplace_all], which creates the
    PHIs one by one as [emplaced] says, rewiring the edges included.  The
    offsets of [ds] and of the keys stored for its target are values of
    the offset type. *)
Theorem findDefinitions_uncovered_intervals (fuel : nat) (block : BlockId)
    (blk : RWBBlock) (ds : DefSite) (st : MemorySSATransformation) :
  graph_blocks st !! block = Some blk →
  valid_site ds →
  valid_keys (definitions blk) (target ds) →
  let defSet := DefinitionsMap.get (definitions blk) ds in
  let unknown := DefinitionsMap.get (definitions blk) unknownSite in
  let uncovered := DefinitionsMap.undefinedIntervals (definitions blk) ds in
  match getSinglePredecessor blk with
  | Some pred =>
      findDefinitions (S fuel) (Some block) ds st
      = foldM (λ defs0 _,
                 pdefs ← findDefinitions fuel (Some pred) ds;
                 mret (defs0 ++ pdefs)) (defSet ++ unknown) uncovered st
      ∧ ∀ r st',
          findDefinitions (S fuel) (Some block) ds st = Ok (r, st') →
          graph_blocks st' !! block = Some blk
  | None =>
      let p0 := length (graph_nodes st) in
      let phis := seq p0 (length uncovered) in
      let st' := emplace_all st block (target ds) uncovered in
      findDefinitions (S fuel) (Some block) ds st
      = Ok (defSet ++ unknown ++ phis, st')
      ∧ _phis st' = _phis st ++ phis
      ∧ (∃ blk',
           graph_blocks st' !! block = Some blk'
           ∧ getNodes blk' = rev phis ++ getNodes blk
           ∧ preds blk' = preds blk
           ∧ ∀ k i, uncovered !! k = Some i →
               DefinitionsMap.get (definitions blk')
                 (mkDefSite (target ds) (start i) (len i))
               = [(p0 + k)%nat])
      ∧ ∀ k i, uncovered !! k = Some i →
          ∃ nd, graph_nodes st' !! (p0 + k)%nat = Some nd
                ∧ getType nd = PHI ∧ getBBlock nd = Some block
                ∧ overwrites nd
                  = [mkDefSite (target ds) (start i) (len i)]
                ∧ defs nd = [] ∧ uses nd = []
  end.
Proof.
  intros Hb Hds Hkeys defSet unknown uncovered.
  assert (findDefinitions (S fuel) (Some block) ds st
          = foldM (findDefinitions_step (findDefinitions fuel) block ds)
              (defSet ++ unknown) uncovered st) as Hunfold.
  { simpl. unfold mbind, M_bind, getBlock. rewrite Hb. reflexivity. }
  destruct (getSinglePredecessor blk) as [pred | ] eqn:Hpred.
  - rewrite Hunfold.
    apply (single_pred_loop fuel block blk pred ds uncovered Hpred st
             (defSet ++ unknown) Hb).
  - destruct (undefinedIntervals_spec (definitions blk) ds Hds Hkeys)
      as (G1 & G2 & G3).
    fold uncovered in G1, G2, G3.
    intros p0 phis st'.
    destruct (emplace_all_spec block (target ds) uncovered st blk Hb G1 G2
                G3) as (P1 & _ & P3 & P4).
    split.
    + rewrite Hunfold.
      rewrite (emplace_loop block (target ds) (findDefinitions fuel) ds
                 uncovered eq_refl st blk (defSet ++ unknown) Hb Hpred G1
                 G2 G3).
      rewrite <- app_assoc. reflexivity.
    + split; [exact P1 | ]. split; [exact P3 | exact P4].
Qed.

Lemma findDefinitions_uncovered_intervals_witness :
  let blk :=
    mkRWBBlock [2%nat]
      [(1%nat, [(mkInterval 2 2, [2%nat]); (mkInterval 5 0, [2%nat])])]
      [] in
  let st :=
    mkMemorySSA
      [ mkRWNode UNKNOWN None [] [] [] [] [];
        mkRWNode GENERIC None [] [] [] [] [];
        mkRWNode GENERIC (Some 0%nat) [mkDefSite 1%nat 2 2] [] [] [] [] ]
      [blk] [] in
  let ds := mkDefSite 1%nat 0 8 in
  let st' := emplace_all st 0%nat 1%nat [mkInterval 0 2; mkInterval 4 4] in
  findDefinitions 1 (Some 0%nat) ds st
  = Ok ([2%nat] ++ [] ++ [3%nat; 4%nat], st')
  ∧ _phis st' = [] ++ [3%nat; 4%nat]
  ∧ (∃ blk',
       graph_blocks st' !! 0%nat = Some blk'
       ∧ getNodes blk' = rev [3%nat; 4%nat] ++ [2%nat]
       ∧ preds blk' = []
       ∧ ∀ k i, [mkInterval 0 2; mkInterval 4 4] !! k = Some i →
           DefinitionsMap.get (definitions blk')
             (mkDefSite 1%nat (start i) (len i))
           = [(3 + k)%nat])
  ∧ ∀ k i, [mkInterval 0 2; mkInterval 4 4] !! k = Some i →
      ∃ nd, graph_nodes st' !! (3 + k)%nat = Some nd
            ∧ getType nd = PHI ∧ getBBlock nd = Some 0%nat
            ∧ overwrites nd = [mkDefSite 1%nat (start i) (len i)]
            ∧ defs nd = [] ∧ uses nd = [].
Proof.
  apply (findDefinitions_uncovered_intervals 0 0%nat
           (mkRWBBlock [2%nat]
              [(1%nat,
                [(mkInterval 2 2, [2%nat]); (mkInterval 5 0, [2%nat])])]
              [])
           (mkDefSite 1%nat 0 8)
           (mkMemorySSA
              [ mkRWNode UNKNOWN None [] [] [] [] [];
                mkRWNode GENERIC None [] [] [] [] [];
                mkRWNode GENERIC (Some 0%nat) [mkDefSite 1%nat 2 2] [] []
                  [] [] ]
              [mkRWBBlock [2%nat]
                 [(1%nat,
                   [(mkInterval 2 2, [2%nat]); (mkInterval 5 0, [2%nat])])]
                 []]
              [])).
  - reflexivity.
  - unfold valid_site, is_offset, Offset.UNKNOWN. simpl. lia.
  - repeat constructor; unfold is_offset, Offset.UNKNOWN; simpl; lia.
Defined.

(** ** Local value numbering: the weak update *)

Lemma find_values (m : DefinitionsMap.t) (tgt : NodeId)
    (kv : Interval * list NodeId) (x : NodeId) :
  kv ∈ DefinitionsMap.find m tgt → x ∈ snd kv →
  x ∈ DefinitionsMap.values m.
Proof.
  unfold DefinitionsMap.values.
  induction m as [ | [k b] rest IH]; simpl; intros Hkv Hx.
  - inversion Hkv.
  - apply elem_of_app. destruct (Nat.eqb k tgt).
    + left. apply list_elem_of_In, in_concat. exists (snd kv).
      split; [ | apply list_elem_of_In, Hx].
      apply in_map, list_elem_of_In, Hkv.
    + right. apply IH; assumption.
Qed.

Lemma get_values (m : DefinitionsMap.t) (ds : DefSite) (x : NodeId) :
  x ∈ DefinitionsMap.get m ds → x ∈ DefinitionsMap.values m.
Proof.
  unfold DefinitionsMap.get. intros Hx.
  apply set_insert_all_elem in Hx as [Hx | Hx]; [ | inversion Hx].
  apply list_elem_of_In, in_concat in Hx as (vs & Hvs & Hx).
  apply in_map_iff in Hvs as (kv & <- & Hkv).
  apply filter_In in Hkv as [Hkv _]. apply in_rev in Hkv.
  apply (find_values m (target ds) kv); apply list_elem_of_In; assumption.
Qed.

Lemma not_self_defined_emplaced node st b blk site :
  not_self_defined node st → not_self_defined node (emplaced st b blk site).
Proof.
  intros (nd & Hnd & Hself). pose proof (lookup_lt_Some _ _ _ Hnd) as Hlt.
  unfold not_self_defined, emplaced. simpl.
  destruct (head (getNodes blk)) as [h | ].
  - exists (retarget h (length (graph_nodes st)) nd).
    rewrite lookup_app_l by (rewrite length_fmap; exact Hlt).
    rewrite list_lookup_fmap, Hnd. split; [reflexivity | exact Hself].
  - exists nd. rewrite lookup_app_l by exact Hlt. split; assumption.
Qed.

Lemma findDefinitionsInBlock_excludes node block blk ds :
  node ∉ DefinitionsMap.values (definitions blk) →
  hoare (λ st, graph_blocks st !! block = Some blk
               ∧ not_self_defined node st)
    (findDefinitionsInBlock block ds)
    (λ found st, (node ∉ found) ∧ not_self_defined node st).
Proof.
  intros Hvalues. unfold findDefinitionsInBlock. hread hoare_getBlock.
  intros st [[Hb Hself] Hb']. assert (a = blk) as -> by congruence.
  revert st Hb Hself Hb'.
  assert (node ∉ DefinitionsMap.get (definitions blk) ds
                 ++ DefinitionsMap.get (definitions blk) unknownSite)
    as Hinit.
  { intros [H | H]%elem_of_app; apply Hvalues, (get_values _ _ _ H). }
  intros st _ Hself _.
  apply (hoare_foldM (λ found st, (node ∉ found) ∧ not_self_defined node st));
    [ | split; assumption].
  intros found interval _. clear st Hself.
  eapply hoare_bind with
    (R := λ phi st,
           (node ∉ found) ∧ phi ≠ node ∧ not_self_defined node st).
  - apply hoare_emplacePhi. intros st blk' [Hfound Hself] _.
    split; [exact Hfound | ]. split.
    + destruct Hself as (nd & Hnd & _).
      apply lookup_lt_Some in Hnd. lia.
    + apply not_self_defined_emplaced, Hself.
  - intros phi. apply hoare_ret. intros st (Hfound & Hphi & Hself).
    split; [ | exact Hself].
    intros [H | H]%elem_of_app; [exact (Hfound H) | ].
    apply list_elem_of_singleton in H. congruence.
Qed.

(** The lookup of one weak def-site does come before the node is added
    to the definitions: a node that is neither in its own defuse set nor
    recorded in the block's definitions yet is not in its own defuse set
    after LVN has processed the def-site. *)
Lemma weak_def_lookup_precedes_add (st : MemorySSATransformation)
    (block : BlockId) (blk : RWBBlock) (node : NodeId) (ds : DefSite) :
  graph_blocks st !! block = Some blk →
  targetIsUnknown ds = false →
  node ∉ DefinitionsMap.values (definitions blk) →
  not_self_defined node st →
  match performLvn_def block node ds st with
  | Ok (_, st') => not_self_defined node st'
  | Abort e => e ≠ NullPointer
  | OutOfFuel => False
  end.
Proof.
  intros Hb Ht Hvalues Hself.
  assert (hoare (λ st, graph_blocks st !! block = Some blk
                       ∧ not_self_defined node st)
            (performLvn_def block node ds)
            (λ _, not_self_defined node)) as Htriple.
  { unfold performLvn_def. rewrite Ht.
    eapply hoare_bind;
      [apply (findDefinitionsInBlock_excludes node block blk ds Hvalues) | ].
    intros found.
    eapply hoare_bind with (R := λ _, not_self_defined node).
    - apply hoare_modifyNode. intros s nd [Hfound (nd0 & Hnd0 & Hs)] Hnd.
      assert (nd0 = nd) as -> by congruence.
      exists (mkRWNode (getType nd) (getBBlock nd) (overwrites nd) (defs nd)
                (uses nd) (set_insert_all found (defuse nd))
                (successors nd)).
      simpl. split.
      + apply list_lookup_insert_eq. eapply lookup_lt_Some, Hnd.
      + intros [H | H]%set_insert_all_elem; auto.
    - intros ?. hread hoare_getBlock.
      apply hoare_modifyBlock. intros s b' [H _] _. exact H. }
  pose proof (Htriple st (conj Hb Hself)) as H.
  destruct (performLvn_def block node ds st) as [[[] st'] | e | ] eqn:Hrun;
    [exact H | exact H | ].
  (* the weak update has no recursion: it cannot run out of fuel *)
  exfalso. revert Hrun. unfold performLvn_def. rewrite Ht.
  unfold findDefinitionsInBlock, defuse_add, setDefinitions, modifyNode.
  unfold modifyBlock, getBlock, mbind, M_bind, mret, M_ret.
  destruct (graph_blocks st !! block); [ | discriminate].
  match goal with
  | |- context [foldM ?f ?a ?l ?s] =>
      assert (foldM f a l s ≠ OutOfFuel) as Hfold;
      [ | destruct (foldM f a l s) as [[found s'] | e | ];
          [ | discriminate | congruence] ]
  end.
  - match goal with
    | |- foldM ?f ?a ?l ?s ≠ _ => generalize a s; induction l as [ | x l' IH]
    end; intros a0 s0; simpl; [discriminate | ].
    unfold mbind, M_bind. rewrite emplacePhi_cases.
    destruct (graph_blocks s0 !! block); [ | discriminate]. simpl.
    case_bool_decide; [apply IH | discriminate].
  - destruct (graph_nodes s' !! node); [ | discriminate]. simpl.
    destruct (graph_blocks s' !! block) eqn:Hb'; simpl;
      [rewrite Hb' | ]; discriminate.
Qed.

(** C4.  Non-self-definition does not hold of [performLvn]: a node with
    two weak definitions of overlapping ranges is in its own defuse set
    after LVN has run over its block.  Node 2, the one node of block 0,
    is a GENERIC node that defines [(t, 0, 4)] and [(t, 2, 4)] of the known
    target [t].  At the first def-site the lookup comes before the [add],
    as the NOTE in [performLvn] asks, and the defuse set is [{3}], the PHI
    of the uncovered range; the [add] then records node 2 under [0, 4).
    At the second def-site the lookup finds what [0, 4) holds, node 2
    included: after LVN the defuse set of node 2 is [{3, 2, 4}]. *)
Theorem two_weak_defs_define_themselves :
  ∃ st1 nd1 st' nd,
    performLvn_def 0%nat TwoDefs.n (mkDefSite TwoDefs.t 0 4) TwoDefs.graph
    = Ok (tt, st1)
    ∧ graph_nodes st1 !! TwoDefs.n = Some nd1
    ∧ defuse nd1 = [3%nat]
    ∧ performLvn_def 0%nat TwoDefs.n (mkDefSite TwoDefs.t 2 4) st1
      = Ok (tt, st')
    ∧ performLvn TwoDefs.graph = Ok (tt, st')
    ∧ graph_nodes st' !! TwoDefs.n = Some nd
    ∧ getType nd = GENERIC
    ∧ defs nd = [mkDefSite TwoDefs.t 0 4; mkDefSite TwoDefs.t 2 4]
    ∧ Forall (λ ds, targetIsUnknown ds = false) (defs nd)
    ∧ defuse nd = [3%nat; 2%nat; 4%nat]
    ∧ TwoDefs.n ∈ defuse nd.
Proof.
  eexists _, _, _, _.
  split; [vm_compute; reflexivity | ]. split; [reflexivity | ].
  split; [reflexivity | ].
  split; [vm_compute; reflexivity | ].
  split; [vm_compute; reflexivity | ].
  split; [reflexivity | ]. split; [reflexivity | ]. split; [reflexivity | ].
  split; [repeat constructor | ]. split; [reflexivity | ].
  apply list_elem_of_In. simpl. tauto.
Qed.

(** ** The queries terminate *)

Section Unvisited.
Local Open Scope nat_scope.
Implicit Types (l v : list nat).

Lemma count_mono l v v' : v ⊆ v' → count l v' ≤ count l v.
Proof.
  intros Hsub. unfold count. induction l as [ | a l IH]; simpl; [lia | ].
  destruct (bool_decide_reflect (a ∈ v)) as [Ha | Ha].
  - rewrite (bool_decide_eq_true_2 _ (Hsub _ Ha)). simpl. exact IH.
  - destruct (bool_decide (a ∈ v')); simpl; lia.
Qed.

Lemma count_cons l v x : x ∈ l → x ∉ v → count l (x :: v) < count l v.
Proof.
  intros Hl Hv. unfold count. induction l as [ | a l IH]; simpl.
  - inversion Hl.
  - pose proof (count_mono l v (x :: v)) as Hmono. unfold count in Hmono.
    assert (v ⊆ x :: v) as Hsub by (intros y Hy; right; exact Hy).
    specialize (Hmono Hsub).
    destruct (decide (a = x)) as [-> | Hne].
    + rewrite (bool_decide_eq_true_2 (x ∈ x :: v)) by left.
      rewrite (bool_decide_eq_false_2 (x ∈ v) Hv). simpl. lia.
    + apply elem_of_cons in Hl as [-> | Hl]; [congruence | ].
      specialize (IH Hl).
      destruct (bool_decide_reflect (a ∈ v)) as [Ha | Ha].
      * rewrite (bool_decide_eq_true_2 (a ∈ x :: v)) by (right; exact Ha).
        simpl. exact IH.
      * rewrite (bool_decide_eq_false_2 (a ∈ x :: v)); [simpl; lia | ].
        intros [-> | H]%elem_of_cons; [congruence | exact (Ha H)].
Qed.

Lemma unvisited_mono n v v' : v ⊆ v' → unvisited n v' ≤ unvisited n v.
Proof. apply count_mono. Qed.

Lemma unvisited_cons n v x :
  x < n → x ∉ v → unvisited n (x :: v) < unvisited n v.
Proof.
  intros Hx Hv. apply count_cons; [ | exact Hv].
  apply list_elem_of_In, in_seq. lia.
Qed.

Lemma unvisited_le n v : unvisited n v ≤ n.
Proof.
  unfold unvisited.
  etransitivity; [apply List.filter_length_le | ].
  rewrite length_seq. lia.
Qed.

End Unvisited.

Section Gather.
Local Open Scope nat_scope.
Variable g : list RWNode.
Implicit Types (acc : list NodeId * list NodeId) (V : Prop).

Lemma gather_ok_trans V V' acc acc' r :
  fst acc ⊆ fst acc' →
  (Forall (non_phi g) (snd acc) → Forall (non_phi g) (snd acc')) →
  (V → closed_defuse g → V') →
  gather_ok g V' acc' r → gather_ok g V acc r.
Proof.
  intros Hsub Hnp HV. destruct r as [acc'' | e | ]; simpl.
  - intros [Hsub' Hnp']. split; [ | auto].
    intros x Hx. apply Hsub', Hsub, Hx.
  - intros H HV' Hc. apply H; auto.
  - auto.
Qed.

Lemma non_phi_set_insert n s :
  non_phi g n → Forall (non_phi g) s → Forall (non_phi g) (set_insert n s).
Proof.
  intros Hn Hs. unfold set_insert. destruct (decide (n ∈ s)); [exact Hs | ].
  apply Forall_app. split; [exact Hs | ].
  constructor; [exact Hn | constructor].
Qed.

(** The loop over a defuse set, given that the recursive calls it makes
    on PHIs behave. *)
Lemma gather_fold_ok fuel
    (recur : NodeId → list NodeId * list NodeId
             → result (list NodeId * list NodeId)) :
  (∀ phi nd acc,
     g !! phi = Some nd → isPhi nd = true →
     unvisited (length g) (fst acc) < fuel →
     gather_ok g True acc (recur phi acc)) →
  ∀ nodes acc,
    unvisited (length g) (fst acc) < fuel →
    gather_ok g (∀ n, n ∈ nodes → n < length g) acc
      (fold_result (gather_step recur g) acc nodes).
Proof.
  intros Hrec.
  induction nodes as [ | n rest IH]; intros acc Hacc; simpl.
  - split; [reflexivity | auto].
  - assert ((∀ m, m ∈ n :: rest → m < length g) → closed_defuse g →
            ∀ m, m ∈ rest → m < length g) as Hrest
      by (intros H _ m Hm; apply H; right; exact Hm).
    unfold mbind, result_bind, gather_step at 1.
    destruct (g !! n) as [nd | ] eqn:Hn; simpl.
    + destruct (isPhi nd) eqn:Hphi; simpl.
      * specialize (Hrec n nd acc Hn Hphi Hacc).
        destruct (recur n acc) as [acc1 | e | ]; simpl in *; auto.
        destruct Hrec as [Hsub Hnp].
        apply (gather_ok_trans _ _ acc acc1 _ Hsub Hnp Hrest).
        apply IH. eapply Nat.le_lt_trans; [ | exact Hacc].
        apply unvisited_mono, Hsub.
      * apply (gather_ok_trans _ (∀ m, m ∈ rest → m < length g) acc
                 (fst acc, set_insert n (snd acc)));
          [reflexivity | | exact Hrest | apply IH; exact Hacc].
        simpl. apply non_phi_set_insert. exists nd. split; [exact Hn | ].
        unfold isPhi in Hphi. apply bool_decide_eq_false_1 in Hphi.
        exact Hphi.
    + intros Hnodes _. apply lookup_ge_None_1 in Hn.
      specialize (Hnodes n (list_elem_of_here _ _)). lia.
Qed.

(** A visited set that leaves fewer PHIs than [fuel] is all that
    [recGatherNonPhisDefs] needs, cycles or not. *)
Lemma recGatherNonPhisDefs_ok fuel :
  ∀ phi nd acc,
    g !! phi = Some nd → isPhi nd = true →
    unvisited (length g) (fst acc) < fuel →
    gather_ok g True acc (recGatherNonPhisDefs g fuel phi acc).
Proof.
  induction fuel as [ | fuel IH]; intros phi nd acc Hphi Hnd Hacc;
    [lia | ].
  simpl. unfold mbind, result_bind. rewrite Hphi. simpl. rewrite Hnd.
  simpl. destruct (decide (phi ∈ fst acc)) as [Hin | Hnotin].
  - split; [reflexivity | auto].
  - assert (unvisited (length g) (phi :: fst acc) < fuel) as Hless.
    { pose proof (unvisited_cons (length g) (fst acc) phi
                    (lookup_lt_Some _ _ _ Hphi) Hnotin). lia. }
    apply (gather_ok_trans _ (∀ n, n ∈ defuse nd → n < length g) acc
             (phi :: fst acc, snd acc)).
    + intros x Hx. right. exact Hx.
    + auto.
    + intros _ Hc n Hn. exact (Hc phi nd n Hphi Hn).
    + apply (gather_fold_ok fuel (recGatherNonPhisDefs g fuel) IH).
      exact Hless.
Qed.

Lemma gatherNonPhisDefs_ok fuel nodes :
  length g < fuel →
  match gatherNonPhisDefs g fuel nodes with
  | Ok l => Forall (non_phi g) l
  | Abort _ => (∀ n, n ∈ nodes → n < length g) → ¬ closed_defuse g
  | OutOfFuel => False
  end.
Proof.
  intros Hfuel. unfold gatherNonPhisDefs, mbind, result_bind.
  pose proof (gather_fold_ok fuel (recGatherNonPhisDefs g fuel)
                (recGatherNonPhisDefs_ok fuel) nodes ([], [])) as H.
  assert (unvisited (length g) [] < fuel) as H0
    by (eapply Nat.le_lt_trans; [apply unvisited_le | exact Hfuel]).
  specialize (H H0).
  destruct (fold_result _ _ nodes) as [acc | e | ]; simpl in *.
  - apply H. constructor.
  - exact H.
  - exact H.
Qed.

End Gather.

Section Walk.
Local Open Scope nat_scope.
Variable bs : list RWBBlock.
Implicit Types (acc : list NodeId * list BlockId) (V : Prop).

Lemma walk_ok_trans V V' acc acc' r :
  snd acc ⊆ snd acc' →
  (∀ x, x ∈ fst acc' → from_blocks bs (fst acc) x) →
  (V → closed_preds bs → V') →
  walk_ok bs V' acc' r → walk_ok bs V acc r.
Proof.
  intros Hsub Hfound HV. destruct r as [acc'' | e | ]; simpl.
  - intros [Hsub' Hfound']. split.
    + intros x Hx. apply Hsub', Hsub, Hx.
    + intros x Hx. destruct (Hfound' x Hx) as [H | H]; [ | right; exact H].
      apply Hfound, H.
  - intros H HV' Hc. apply H; auto.
  - auto.
Qed.

Lemma walk_fold_ok fuel
    (recur : option BlockId → list NodeId * list BlockId
             → result (list NodeId * list BlockId)) :
  (∀ from acc,
     unvisited (length bs) (snd acc) < fuel →
     walk_ok bs (∀ b, from = Some b → b < length bs) acc
       (recur from acc)) →
  ∀ ps acc,
    unvisited (length bs) (snd acc) < fuel →
    walk_ok bs (∀ p, Some p ∈ ps → p < length bs) acc
      (fold_result (λ a I, recur I a) acc ps).
Proof.
  intros Hrec. induction ps as [ | p rest IH]; intros acc Hacc; simpl.
  - split; [reflexivity | ]. intros x Hx. left. exact Hx.
  - unfold mbind, result_bind. specialize (Hrec p acc Hacc).
    destruct (recur p acc) as [acc1 | e | ]; simpl in *.
    + destruct Hrec as [Hsub Hfound].
      apply (walk_ok_trans _ (∀ q, Some q ∈ rest → q < length bs)
               acc acc1 _ Hsub Hfound).
      * intros H _ q Hq. apply H. right. exact Hq.
      * apply IH. eapply Nat.le_lt_trans; [ | exact Hacc].
        apply unvisited_mono, Hsub.
    + intros H. apply Hrec. intros b ->. apply H. left.
    + exact Hrec.
Qed.

Lemma absorb_entries_found entries :
  ∀ defs0 found x,
    x ∈ snd (fold_left absorb_entry entries (defs0, found)) →
    x ∈ found ∨ x ∈ DefinitionsMap.values entries.
Proof.
  unfold DefinitionsMap.values.
  induction entries as [ | it rest IH]; intros defs0 found x; simpl;
    [auto | ].
  rewrite elem_of_app.
  destruct (negb (DefinitionsMap.definesTarget defs0 (fst it))).
  - intros [H | H]%IH; [ | auto].
    apply set_insert_all_elem in H as [H | H]; auto.
  - intros [H | H]%IH; auto.
Qed.

Lemma getSinglePredecessor_elem blk p :
  getSinglePredecessor blk = Some p → Some p ∈ preds blk.
Proof.
  unfold getSinglePredecessor.
  destruct (preds blk) as [ | [q | ] [ | ? ?]]; try discriminate.
  intros [= ->]. left.
Qed.

(** The walker visits a block at most once. *)
Lemma findAllReachingDefinitions_walk_ok fuel :
  ∀ defs0 from acc,
    unvisited (length bs) (snd acc) < fuel →
    walk_ok bs (∀ b, from = Some b → b < length bs) acc
      (findAllReachingDefinitions_walk bs fuel defs0 from acc).
Proof.
  induction fuel as [ | fuel IH]; intros defs0 from acc Hacc; [lia | ].
  assert (walk_ok bs (∀ b, from = Some b → b < length bs) acc (Ok acc))
    as Hstay by (split; [reflexivity | intros x Hx; left; exact Hx]).
  destruct from as [b | ]; simpl; [ | exact Hstay].
  destruct (decide (b ∈ snd acc)) as [Hin | Hnotin]; [exact Hstay | ].
  unfold mbind, result_bind.
  destruct (bs !! b) as [blk | ] eqn:Hb; simpl.
  2: { intros H _. apply lookup_ge_None_1 in Hb.
       specialize (H b eq_refl). lia. }
  destruct (fold_left absorb_entry (definitions blk) (defs0, fst acc))
    as [defs1 foundDefs] eqn:Habsorb.
  assert (unvisited (length bs) (b :: snd acc) < fuel) as Hless.
  { pose proof (unvisited_cons (length bs) (snd acc) b
                  (lookup_lt_Some _ _ _ Hb) Hnotin). lia. }
  assert (snd acc ⊆ b :: snd acc) as Hsub
    by (intros x Hx; right; exact Hx).
  assert (∀ x, x ∈ foundDefs → from_blocks bs (fst acc) x) as Hfound.
  { intros x Hx.
    pose proof (absorb_entries_found (definitions blk) defs0 (fst acc) x)
      as H.
    rewrite Habsorb in H. destruct (H Hx) as [H' | H']; [left; exact H' | ].
    right. exists b, blk. split; assumption. }
  destruct (getSinglePredecessor blk) as [singlePred | ] eqn:Hsingle.
  - apply (walk_ok_trans _ (∀ b', Some singlePred = Some b' →
                                  b' < length bs)
             acc (foundDefs, b :: snd acc) _ Hsub Hfound).
    + intros _ Hc b' [= <-].
      apply (Hc b blk singlePred Hb), getSinglePredecessor_elem, Hsingle.
    + apply IH. exact Hless.
  - apply (walk_ok_trans _ (∀ p, Some p ∈ preds blk → p < length bs)
             acc (foundDefs, b :: snd acc) _ Hsub Hfound).
    + intros _ Hc p Hp. exact (Hc b blk p Hb Hp).
    + apply (walk_fold_ok fuel (findAllReachingDefinitions_walk bs fuel defs1));
        [ | exact Hless].
      intros from' acc' Hacc'. apply IH, Hacc'.
Qed.

End Walk.

(** The nodes recorded in a definitions map are those that were put in. *)
Section Values.
Implicit Types (m : DefinitionsMap.t) (b : list (Interval * list NodeId)).

Lemma values_replace m tgt b x :
  x ∈ DefinitionsMap.values (DefinitionsMap.replace m tgt b) →
  x ∈ DefinitionsMap.values m ∨ x ∈ concat (map snd b).
Proof.
  unfold DefinitionsMap.values.
  induction m as [ | [k b0] rest IH]; simpl.
  - rewrite app_nil_r. auto.
  - destruct (Nat.eqb k tgt); simpl; rewrite !elem_of_app.
    + intros [H | H]; auto.
    + intros [H | H]; [auto | ]. destruct (IH H); auto.
Qed.

Lemma values_find m tgt x :
  x ∈ concat (map snd (DefinitionsMap.find m tgt)) →
  x ∈ DefinitionsMap.values m.
Proof.
  intros H. apply list_elem_of_In, in_concat in H as (vs & Hvs & Hx).
  apply in_map_iff in Hvs as (kv & <- & Hkv).
  apply (find_values m tgt kv); apply list_elem_of_In; assumption.
Qed.

Lemma split_snd i (kv kv' : Interval * list NodeId) :
  kv' ∈ DefinitionsMap.split i kv → snd kv' = snd kv.
Proof.
  unfold DefinitionsMap.split.
  destruct (IntervalOps.overlaps (fst kv) i);
    [ | intros H; apply list_elem_of_singleton in H as ->; reflexivity].
  intros [H | H]%elem_of_app.
  - destruct (start (fst kv) <? start i); [ | inversion H].
    apply list_elem_of_singleton in H as ->. reflexivity.
  - destruct (DefinitionsMap.iend i <? DefinitionsMap.iend (fst kv));
      [ | inversion H].
    apply list_elem_of_singleton in H as ->. reflexivity.
Qed.

Lemma values_update m ds v x :
  x ∈ DefinitionsMap.values (DefinitionsMap.update m ds v) →
  x = v ∨ x ∈ DefinitionsMap.values m.
Proof.
  unfold DefinitionsMap.update. intros [H | H]%values_replace; [auto | ].
  rewrite map_app, concat_app, elem_of_app in H. destruct H as [H | H].
  - right. apply (values_find m (target ds)).
    apply list_elem_of_In, in_concat in H as (vs & Hvs & Hx).
    apply in_map_iff in Hvs as (kv' & <- & Hkv').
    apply in_flat_map in Hkv' as (kv & Hkv & Hsplit).
    apply list_elem_of_In, split_snd in Hsplit. rewrite Hsplit in Hx.
    apply list_elem_of_In, in_concat. exists (snd kv).
    split; [apply in_map, Hkv | exact Hx].
  - left. simpl in H. apply list_elem_of_singleton in H. exact H.
Qed.

Lemma values_add m ds v x :
  x ∈ DefinitionsMap.values (DefinitionsMap.add m ds v) →
  x = v ∨ x ∈ DefinitionsMap.values m.
Proof.
  unfold DefinitionsMap.add. intros [H | H]%values_replace; [auto | ].
  revert H. generalize (DefinitionsMap.undefinedIntervals m ds).
  intros gaps.
  assert (∀ b, x ∈ concat (map snd
                   (fold_left (λ acc gap, IntervalMap.add gap [v] acc)
                      gaps b)) →
               x = v ∨ x ∈ concat (map snd b)) as Hgaps.
  { induction gaps as [ | gap rest IH]; intros b; simpl; [auto | ].
    intros [H | H]%IH; [auto | ]. unfold IntervalMap.add in H.
    rewrite map_app, concat_app, elem_of_app in H.
    destruct H as [H | H]; [auto | ]. left. simpl in H.
    apply list_elem_of_singleton in H. exact H. }
  intros [H | H]%Hgaps; [auto | ].
  apply list_elem_of_In, in_concat in H as (vs & Hvs & Hx).
  apply in_map_iff in Hvs as (kv' & <- & Hkv').
  apply in_map_iff in Hkv' as (kv & <- & Hkv).
  apply list_elem_of_In in Hx.
  assert (x = v ∨ x ∈ snd kv) as [-> | H].
  { destruct (IntervalMap.hits _ _); simpl in Hx; [ | auto].
    unfold set_insert in Hx. destruct (decide (v ∈ snd kv)); [auto | ].
    apply elem_of_app in Hx as [Hx | Hx]; [auto | ].
    left. apply list_elem_of_singleton in Hx. exact Hx. }
  - auto.
  - right. apply (find_values m (target ds) kv);
      [apply list_elem_of_In, Hkv | exact H].
Qed.

Lemma values_addAll m v x :
  x ∈ DefinitionsMap.values (DefinitionsMap.addAll m v) →
  x = v ∨ x ∈ DefinitionsMap.values m.
Proof.
  unfold DefinitionsMap.values, DefinitionsMap.addAll.
  intros H. apply list_elem_of_In, in_concat in H as (vs & Hvs & Hx).
  apply in_map_iff in Hvs as (e' & <- & He').
  apply in_map_iff in He' as (e & <- & He). simpl in Hx.
  apply in_concat in Hx as (ws & Hws & Hx).
  apply in_map_iff in Hws as (kv' & <- & Hkv').
  apply in_map_iff in Hkv' as (kv & <- & Hkv). simpl in Hx.
  apply list_elem_of_In in Hx. unfold set_insert in Hx.
  assert (x = v ∨ x ∈ snd kv) as [-> | H].
  { destruct (decide (v ∈ snd kv)); [auto | ].
    apply elem_of_app in Hx as [Hx | Hx]; [auto | ].
    left. apply list_elem_of_singleton in Hx. exact Hx. }
  - auto.
  - right. apply list_elem_of_In, in_concat.
    exists (concat (map snd (snd e))). split.
    + apply in_map_iff. exists e. split; [reflexivity | exact He].
    + apply in_concat. exists (snd kv).
      split; [apply in_map, Hkv | apply list_elem_of_In, H].
Qed.

Lemma values_replay_node nd node m x :
  x ∈ DefinitionsMap.values (replay_node nd node m) →
  x = node ∨ x ∈ DefinitionsMap.values m.
Proof.
  unfold replay_node.
  assert (∀ l m0,
            x ∈ DefinitionsMap.values
                  (fold_left (λ m ds, DefinitionsMap.update m ds node)
                     l m0) →
            x = node ∨ x ∈ DefinitionsMap.values m0) as Hover.
  { induction l as [ | ds rest IH]; intros m0; simpl; [auto | ].
    intros [H | H]%IH; [auto | ]. apply values_update in H. exact H. }
  assert (∀ l m0,
            x ∈ DefinitionsMap.values
                  (fold_left
                     (λ m ds,
                        if targetIsUnknown ds then
                          DefinitionsMap.add (DefinitionsMap.addAll m node)
                            (mkDefSite (target ds) 0 Offset.UNKNOWN) node
                        else DefinitionsMap.add m ds node) l m0) →
            x = node ∨ x ∈ DefinitionsMap.values m0) as Hdefs.
  { induction l as [ | ds rest IH]; intros m0; simpl; [auto | ].
    intros [H | H]%IH; [auto | ]. destruct (targetIsUnknown ds).
    - apply values_add in H as [H | H]; [auto | ].
      apply values_addAll in H. exact H.
    - apply values_add in H. exact H. }
  intros [H | H]%Hdefs; [auto | ]. apply Hover in H. exact H.
Qed.

Lemma values_replay_block g from nodes :
  ∀ m m' x,
    replay_block g from nodes m = Ok m' →
    x ∈ DefinitionsMap.values m' →
    x ∈ nodes ∨ x ∈ DefinitionsMap.values m.
Proof.
  induction nodes as [ | node rest IH]; intros m m' x; simpl.
  - intros [= <-]. auto.
  - destruct (Nat.eqb node from); [intros [= <-]; auto | ].
    unfold mbind, result_bind.
    destruct (g !! node) as [nd | ]; simpl; [ | discriminate].
    intros Hrun Hx. destruct (IH _ _ _ Hrun Hx) as [H | H].
    + left. right. exact H.
    + apply values_replay_node in H as [-> | H]; [left; left | auto].
Qed.

Lemma replay_block_ok g from nodes :
  ∀ m,
    match replay_block g from nodes m with
    | Ok _ => True
    | Abort _ => ¬ ∀ n, n ∈ nodes → (n < length g)%nat
    | OutOfFuel => False
    end.
Proof.
  induction nodes as [ | node rest IH]; intros m; simpl; [exact I | ].
  destruct (Nat.eqb node from); [exact I | ].
  destruct (g !! node) as [nd | ] eqn:Hnd; simpl.
  - specialize (IH (replay_node nd node m)).
    destruct (replay_block g from rest _); [exact I | | exact IH].
    intros H. apply IH. intros n Hn. apply H. right. exact Hn.
  - intros H. apply lookup_ge_None_1 in Hnd.
    specialize (H node (list_elem_of_here _ _)). lia.
Qed.

End Values.

(** The predecessor walk of [findAllReachingDefinitions] and the gathering
    that follows it, from the definitions [foundDefs] of the use's own
    block. *)
Lemma walk_then_gather_ok (st : MemorySSATransformation) (fuel : nat)
    (blk : RWBBlock) (block : BlockId) (defs0 : DefinitionsMap.t)
    (foundDefs : list NodeId) :
  (query_fuel st ≤ fuel)%nat →
  graph_blocks st !! block = Some blk →
  (well_formed st →
   ∀ x, x ∈ foundDefs → (x < length (graph_nodes st))%nat) →
  match
    (acc ← match getSinglePredecessor blk with
           | Some singlePred =>
               findAllReachingDefinitions_walk (graph_blocks st) fuel defs0
                 (Some singlePred) (foundDefs, [])
           | None =>
               fold_result
                 (λ a I,
                    findAllReachingDefinitions_walk (graph_blocks st) fuel
                      defs0 I a)
                 (foundDefs, []) (preds blk)
           end;
     gatherNonPhisDefs (graph_nodes st) fuel (fst acc))
  with
  | Ok l => Forall (non_phi (graph_nodes st)) l
  | Abort _ => ¬ well_formed st
  | OutOfFuel => False
  end.
Proof.
  intros Hfuel Hb Hfound. unfold query_fuel in Hfuel.
  assert (unvisited (length (graph_blocks st)) [] < fuel)%nat as Hblocks.
  { pose proof (unvisited_le (length (graph_blocks st)) []). lia. }
  assert (length (graph_nodes st) < fuel)%nat as Hnodes by lia.
  assert (∀ V r,
            walk_ok (graph_blocks st) V (foundDefs, []) r →
            (closed_preds (graph_blocks st) → V) →
            match acc ← r; gatherNonPhisDefs (graph_nodes st) fuel (fst acc)
            with
            | Ok l => Forall (non_phi (graph_nodes st)) l
            | Abort _ => ¬ well_formed st
            | OutOfFuel => False
            end) as Hthen.
  { intros V r Hr HV. unfold mbind, result_bind.
    destruct r as [acc | e | ]; simpl in Hr.
    - destruct Hr as [_ Hacc].
      pose proof (gatherNonPhisDefs_ok (graph_nodes st) fuel (fst acc) Hnodes)
        as Hg.
      destruct (gatherNonPhisDefs (graph_nodes st) fuel (fst acc));
        [exact Hg | | exact Hg].
      intros Hwf. pose proof Hwf as (Hc1 & Hc2 & Hc3).
      apply Hg; [ | exact Hc1].
      intros n Hn. destruct (Hacc n Hn) as [H | (b & blk' & Hb' & H)].
      + apply (Hfound Hwf), H.
      + apply (Hc3 b blk' n Hb'). right. exact H.
    - intros (Hc1 & Hc2 & Hc3). apply Hr; auto.
    - exact Hr. }
  destruct (getSinglePredecessor blk) as [singlePred | ] eqn:Hsingle.
  - eapply Hthen; [apply findAllReachingDefinitions_walk_ok, Hblocks | ].
    intros Hc b [= <-].
    apply (Hc block blk singlePred Hb), getSinglePredecessor_elem, Hsingle.
  - eapply Hthen.
    + apply (walk_fold_ok (graph_blocks st) fuel
               (findAllReachingDefinitions_walk (graph_blocks st) fuel defs0));
        [ | exact Hblocks].
      intros from acc Hacc. apply findAllReachingDefinitions_walk_ok, Hacc.
    + intros Hc p Hp. exact (Hc block blk p Hb Hp).
Qed.

(** C5.  With the recursion depth [query_fuel] (one more than the number
    of nodes and of blocks) [reachingDefinitions] never runs out of depth,
    whatever cycles the defuse sets of the PHIs and the predecessors of the
    blocks form; on a well-formed graph it returns, and the nodes it
    returns are non-PHI nodes of the graph. *)
Theorem reachingDefinitions_terminates (st : MemorySSATransformation)
    (fuel : nat) (use : NodeId) :
  (query_fuel st ≤ fuel)%nat →
  match getReachingDefinitions st fuel use with
  | Ok l => Forall (non_phi (graph_nodes st)) l
  | Abort _ => ¬ query_ready st use
  | OutOfFuel => False
  end.
Proof.
  intros Hfuel. unfold getReachingDefinitions, mbind, result_bind.
  destruct (graph_nodes st !! use) as [nd | ] eqn:Huse; simpl.
  2: { intros (_ & nd & Hnd & _). congruence. }
  assert (length (graph_nodes st) < fuel)%nat as Hnodes
    by (unfold query_fuel in Hfuel; lia).
  destruct (usesUnknown nd) eqn:Hunknown.
  - unfold findAllReachingDefinitions, mbind at 1, result_bind at 1.
    rewrite Huse. simpl.
    destruct (getBBlock nd) as [block | ] eqn:Hblock.
    2: { intros (_ & nd' & Hnd' & Hin). rewrite Huse in Hnd'.
         injection Hnd' as <-. destruct (Hin Hunknown) as (b & Hb & _).
         congruence. }
    unfold mbind at 1, result_bind at 1.
    destruct (graph_blocks st !! block) as [blk | ] eqn:Hb; simpl.
    2: { intros (_ & nd' & Hnd' & Hin). rewrite Huse in Hnd'.
         injection Hnd' as <-. destruct (Hin Hunknown) as (b & Hb' & Hlt).
         apply lookup_ge_None_1 in Hb. assert (b = block) by congruence.
         lia. }
    unfold mbind at 1, result_bind at 1.
    pose proof (replay_block_ok (graph_nodes st) use (getNodes blk)
                  DefinitionsMap.empty) as Hreplay.
    destruct (replay_block (graph_nodes st) use (getNodes blk)
                DefinitionsMap.empty) as [defs0 | e | ] eqn:Hrun.
    + pose proof (walk_then_gather_ok st fuel blk block defs0
                    (set_insert_all (DefinitionsMap.values defs0) [])
                    Hfuel Hb) as H.
      assert (well_formed st →
              ∀ x, x ∈ set_insert_all (DefinitionsMap.values defs0) [] →
                   (x < length (graph_nodes st))%nat) as Hfound.
      { intros (_ & _ & Hc3) x Hx.
        apply set_insert_all_elem in Hx as [Hx | Hx]; [ | inversion Hx].
        destruct (values_replay_block _ _ _ _ _ x Hrun Hx) as [Hn | Hn];
          [ | inversion Hn].
        apply (Hc3 block blk x Hb). left. exact Hn. }
      specialize (H Hfound).
      match type of H with
      | match ?r with _ => _ end => destruct r as [l | e | ]
      end; [exact H | | exact H].
      intros [Hwf _]. exact (H Hwf).
    + intros [(_ & _ & Hc3) _]. apply Hreplay.
      intros n Hn. apply (Hc3 block blk n Hb). left. exact Hn.
    + exact Hreplay.
  - pose proof (gatherNonPhisDefs_ok (graph_nodes st) fuel (defuse nd) Hnodes)
      as Hg.
    destruct (gatherNonPhisDefs (graph_nodes st) fuel (defuse nd));
      [exact Hg | | exact Hg].
    intros [(Hc1 & _ & _) _]. apply Hg; [ | exact Hc1].
    intros n Hn. exact (Hc1 use nd n Huse Hn).
Qed.

Lemma reachingDefinitions_terminates_witness :
  match getReachingDefinitions Cycle.graph 7 5%nat with
  | Ok l => Forall (non_phi (graph_nodes Cycle.graph)) l
  | Abort _ => ¬ query_ready Cycle.graph 5%nat
  | OutOfFuel => False
  end.
Proof.
  apply (reachingDefinitions_terminates Cycle.graph 7 5%nat).
  vm_compute. lia.
Defined.

(** On the two PHIs that define each other the query returns the one
    writer. *)
Example reachingDefinitions_on_cycle :
  getReachingDefinitions Cycle.graph (query_fuel Cycle.graph) 5%nat
  = Ok [2%nat].
Proof. vm_compute. reflexivity. Qed.

(** ** The order of the GVN worklist *)

(** C8, as stated, fails: the worklist of [performGvn] is a set of node
    pointers, popped by address, and the defuse sets depend on the order.
    On the fork, the PHI of block 1 (node 5) gets one definition when the
    addresses grow with the order of creation, the PHI [(t, 0, 4)] of the
    entry block, and when they fall it gets two, the PHIs [(t, 2, 4)] and
    [(t, 0, 2)] of the entry block. *)
Lemma worklist_order_changes_defuse :
  Fork.defuse_after (run Fork.ascending 2 8 Fork.graph) 5%nat
  = Some [7%nat]
  ∧ Fork.defuse_after (run Fork.descending 2 8 Fork.graph) 5%nat
    = Some [7%nat; 8%nat]
  ∧ run Fork.ascending 2 8 Fork.graph ≠ run Fork.descending 2 8 Fork.graph.
Proof.
  assert (Fork.defuse_after (run Fork.ascending 2 8 Fork.graph) 5%nat
          = Some [7%nat]) as H1 by (vm_compute; reflexivity).
  assert (Fork.defuse_after (run Fork.descending 2 8 Fork.graph) 5%nat
          = Some [7%nat; 8%nat]) as H2 by (vm_compute; reflexivity).
  split; [exact H1 | ]. split; [exact H2 | ].
  intros Heq.
  assert (Some [7%nat] = Some [7%nat; 8%nat]) as Habs; [ | discriminate].
  rewrite <- H1, <- H2. f_equal. exact Heq.
Qed.

Lemma least_ext (addr1 addr2 : NodeId → Z) :
  (∀ a b, (addr1 a <? addr1 b) = (addr2 a <? addr2 b)) →
  ∀ l x, least addr1 x l = least addr2 x l.
Proof.
  intros Hord. induction l as [ | y rest IH]; intros x; simpl;
    [reflexivity | ].
  rewrite Hord. apply IH.
Qed.

Lemma pop_begin_ext (addr1 addr2 : NodeId → Z) :
  (∀ a b, (addr1 a <? addr1 b) = (addr2 a <? addr2 b)) →
  ∀ phis, pop_begin addr1 phis = pop_begin addr2 phis.
Proof.
  intros Hord [ | x l]; [reflexivity | ]. unfold pop_begin.
  rewrite (least_ext addr1 addr2 Hord). reflexivity.
Qed.

Lemma performGvn_loop_ext (addr1 addr2 : NodeId → Z) (depth fuel : nat) :
  (∀ a b, (addr1 a <? addr1 b) = (addr2 a <? addr2 b)) →
  ∀ phis st,
    performGvn_loop addr1 depth fuel phis st
    = performGvn_loop addr2 depth fuel phis st.
Proof.
  intros Hord. induction fuel as [ | fuel IH]; intros phis st;
    cbn [performGvn_loop]; rewrite (pop_begin_ext addr1 addr2 Hord);
    [reflexivity | ].
  destruct (pop_begin addr2 phis) as [[phi rest] | ]; [ | reflexivity].
  unfold mbind, M_bind.
  destruct (getNode phi st) as [[nd st1] | | ]; try reflexivity.
  destruct (assert _ st1) as [[[] st2] | | ]; try reflexivity.
  destruct (overwrites nd) as [ | ds others]; [reflexivity | ].
  destruct (getBBlock nd) as [block | ]; [ | reflexivity].
  destruct (getBlock block st2) as [[blk st3] | | ]; try reflexivity.
  destruct (foldM _ rest (preds blk) st3) as [[phis' st4] | | ];
    try reflexivity.
  apply IH.
Qed.

(** C8, amended.  Two runs of LVN then GVN on the same graph give the same
    transformation, defuse sets included, when the addresses of the nodes
    are in the same order in both: the result depends on the memory layout
    through the order of the addresses only. *)
Theorem run_same_for_same_address_order (addr1 addr2 : NodeId → Z)
    (depth fuel : nat) (st : MemorySSATransformation) :
  (∀ a b, (addr1 a <? addr1 b) = (addr2 a <? addr2 b)) →
  run addr1 depth fuel st = run addr2 depth fuel st.
Proof.
  intros Hord. unfold run, mbind, M_bind.
  destruct (performLvn st) as [[[] st1] | | ]; try reflexivity.
  unfold performGvn. apply performGvn_loop_ext, Hord.
Qed.

Lemma run_same_for_same_address_order_witness :
  run Fork.ascending 2 8 Fork.graph
  = run (λ n, 2 * Z.of_nat n + 7) 2 8 Fork.graph.
Proof.
  apply (run_same_for_same_address_order Fork.ascending
           (λ n, 2 * Z.of_nat n + 7) 2 8 Fork.graph).
  intros a b. unfold Fork.ascending.
  destruct (Z.ltb_spec (Z.of_nat a) (Z.of_nat b));
    destruct (Z.ltb_spec (2 * Z.of_nat a + 7) (2 * Z.of_nat b + 7));
    (reflexivity || lia).
Defined.

(** * Further properties of IntervalMap.h *)

Section ProperIntervals.
Implicit Types (a b i : Interval).

Lemma proper_known i : proper i → IntervalOps.isUnknown i = false.
Proof.
  intros (H1 & H2 & H3). unfold_intervals. zcases; simpl; auto; lia.
Qed.

Lemma add_proper i :
  proper i → Offset.add (start i) (len i) = start i + len i.
Proof.
  intros (H1 & H2 & H3). unfold_intervals. zcases; simpl; auto; lia.
Qed.

Lemma overlaps_proper_bool a b :
  proper a → proper b →
  IntervalOps.overlaps a b
  = (start b <? start a + len a) && (start a <? start b + len b).
Proof.
  intros Ha Hb. unfold IntervalOps.overlaps.
  rewrite (proper_known a Ha), (proper_known b Hb). simpl.
  destruct Ha as (A1 & A2 & A3), Hb as (B1 & B2 & B3).
  unfold intervalsOverlap, intervalsDisjunctive, Offset.isUnknown.
  destruct (Z.eqb_spec (len a) Offset.UNKNOWN); [lia | ].
  destruct (Z.eqb_spec (len b) Offset.UNKNOWN); [lia | ].
  zcases; simpl; try reflexivity; lia.
Qed.

Lemma overlaps_proper a b :
  proper a → proper b →
  IntervalOps.overlaps a b = true
  ↔ start b < start a + len a ∧ start a < start b + len b.
Proof.
  intros Ha Hb. rewrite (overlaps_proper_bool a b Ha Hb).
  rewrite andb_true_iff, !Z.ltb_lt. reflexivity.
Qed.

Lemma isSubsetOf_proper a b :
  proper a → proper b → IntervalOps.isSubsetOf a b = true ↔ inside a b.
Proof.
  intros Ha Hb. unfold IntervalOps.isSubsetOf, inside.
  rewrite (add_proper a Ha), (add_proper b Hb).
  rewrite andb_true_iff, !Z.leb_le. reflexivity.
Qed.

Lemma unite_proper a b :
  proper a → proper b →
  IntervalOps.unite a b
  = if (start b <=? start a + len a) && (start a <=? start b + len b)
    then (true,
          mkInterval (Z.min (start a) (start b))
            (Z.max (start a + len a) (start b + len b)
             - Z.min (start a) (start b)))
    else (false, a).
Proof.
  intros Ha Hb. unfold IntervalOps.unite.
  rewrite (proper_known a Ha), (proper_known b Hb). simpl.
  rewrite (overlaps_proper_bool a b Ha Hb).
  rewrite (add_proper a Ha), (add_proper b Hb).
  destruct Ha as (A1 & A2 & A3), Hb as (B1 & B2 & B3).
  unfold IntervalOps.min, IntervalOps.max, Offset.sub, Offset.isUnknown.
  destruct (Z.leb_spec (start b) (start a + len a));
    destruct (Z.leb_spec (start a) (start b + len b)); simpl;
    zcases; simpl; try reflexivity; try lia; f_equal; f_equal; lia.
Qed.

End ProperIntervals.

(** ** [Interval::unite] *)

(** X1.  When [unite] succeeds on two proper intervals, the interval it
    leaves is proper, contains both operands, runs from the lesser start
    to the greater end, and is no longer than the two together. *)
Theorem unite_covers_both (a b u : Interval) :
  proper a → proper b → IntervalOps.unite a b = (true, u) →
  proper u
  ∧ IntervalOps.isSubsetOf a u = true
  ∧ IntervalOps.isSubsetOf b u = true
  ∧ start u = Z.min (start a) (start b)
  ∧ start u + len u = Z.max (start a + len a) (start b + len b)
  ∧ len u ≤ len a + len b.
Proof.
  intros Ha Hb. rewrite (unite_proper a b Ha Hb).
  destruct (Z.leb_spec (start b) (start a + len a));
    destruct (Z.leb_spec (start a) (start b + len b)); simpl;
    try discriminate.
  intros [= <-].
  assert (proper (mkInterval (Z.min (start a) (start b))
                    (Z.max (start a + len a) (start b + len b)
                     - Z.min (start a) (start b)))) as Hu.
  { destruct Ha as (A1 & A2 & A3), Hb as (B1 & B2 & B3).
    unfold proper. simpl. lia. }
  split; [exact Hu | ].
  rewrite (isSubsetOf_proper a _ Ha Hu), (isSubsetOf_proper b _ Hb Hu).
  destruct Ha as (A1 & A2 & A3), Hb as (B1 & B2 & B3).
  unfold inside. simpl. lia.
Qed.

Lemma unite_covers_both_witness :
  proper (mkInterval 0 8)
  ∧ IntervalOps.isSubsetOf (mkInterval 0 4) (mkInterval 0 8) = true
  ∧ IntervalOps.isSubsetOf (mkInterval 4 4) (mkInterval 0 8) = true
  ∧ start (mkInterval 0 8) = Z.min 0 4
  ∧ start (mkInterval 0 8) + len (mkInterval 0 8) = Z.max (0 + 4) (4 + 4)
  ∧ len (mkInterval 0 8) ≤ 4 + 4.
Proof.
  apply (unite_covers_both (mkInterval 0 4) (mkInterval 4 4)
           (mkInterval 0 8)).
  - unfold proper, Offset.UNKNOWN. simpl. lia.
  - unfold proper, Offset.UNKNOWN. simpl. lia.
  - reflexivity.
Defined.

(** X2.  On proper intervals [unite] fails exactly when a byte lies
    between the two, and then it leaves the interval as it was; touching
    intervals are united. *)
Theorem unite_fails_iff_separated (a b : Interval) :
  proper a → proper b →
  (fst (IntervalOps.unite a b) = false ↔ separated a b)
  ∧ (fst (IntervalOps.unite a b) = false → snd (IntervalOps.unite a b) = a).
Proof.
  intros Ha Hb. rewrite (unite_proper a b Ha Hb).
  destruct Ha as (A1 & A2 & A3), Hb as (B1 & B2 & B3). unfold separated.
  destruct (Z.leb_spec (start b) (start a + len a));
    destruct (Z.leb_spec (start a) (start b + len b)); simpl;
    split; try split; intros; try discriminate; try reflexivity; lia.
Qed.

Lemma unite_fails_iff_separated_witness :
  (fst (IntervalOps.unite (mkInterval 0 4) (mkInterval 5 4)) = false
   ↔ separated (mkInterval 0 4) (mkInterval 5 4))
  ∧ (fst (IntervalOps.unite (mkInterval 0 4) (mkInterval 5 4)) = false →
     snd (IntervalOps.unite (mkInterval 0 4) (mkInterval 5 4))
     = mkInterval 0 4).
Proof.
  apply (unite_fails_iff_separated (mkInterval 0 4) (mkInterval 5 4)).
  - unfold proper, Offset.UNKNOWN. simpl. lia.
  - unfold proper, Offset.UNKNOWN. simpl. lia.
Defined.

(** X3.  On proper intervals [unite] does not depend on which of the two
    is the receiver: both orders succeed or fail together and a success
    leaves the same interval. *)
Theorem unite_comm (a b : Interval) :
  proper a → proper b →
  fst (IntervalOps.unite a b) = fst (IntervalOps.unite b a)
  ∧ (fst (IntervalOps.unite a b) = true →
     snd (IntervalOps.unite a b) = snd (IntervalOps.unite b a)).
Proof.
  intros Ha Hb.
  rewrite (unite_proper a b Ha Hb), (unite_proper b a Hb Ha).
  destruct (Z.leb_spec (start b) (start a + len a));
    destruct (Z.leb_spec (start a) (start b + len b)); simpl;
    split; intros; try discriminate; try reflexivity.
  f_equal; lia.
Qed.

Lemma unite_comm_witness :
  fst (IntervalOps.unite (mkInterval 2 4) (mkInterval 0 3))
  = fst (IntervalOps.unite (mkInterval 0 3) (mkInterval 2 4))
  ∧ (fst (IntervalOps.unite (mkInterval 2 4) (mkInterval 0 3)) = true →
     snd (IntervalOps.unite (mkInterval 2 4) (mkInterval 0 3))
     = snd (IntervalOps.unite (mkInterval 0 3) (mkInterval 2 4))).
Proof.
  apply (unite_comm (mkInterval 2 4) (mkInterval 0 3)).
  - unfold proper, Offset.UNKNOWN. simpl. lia.
  - unfold proper, Offset.UNKNOWN. simpl. lia.
Defined.

(** ** [DisjointIntervalSet::insert] *)

Lemma separated_sym (a b : Interval) : separated a b → separated b a.
Proof. unfold separated. tauto. Qed.

Lemma inside_trans (a b c : Interval) : inside a b → inside b c → inside a c.
Proof. unfold inside. lia. Qed.

Lemma unite_unknown (a b : Interval) :
  IntervalOps.isUnknown a = true ∨ IntervalOps.isUnknown b = true →
  IntervalOps.unite a b = (false, a).
Proof.
  unfold IntervalOps.unite. intros [-> | ->]; [reflexivity | ].
  rewrite orb_true_r. reflexivity.
Qed.

(** What the loop of [insert] does on proper intervals: the interval grows
    over the elements it erases and the others are kept in their order. *)
Lemma insert_loop_proper (l : list Interval) :
  ∀ c, proper c → Forall proper l →
    let '(c', kept) := DisjointIntervalSet.insert_loop c l in
    proper c' ∧ inside c c' ∧ kept ⊆ l
    ∧ (∀ e, e ∈ l → e ∈ kept ∨ inside e c')
    ∧ (∀ x, proper x → separated x c → Forall (separated x) l →
            separated x c')
    ∧ (pairwise separated l →
       pairwise separated kept ∧ Forall (separated c') kept).
Proof.
  induction l as [ | it rest IH]; intros c Hc Hl; simpl.
  - split; [exact Hc | ]. split; [unfold inside; lia | ].
    split; [reflexivity | ]. split; [intros e He; inversion He | ].
    split; [auto | ]. intros _. split; [exact I | constructor].
  - apply List.Forall_cons_iff in Hl as [Hit Hrest].
    rewrite (unite_proper c it Hc Hit).
    destruct ((start it <=? start c + len c)
              && (start c <=? start it + len it)) eqn:Hu.
    + apply andb_true_iff in Hu as [Hu1 Hu2].
      apply Z.leb_le in Hu1, Hu2.
      set (c1 := mkInterval (Z.min (start c) (start it))
                   (Z.max (start c + len c) (start it + len it)
                    - Z.min (start c) (start it))).
      assert (proper c1) as Hc1.
      { destruct Hc as (A1 & A2 & A3), Hit as (B1 & B2 & B3).
        unfold proper, c1. simpl. lia. }
      assert (inside c c1 ∧ inside it c1) as [Hcc1 Hitc1].
      { destruct Hc as (A1 & A2 & A3), Hit as (B1 & B2 & B3).
        unfold inside, c1. simpl. lia. }
      specialize (IH c1 Hc1 Hrest).
      destruct (DisjointIntervalSet.insert_loop c1 rest) as [c' kept].
      destruct IH as (Hc' & Hin & Hsub & Hcov & Hcarry & Hpair).
      split; [exact Hc' | ].
      split; [exact (inside_trans _ _ _ Hcc1 Hin) | ].
      split; [intros e He; right; apply Hsub, He | ].
      split.
      { intros e [-> | He]%elem_of_cons.
        - right. exact (inside_trans _ _ _ Hitc1 Hin).
        - apply Hcov, He. }
      split.
      { intros x Hx Hxc Hxl. apply List.Forall_cons_iff in Hxl as [Hxit Hxrest].
        apply (Hcarry x Hx); [ | exact Hxrest].
        destruct Hc as (A1 & A2 & A3), Hit as (B1 & B2 & B3),
          Hx as (X1 & X2 & X3).
        unfold separated, c1 in *. simpl. lia. }
      intros [_ Hp]. apply Hpair, Hp.
    + specialize (IH c Hc Hrest).
      destruct (DisjointIntervalSet.insert_loop c rest) as [c' kept].
      destruct IH as (Hc' & Hin & Hsub & Hcov & Hcarry & Hpair).
      assert (separated it c) as Hsep.
      { apply andb_false_iff in Hu.
        destruct Hc as (A1 & A2 & A3), Hit as (B1 & B2 & B3).
        unfold separated. destruct Hu as [Hu | Hu]; apply Z.leb_gt in Hu; lia. }
      split; [exact Hc' | ]. split; [exact Hin | ].
      split.
      { intros e [-> | He]%elem_of_cons; [left | right; apply Hsub, He]. }
      split.
      { intros e [-> | He]%elem_of_cons; [left; left | ].
        destruct (Hcov e He) as [H | H]; [left; right; exact H | right; exact H]. }
      split.
      { intros x Hx Hxc Hxl. apply List.Forall_cons_iff in Hxl as [_ Hxrest].
        apply (Hcarry x Hx Hxc Hxrest). }
      intros [Hitrest Hp]. destruct (Hpair Hp) as [Hpk Hck].
      split.
      * split; [ | exact Hpk].
        apply List.Forall_forall. intros e He.
        apply list_elem_of_In, Hsub in He.
        apply (proj1 (List.Forall_forall _ _) Hitrest), list_elem_of_In, He.
      * constructor; [ | exact Hck].
        apply separated_sym, (Hcarry it Hit Hsep Hitrest).
Qed.

Lemma insert_loop_unknown (l : list Interval) :
  ∀ c e, e ∈ l → IntervalOps.isUnknown e = true →
         e ∈ snd (DisjointIntervalSet.insert_loop c l).
Proof.
  induction l as [ | it rest IH]; intros c e He Hun; [inversion He | ].
  simpl. apply elem_of_cons in He as [-> | He].
  - rewrite (unite_unknown c it) by (right; exact Hun).
    destruct (DisjointIntervalSet.insert_loop c rest). left.
  - destruct (IntervalOps.unite c it) as [[ | ] c1].
    + apply IH; assumption.
    + specialize (IH c1 e He Hun).
      destruct (DisjointIntervalSet.insert_loop c1 rest). right. exact IH.
Qed.

(** X4.  Unknown intervals are never merged: inserting one appends it to
    the set, which is otherwise left as it was, and an unknown element of
    the set survives every insertion. *)
Theorem insert_keeps_unknown (i : Interval) (l : list Interval) :
  (IntervalOps.isUnknown i = true → DisjointIntervalSet.insert i l = l ++ [i])
  ∧ (∀ e, e ∈ l → IntervalOps.isUnknown e = true →
          e ∈ DisjointIntervalSet.insert i l).
Proof.
  split.
  - intros Hun. unfold DisjointIntervalSet.insert.
    assert (DisjointIntervalSet.insert_loop i l = (i, l)) as ->;
      [ | reflexivity].
    induction l as [ | it rest IH]; simpl; [reflexivity | ].
    rewrite (unite_unknown i it) by (left; exact Hun). rewrite IH.
    reflexivity.
  - intros e He Hun. unfold DisjointIntervalSet.insert.
    pose proof (insert_loop_unknown l i e He Hun) as H.
    destruct (DisjointIntervalSet.insert_loop i l) as [c' kept].
    apply elem_of_app. left. exact H.
Qed.

Lemma insert_keeps_unknown_witness :
  DisjointIntervalSet.insert (mkInterval 3 0) [mkInterval 0 8]
  = [mkInterval 0 8] ++ [mkInterval 3 0].
Proof.
  apply (insert_keeps_unknown (mkInterval 3 0) [mkInterval 0 8]).
  reflexivity.
Defined.

Lemma pairwise_snoc {A} (R : A → A → Prop) (l : list A) (x : A) :
  pairwise R l → Forall (λ e, R e x) l → pairwise R (l ++ [x]).
Proof.
  induction l as [ | a rest IH]; simpl; intros Hp Hx.
  - split; [constructor | exact I].
  - destruct Hp as [Ha Hp]. apply List.Forall_cons_iff in Hx as [Hax Hx].
    split; [ | apply IH; assumption].
    apply Forall_app. split; [exact Ha | ]. constructor; [exact Hax | ].
    constructor.
Qed.

(** X5.  [insert] keeps the invariant the class is named after: in a set
    of proper intervals of which any two are separated by at least a byte,
    inserting a proper interval gives such a set again; so does building a
    set from any container of proper intervals. *)
Theorem insert_keeps_disjoint (i : Interval) (l c : list Interval) :
  proper i → Forall proper l → pairwise separated l → Forall proper c →
  (Forall proper (DisjointIntervalSet.insert i l)
   ∧ pairwise separated (DisjointIntervalSet.insert i l))
  ∧ (Forall proper (DisjointIntervalSet.of_container c)
     ∧ pairwise separated (DisjointIntervalSet.of_container c)).
Proof.
  assert (∀ i l, proper i → Forall proper l → pairwise separated l →
                 Forall proper (DisjointIntervalSet.insert i l)
                 ∧ pairwise separated (DisjointIntervalSet.insert i l))
    as Hinsert.
  { clear. intros i l Hi Hl Hp. unfold DisjointIntervalSet.insert.
    pose proof (insert_loop_proper l i Hi Hl) as H.
    destruct (DisjointIntervalSet.insert_loop i l) as [c' kept].
    destruct H as (Hc' & _ & Hsub & _ & _ & Hpair).
    destruct (Hpair Hp) as [Hpk Hck]. split.
    - apply Forall_app. split; [ | constructor; [exact Hc' | constructor]].
      apply List.Forall_forall. intros e He.
      apply list_elem_of_In, Hsub, list_elem_of_In in He.
      apply (proj1 (List.Forall_forall _ _) Hl), He.
    - apply pairwise_snoc; [exact Hpk | ].
      eapply List.Forall_impl; [ | exact Hck].
      intros e He. apply separated_sym, He. }
  intros Hi Hl Hp Hc. split; [apply Hinsert; assumption | ].
  unfold DisjointIntervalSet.of_container.
  assert (∀ s, Forall proper s → pairwise separated s →
               Forall proper (fold_left (λ s i, DisjointIntervalSet.insert i s)
                                c s)
               ∧ pairwise separated
                   (fold_left (λ s i, DisjointIntervalSet.insert i s) c s))
    as Hfold.
  { induction Hc as [ | x c' Hx Hc' IH]; intros s Hs Hps; simpl;
      [split; assumption | ].
    destruct (Hinsert x s Hx Hs Hps) as [H1 H2]. apply IH; assumption. }
  apply Hfold; [constructor | exact I].
Qed.

Lemma insert_keeps_disjoint_witness :
  (Forall proper
     (DisjointIntervalSet.insert (mkInterval 4 1)
        [mkInterval 5 3; mkInterval 2 1; mkInterval 20 2])
   ∧ pairwise separated
       (DisjointIntervalSet.insert (mkInterval 4 1)
          [mkInterval 5 3; mkInterval 2 1; mkInterval 20 2]))
  ∧ (Forall proper
       (DisjointIntervalSet.of_container [mkInterval 0 4; mkInterval 4 4])
     ∧ pairwise separated
         (DisjointIntervalSet.of_container [mkInterval 0 4; mkInterval 4 4])).
Proof.
  assert (∀ s n, 0 ≤ s → 0 < n → s + n < 100 → proper (mkInterval s n))
    as Hproper
    by (intros s n H1 H2 H3; unfold proper, Offset.UNKNOWN; simpl; lia).
  apply (insert_keeps_disjoint (mkInterval 4 1)
           [mkInterval 5 3; mkInterval 2 1; mkInterval 20 2]
           [mkInterval 0 4; mkInterval 4 4]).
  - apply Hproper; lia.
  - repeat constructor; simpl; lia.
  - unfold separated. simpl. repeat constructor; simpl; lia.
  - repeat constructor; simpl; lia.
Defined.

(** ** [IntervalMap::isCovered] *)

Lemma isCovered_proper (q : Interval) (l : list Interval) :
  proper q → Forall proper l →
  IntervalMap.isCovered q l = true ↔ ∃ e, e ∈ l ∧ inside q e.
Proof.
  intros Hq Hl. unfold IntervalMap.isCovered.
  rewrite (proper_known q Hq), existsb_exists. split.
  - intros (e & He & Hcond). apply andb_true_iff in Hcond as [_ Hsub].
    exists e. split; [apply list_elem_of_In, He | ].
    apply (isSubsetOf_proper q e Hq); [ | exact Hsub].
    apply (proj1 (List.Forall_forall _ _) Hl), He.
  - intros (e & He & Hin). exists e. apply list_elem_of_In in He.
    split; [exact He | ].
    pose proof (proj1 (List.Forall_forall _ _) Hl e He) as Hpe.
    apply andb_true_iff. split.
    + apply (overlaps_proper q e Hq Hpe).
      destruct Hq as (Q1 & Q2 & Q3). unfold inside in Hin. lia.
    + apply (isSubsetOf_proper q e Hq Hpe), Hin.
Qed.

(** X6.  Insertion never uncovers: after [insert] of a proper interval
    into a set of proper intervals, the inserted interval is covered, and
    so is every proper interval that was covered before. *)
Theorem insert_covers (i q : Interval) (l : list Interval) :
  proper i → Forall proper l → proper q →
  IntervalMap.isCovered i (DisjointIntervalSet.insert i l) = true
  ∧ (IntervalMap.isCovered q l = true →
     IntervalMap.isCovered q (DisjointIntervalSet.insert i l) = true).
Proof.
  intros Hi Hl Hq.
  pose proof (insert_loop_proper l i Hi Hl) as H.
  assert (Forall proper (DisjointIntervalSet.insert i l)) as Hl'.
  { unfold DisjointIntervalSet.insert.
    destruct (DisjointIntervalSet.insert_loop i l) as [c' kept].
    destruct H as (Hc' & _ & Hsub & _).
    apply Forall_app. split; [ | constructor; [exact Hc' | constructor]].
    apply List.Forall_forall. intros e He.
    apply list_elem_of_In, Hsub, list_elem_of_In in He.
    apply (proj1 (List.Forall_forall _ _) Hl), He. }
  rewrite (isCovered_proper i _ Hi Hl'), (isCovered_proper q _ Hq Hl').
  rewrite (isCovered_proper q l Hq Hl).
  unfold DisjointIntervalSet.insert in *.
  destruct (DisjointIntervalSet.insert_loop i l) as [c' kept].
  destruct H as (Hc' & Hin & Hsub & Hcov & _). split.
  - exists c'. split; [apply elem_of_app; right; left | exact Hin].
  - intros (e & He & Hqe). destruct (Hcov e He) as [Hk | Hec'].
    + exists e. split; [apply elem_of_app; left; exact Hk | exact Hqe].
    + exists c'. split; [apply elem_of_app; right; left | ].
      exact (inside_trans _ _ _ Hqe Hec').
Qed.

Lemma insert_covers_witness :
  IntervalMap.isCovered (mkInterval 4 2)
    (DisjointIntervalSet.insert (mkInterval 4 2) [mkInterval 0 4]) = true
  ∧ (IntervalMap.isCovered (mkInterval 1 2) [mkInterval 0 4] = true →
     IntervalMap.isCovered (mkInterval 1 2)
       (DisjointIntervalSet.insert (mkInterval 4 2) [mkInterval 0 4])
     = true).
Proof.
  apply (insert_covers (mkInterval 4 2) (mkInterval 1 2) [mkInterval 0 4]).
  - unfold proper, Offset.UNKNOWN. simpl. lia.
  - repeat constructor; simpl; lia.
  - unfold proper, Offset.UNKNOWN. simpl. lia.
Defined.

(** ** [IntervalMap::killOverlapping], [collectAll] and [collect] *)

Section IntervalMapMore.
Context {V : Type}.
Implicit Types (buckets : list (Interval * V)).

(** X7.  [killOverlapping] only erases: the buckets it leaves are the
    buckets whose key does not overlap [ki], unchanged and in their order
    (so no bucket is split or added and the map never grows), and killing
    the same interval again changes nothing. *)
Theorem killOverlapping_only_erases ki buckets :
  (∀ kv, kv ∈ IntervalMap.killOverlapping ki buckets
         ↔ kv ∈ buckets ∧ IntervalOps.overlaps (fst kv) ki = false)
  ∧ sublist (IntervalMap.killOverlapping ki buckets) buckets
  ∧ IntervalMap.killOverlapping ki (IntervalMap.killOverlapping ki buckets)
    = IntervalMap.killOverlapping ki buckets.
Proof.
  rewrite !killOverlapping_filter. split; [ | split].
  - intros kv. rewrite !list_elem_of_In, filter_In, negb_true_iff.
    reflexivity.
  - induction buckets as [ | kv rest IH]; simpl; [constructor | ].
    destruct (negb _); [apply sublist_skip | apply sublist_cons]; exact IH.
  - induction buckets as [ | kv rest IH]; simpl; [reflexivity | ].
    destruct (negb (IntervalOps.overlaps (fst kv) ki)) eqn:Hk; simpl;
      [rewrite Hk, IH; reflexivity | exact IH].
Qed.

(** X8.  What the comment of [killOverlapping] promises, where it holds:
    with proper keys, after [killOverlapping(ki)] collecting with a proper
    sub-interval of [ki] (with [ki] itself, for one) gives the empty
    vector. *)
Theorem killOverlapping_then_collectAll ki q buckets :
  proper ki → proper q →
  Forall (λ kv : Interval * V, proper (fst kv)) buckets →
  IntervalOps.isSubsetOf q ki = true →
  IntervalMap.collectAll q (IntervalMap.killOverlapping ki buckets) = [].
Proof.
  intros Hki Hq Hkeys Hsub. apply collectAll_none.
  rewrite killOverlapping_filter.
  apply (isSubsetOf_proper q ki Hq Hki) in Hsub.
  induction Hkeys as [ | kv rest Hkv _ IH]; simpl; [constructor | ].
  destruct (IntervalOps.overlaps (fst kv) ki) eqn:Ho; simpl; [exact IH | ].
  constructor; [ | exact IH]. unfold IntervalMap.hits.
  rewrite (proper_known q Hq), (proper_known _ Hkv). simpl.
  apply not_true_is_false. intros Hoq.
  apply (overlaps_proper _ q Hkv Hq) in Hoq.
  apply not_true_iff_false in Ho. apply Ho.
  apply (overlaps_proper _ ki Hkv Hki).
  unfold inside in Hsub. lia.
Qed.

(** The loop of [collect] only appends to [result]. *)
Lemma collect_fold_sublist q (l : list (Interval * V)) :
  ∀ st, ∃ r,
    fst (fst (fold_left (IntervalMap.collect_step q) l st))
    = fst (fst st) ++ r
    ∧ sublist r (map snd (List.filter
                            (λ b, IntervalMap.hits q (fst b)) l)).
Proof.
  induction l as [ | b rest IH]; intros [[result intervals] c]; simpl.
  - exists []. rewrite app_nil_r. split; [reflexivity | constructor].
  - unfold IntervalMap.hits at 1.
    destruct (IntervalOps.isUnknown q || IntervalOps.isUnknown (fst b))
      eqn:Hun; simpl.
    + destruct (IH (result ++ [snd b],
                    DisjointIntervalSet.insert (fst b) intervals,
                    IntervalMap.isCovered q
                      (DisjointIntervalSet.insert (fst b) intervals)))
        as (r & Hr & Hsub).
      exists (snd b :: r). simpl in Hr. rewrite Hr, <- app_assoc.
      split; [reflexivity | apply sublist_skip, Hsub].
    + destruct (IntervalOps.overlaps (fst b) q) eqn:Ho; simpl.
      * destruct (negb (IntervalMap.isCovered (fst b) intervals)).
        -- destruct (IH (result ++ [snd b],
                         DisjointIntervalSet.insert (fst b) intervals,
                         IntervalMap.isCovered q
                           (DisjointIntervalSet.insert (fst b) intervals)))
             as (r & Hr & Hsub).
           exists (snd b :: r). simpl in Hr. rewrite Hr, <- app_assoc.
           split; [reflexivity | apply sublist_skip, Hsub].
        -- destruct (IH (result, intervals, c)) as (r & Hr & Hsub).
           exists r. split; [exact Hr | apply sublist_cons, Hsub].
      * apply IH.
Qed.

(** X9.  [collect] returns a selection of what [collectAll] returns, in
    the same order, whatever intervals are given as already covered. *)
Theorem collect_sublist_collectAll q covered buckets :
  sublist (fst (fst (IntervalMap.collect q covered buckets)))
    (IntervalMap.collectAll q buckets).
Proof.
  unfold IntervalMap.collect, IntervalMap.collectAll.
  destruct (collect_fold_sublist q (rev buckets)
              ([], DisjointIntervalSet.of_container covered, false))
    as (r & Hr & Hsub).
  rewrite Hr. exact Hsub.
Qed.

(** X10.  The flag that [collect] returns: it is false when no bucket was
    taken (for an unknown interval too, which [isCovered] counts as
    covered), and otherwise it is [isCovered] of the interval in the
    interval set returned with it. *)
Theorem collect_is_covered_flag q covered buckets :
  let '(result, intervals, is_covered) :=
    IntervalMap.collect q covered buckets in
  is_covered
  = match result with
    | [] => false
    | _ :: _ => IntervalMap.isCovered q intervals
    end.
Proof.
  unfold IntervalMap.collect.
  assert (∀ l (st : list V * list Interval * bool),
            snd st = match fst (fst st) with
                     | [] => false
                     | _ :: _ => IntervalMap.isCovered q (snd (fst st))
                     end →
            let '(result, intervals, is_covered) :=
              fold_left (IntervalMap.collect_step q) l st in
            is_covered
            = match result with
              | [] => false
              | _ :: _ => IntervalMap.isCovered q intervals
              end) as Hfold.
  { induction l as [ | b rest IH]; intros [[result intervals] c] Hst;
      simpl in *; [exact Hst | ].
    destruct (IntervalOps.isUnknown q || IntervalOps.isUnknown (fst b)
              || IntervalOps.overlaps (fst b) q
                 && negb (IntervalMap.isCovered (fst b) intervals));
      apply IH; simpl; [ | exact Hst].
    destruct result; reflexivity. }
  apply Hfold. reflexivity.
Qed.

(** X11.  The newest bucket shadows the older ones it contains: when a
    value is added under a known interval [i] of positive length to
    buckets whose keys are known and lie in [i] whenever they overlap it,
    [collect] for [i] returns that value alone, [i] as the one covering
    interval, and reports [i] covered. *)
Theorem collect_newest_shadows i (v : V) buckets :
  start i ≠ Offset.UNKNOWN → 0 < len i →
  Forall (λ kv : Interval * V,
            IntervalOps.isUnknown (fst kv) = false
            ∧ (IntervalOps.overlaps (fst kv) i = true →
               IntervalOps.isSubsetOf (fst kv) i = true)) buckets →
  IntervalMap.collect i [] (IntervalMap.add i v buckets) = ([v], [i], true).
Proof.
  intros Hs Hl Hkeys.
  assert (IntervalOps.isUnknown i = false) as Hi.
  { apply not_true_is_false. rewrite isUnknown_spec. lia. }
  assert (IntervalMap.isCovered i [i] = true) as Hcov.
  { unfold IntervalMap.isCovered. rewrite Hi. simpl.
    rewrite (overlaps_refl i Hs Hl). unfold IntervalOps.isSubsetOf.
    rewrite !Z.leb_refl. reflexivity. }
  assert (IntervalMap.isCovered i [] = false) as Hnone.
  { unfold IntervalMap.isCovered. rewrite Hi. reflexivity. }
  assert (IntervalMap.collect_step i
            ([], DisjointIntervalSet.of_container [], false) (i, v)
          = ([v], [i], true)) as Hstep.
  { unfold IntervalMap.collect_step, DisjointIntervalSet.of_container.
    cbn [fst snd fold_left]. rewrite Hi, (overlaps_refl i Hs Hl), Hnone.
    cbn [orb andb negb]. unfold DisjointIntervalSet.insert.
    cbn [DisjointIntervalSet.insert_loop app]. rewrite Hcov. reflexivity. }
  unfold IntervalMap.collect, IntervalMap.add.
  rewrite rev_app_distr. cbn [rev app fold_left]. rewrite Hstep.
  apply Forall_rev in Hkeys.
  induction Hkeys as [ | kv rest [Hkv Himp] _ IH];
    cbn [fold_left]; [reflexivity | ].
  unfold IntervalMap.collect_step at 2. rewrite Hi, Hkv. cbn [orb].
  destruct (IntervalOps.overlaps (fst kv) i) eqn:Ho;
    cbn [andb]; [ | exact IH].
  unfold IntervalMap.isCovered. rewrite Hkv. cbn [existsb].
  rewrite Ho, (Himp eq_refl). cbn [andb orb negb]. exact IH.
Qed.

(** X19.  Unknown intervals are never filtered out by [collect]: the
    value of a bucket is returned whenever the interval asked for or the
    key of the bucket is unknown, whatever the intervals covered so far. *)
Theorem collect_takes_unknown q covered buckets k (v : V) :
  (k, v) ∈ buckets →
  IntervalOps.isUnknown q = true ∨ IntervalOps.isUnknown k = true →
  v ∈ fst (fst (IntervalMap.collect q covered buckets)).
Proof.
  intros Hin Hun. unfold IntervalMap.collect.
  apply list_elem_of_In, in_rev, list_elem_of_In in Hin.
  assert (∀ l (st : list V * list Interval * bool),
            v ∈ fst (fst st) ∨ (k, v) ∈ l →
            v ∈ fst (fst (fold_left (IntervalMap.collect_step q) l st)))
    as Hfold.
  { induction l as [ | b rest IH]; intros [[result intervals] c] H.
    - destruct H as [H | H]; [exact H | inversion H].
    - cbn [fold_left]. apply IH.
      unfold IntervalMap.collect_step at 1.
      destruct H as [H | H].
      + left. simpl in H.
        destruct (IntervalOps.isUnknown q || IntervalOps.isUnknown (fst b)
                  || IntervalOps.overlaps (fst b) q
                     && negb (IntervalMap.isCovered (fst b) intervals));
          simpl; [apply elem_of_app; left; exact H | exact H].
      + apply elem_of_cons in H as [<- | H]; [left | right; exact H].
        cbn [fst snd].
        assert (IntervalOps.isUnknown q || IntervalOps.isUnknown k = true)
          as -> by (destruct Hun as [-> | ->];
                    [reflexivity | apply orb_true_r]).
        simpl. apply elem_of_app. right. left. }
  apply Hfold. right. exact Hin.
Qed.

End IntervalMapMore.

Lemma collect_takes_unknown_witness :
  8%nat ∈ fst (fst (IntervalMap.collect (mkInterval 0 4)
                      [mkInterval 0 100]
                      [(mkInterval 0 4, 7%nat);
                       (mkInterval Offset.UNKNOWN 4, 8%nat)])).
Proof.
  apply (collect_takes_unknown (mkInterval 0 4) [mkInterval 0 100]
           [(mkInterval 0 4, 7%nat); (mkInterval Offset.UNKNOWN 4, 8%nat)]
           (mkInterval Offset.UNKNOWN 4) 8%nat).
  - right. left.
  - right. reflexivity.
Defined.

Lemma killOverlapping_then_collectAll_witness :
  IntervalMap.collectAll (mkInterval 2 2)
    (IntervalMap.killOverlapping (mkInterval 0 4)
       [(mkInterval 1 2, 7%nat); (mkInterval 6 2, 8%nat)]) = [].
Proof.
  apply (killOverlapping_then_collectAll (mkInterval 0 4) (mkInterval 2 2)
           [(mkInterval 1 2, 7%nat); (mkInterval 6 2, 8%nat)]).
  - unfold proper, Offset.UNKNOWN. simpl. lia.
  - unfold proper, Offset.UNKNOWN. simpl. lia.
  - repeat constructor; simpl; lia.
  - reflexivity.
Defined.

Lemma collect_newest_shadows_witness :
  IntervalMap.collect (mkInterval 0 8) []
    (IntervalMap.add (mkInterval 0 8) 3%nat
       [(mkInterval 0 8, 1%nat); (mkInterval 2 2, 2%nat);
        (mkInterval 9 1, 4%nat)])
  = ([3%nat], [mkInterval 0 8], true).
Proof.
  apply (collect_newest_shadows (mkInterval 0 8) 3%nat
           [(mkInterval 0 8, 1%nat); (mkInterval 2 2, 2%nat);
            (mkInterval 9 1, 4%nat)]).
  - unfold Offset.UNKNOWN. simpl. lia.
  - simpl. lia.
  - repeat constructor; simpl; intros; (reflexivity || discriminate).
Defined.

(** ** What the transformation keeps *)

Section Keeps.
Variable R : MemorySSATransformation → MemorySSATransformation → Prop.
Hypothesis R_refl : ∀ st, R st st.
Hypothesis R_trans : ∀ st1 st2 st3, R st1 st2 → R st2 st3 → R st1 st3.

Lemma keeps_ret {A} (a : A) : keeps R (mret a).
Proof.
  intros st a' st' H. unfold mret, M_ret in H.
  assert (st' = st) as -> by congruence. apply R_refl.
Qed.

Lemma keeps_bind {A B} (c : M A) (f : A → M B) :
  keeps R c → (∀ a, keeps R (f a)) → keeps R (c ≫= f).
Proof.
  intros Hc Hf st b st' H. unfold mbind, M_bind in H.
  destruct (c st) as [[a st1] | e | ] eqn:Hc1; try discriminate.
  eapply R_trans; [eapply Hc, Hc1 | eapply Hf, H].
Qed.

Lemma keeps_foldM {A B} (f : A → B → M A) (l : list B) :
  (∀ a x, x ∈ l → keeps R (f a x)) → ∀ a, keeps R (foldM f a l).
Proof.
  induction l as [ | x rest IH]; intros Hf a; simpl.
  - apply keeps_ret.
  - apply keeps_bind; [apply Hf; left | ].
    intros a'. apply IH. intros a'' y Hy. apply Hf. right. exact Hy.
Qed.

Lemma keeps_forM_ {B} (l : list B) (f : B → M unit) :
  (∀ x, x ∈ l → keeps R (f x)) → keeps R (forM_ l f).
Proof.
  intros Hf. unfold forM_. apply keeps_foldM. intros _ x Hx. apply Hf, Hx.
Qed.

Lemma keeps_getBlock b : keeps R (getBlock b).
Proof.
  intros st a st' H. unfold getBlock in H.
  destruct (graph_blocks st !! b); [ | discriminate].
  assert (st' = st) as -> by congruence. apply R_refl.
Qed.

Lemma keeps_getNode n : keeps R (getNode n).
Proof.
  intros st a st' H. unfold getNode in H.
  destruct (graph_nodes st !! n); [ | discriminate].
  assert (st' = st) as -> by congruence. apply R_refl.
Qed.

Lemma keeps_assert c : keeps R (assert c).
Proof.
  destruct c; simpl; [apply keeps_ret | ]. intros st a st' H. discriminate.
Qed.

Lemma keeps_abort {A} e : keeps R (abort e : M A).
Proof. intros st a st' H. discriminate. Qed.

Lemma keeps_out_of_fuel {A} : keeps R (out_of_fuel : M A).
Proof. intros st a st' H. discriminate. Qed.

(** The three ways in which the transformation changes its state. *)
Variable touched : BlockId → Prop.

Hypothesis R_defuse :
  ∀ st n nd found, graph_nodes st !! n = Some nd →
    R st (mkMemorySSA
            (<[n := mkRWNode (getType nd) (getBBlock nd) (overwrites nd)
                      (defs nd) (uses nd)
                      (set_insert_all found (defuse nd)) (successors nd)]>
               (graph_nodes st))
            (graph_blocks st) (_phis st)).

Hypothesis R_definitions :
  ∀ st b blk m, touched b → graph_blocks st !! b = Some blk →
    R st (mkMemorySSA (graph_nodes st)
            (<[b := mkRWBBlock (getNodes blk) m (preds blk)]>
               (graph_blocks st))
            (_phis st)).

Hypothesis R_emplaced_lvn :
  ∀ st b blk site, touched b → graph_blocks st !! b = Some blk →
    R st (emplaced st b blk site).

Hypothesis R_emplaced_gvn :
  ∀ st b blk site,
    graph_blocks st !! b = Some blk → getSinglePredecessor blk = None →
    R st (emplaced st b blk site).

Lemma keeps_defuse_add n found : keeps R (defuse_add n found).
Proof.
  intros st a st' H. unfold defuse_add, modifyNode in H.
  destruct (graph_nodes st !! n) as [nd | ] eqn:Hn; [ | discriminate].
  assert (st' = mkMemorySSA
            (<[n := mkRWNode (getType nd) (getBBlock nd) (overwrites nd)
                      (defs nd) (uses nd)
                      (set_insert_all found (defuse nd)) (successors nd)]>
               (graph_nodes st))
            (graph_blocks st) (_phis st)) as -> by congruence.
  apply R_defuse, Hn.
Qed.

Lemma keeps_setDefinitions b m : touched b → keeps R (setDefinitions b m).
Proof.
  intros Hb st a st' H. unfold setDefinitions, modifyBlock in H.
  destruct (graph_blocks st !! b) as [blk | ] eqn:Hblk; [ | discriminate].
  assert (st' = mkMemorySSA (graph_nodes st)
            (<[b := mkRWBBlock (getNodes blk) m (preds blk)]>
               (graph_blocks st))
            (_phis st)) as -> by congruence.
  apply R_definitions; assumption.
Qed.

Lemma keeps_emplacePhi b ds i : touched b → keeps R (emplacePhi b ds i).
Proof.
  intros Hb st a st' H. rewrite emplacePhi_cases in H.
  destruct (graph_blocks st !! b) as [blk | ] eqn:Hblk; [ | discriminate].
  simpl in H. case_bool_decide; [ | discriminate].
  assert (st' = emplaced st b blk
                  (mkDefSite (target ds) (start i) (len i))) as ->
    by congruence.
  apply R_emplaced_lvn; assumption.
Qed.

Lemma keeps_findDefinitionsInBlock block ds :
  touched block → keeps R (findDefinitionsInBlock block ds).
Proof.
  intros Hb. unfold findDefinitionsInBlock.
  apply keeps_bind; [apply keeps_getBlock | ]. intros blk.
  apply keeps_foldM. intros defs0 interval _.
  apply keeps_bind; [apply keeps_emplacePhi, Hb | ].
  intros phi. apply keeps_ret.
Qed.

Lemma keeps_performLvn_node block node :
  touched block → keeps R (performLvn_node block node).
Proof.
  intros Hb. unfold performLvn_node.
  apply keeps_bind; [apply keeps_getNode | ]. intros nd.
  apply keeps_bind.
  { apply keeps_forM_. intros ds _. unfold performLvn_overwrite.
    apply keeps_bind; [apply keeps_assert | ]. intros ?.
    apply keeps_bind; [apply keeps_assert | ]. intros ?.
    apply keeps_bind; [apply keeps_getBlock | ]. intros blk.
    apply keeps_setDefinitions, Hb. }
  intros ?. apply keeps_bind.
  { apply keeps_forM_. intros ds _. unfold performLvn_def.
    destruct (targetIsUnknown ds).
    - apply keeps_bind; [apply keeps_getBlock | ]. intros blk.
      apply keeps_setDefinitions, Hb.
    - apply keeps_bind; [apply keeps_findDefinitionsInBlock, Hb | ].
      intros found. apply keeps_bind; [apply keeps_defuse_add | ].
      intros ?. apply keeps_bind; [apply keeps_getBlock | ]. intros blk.
      apply keeps_setDefinitions, Hb. }
  intros ?. apply keeps_forM_. intros ds _. unfold performLvn_use.
  apply keeps_bind; [apply keeps_findDefinitionsInBlock, Hb | ].
  intros found. apply keeps_defuse_add.
Qed.

Lemma keeps_performLvn_block block :
  touched block → keeps R (performLvn_block block).
Proof.
  intros Hb. unfold performLvn_block.
  apply keeps_bind; [apply keeps_getBlock | ]. intros blk.
  apply keeps_forM_. intros node _. apply keeps_performLvn_node, Hb.
Qed.

Lemma keeps_performLvn : (∀ b, touched b) → keeps R performLvn.
Proof.
  intros Hall st a st' H. unfold performLvn in H.
  eapply keeps_forM_; [ | exact H].
  intros block _. apply keeps_performLvn_block, Hall.
Qed.

Lemma keeps_findDefinitions fuel :
  ∀ block ds, keeps R (findDefinitions fuel block ds).
Proof.
  induction fuel as [ | fuel IH]; intros [b | ] ds; simpl;
    try apply keeps_ret; try apply keeps_out_of_fuel.
  apply keeps_bind; [apply keeps_getBlock | ]. intros blk0.
  apply keeps_foldM. intros defs0 interval _ st r st' H.
  unfold findDefinitions_step, mbind, M_bind, getBlock in H.
  destruct (graph_blocks st !! b) as [blk | ] eqn:Hb; [ | discriminate].
  destruct (getSinglePredecessor blk) as [pred | ] eqn:Hpred.
  - destruct (findDefinitions fuel (Some pred) ds st)
      as [[pdefs st1] | e | ] eqn:Hrec; try discriminate.
    unfold mret, M_ret in H. assert (st' = st1) as -> by congruence.
    eapply IH, Hrec.
  - rewrite emplacePhi_cases, Hb in H. simpl in H.
    case_bool_decide; [ | discriminate].
    unfold mret, M_ret in H.
    assert (st' = emplaced st b blk
                    (mkDefSite (target ds) (start interval)
                       (len interval))) as -> by congruence.
    apply R_emplaced_gvn; assumption.
Qed.

Lemma keeps_performGvn_pred depth phi ds phis I :
  keeps R (performGvn_pred depth phi ds phis I).
Proof.
  unfold performGvn_pred.
  apply keeps_bind.
  { intros st r st' H. unfold phis_size in H.
    assert (st' = st) as -> by congruence. apply R_refl. }
  intros old. apply keeps_bind; [apply keeps_findDefinitions | ].
  intros found. apply keeps_bind; [apply keeps_defuse_add | ].
  intros ?. apply keeps_bind.
  { intros st r st' H. unfold phis_from in H.
    assert (st' = st) as -> by congruence. apply R_refl. }
  intros new. apply keeps_ret.
Qed.

Lemma keeps_performGvn_loop addr depth fuel :
  ∀ phis, keeps R (performGvn_loop addr depth fuel phis).
Proof.
  induction fuel as [ | fuel IH]; intros phis; simpl;
    destruct (pop_begin addr phis) as [[phi rest] | ];
    try apply keeps_ret; try apply keeps_out_of_fuel.
  apply keeps_bind; [apply keeps_getNode | ]. intros nd.
  apply keeps_bind; [apply keeps_assert | ]. intros ?.
  destruct (overwrites nd) as [ | ds others]; [apply keeps_abort | ].
  destruct (getBBlock nd) as [block | ]; [ | apply keeps_abort].
  apply keeps_bind; [apply keeps_getBlock | ]. intros blk.
  apply keeps_bind; [ | intros phis'; apply IH].
  apply keeps_foldM. intros phis' I _. apply keeps_performGvn_pred.
Qed.

Lemma keeps_performGvn addr depth fuel :
  keeps R (performGvn addr depth fuel).
Proof.
  intros st a st' H. unfold performGvn in H.
  eapply keeps_performGvn_loop, H.
Qed.

Lemma keeps_run addr depth fuel :
  (∀ b, touched b) → keeps R (run addr depth fuel).
Proof.
  intros Hall. unfold run.
  apply keeps_bind; [apply keeps_performLvn, Hall | ].
  intros ?. apply keeps_performGvn.
Qed.

End Keeps.

(** ** The transformation only adds PHIs *)

Lemma block_kept_refl bound blk : block_kept bound blk blk.
Proof. split; [reflexivity | ]. exists []. split; [reflexivity | constructor]. Qed.

Lemma extends_refl st : extends st st.
Proof.
  split.
  - reflexivity.
  - rewrite Nat.sub_diag. simpl. rewrite app_nil_r. reflexivity.
  - intros n nd Hn. exists nd. split; [exact Hn | apply node_kept_refl].
  - reflexivity.
  - intros b blk Hb. exists blk. split; [exact Hb | apply block_kept_refl].
  - intros n nd' Hle Hn. apply lookup_lt_Some in Hn. lia.
Qed.

Lemma extends_trans st1 st2 st3 :
  extends st1 st2 → extends st2 st3 → extends st1 st3.
Proof.
  intros [L1 P1 N1 BL1 B1 C1] [L2 P2 N2 BL2 B2 C2]. split.
  - lia.
  - rewrite P2, P1, <- app_assoc. f_equal.
    replace (length (graph_nodes st3) - length (graph_nodes st1))%nat
      with ((length (graph_nodes st2) - length (graph_nodes st1))
            + (length (graph_nodes st3) - length (graph_nodes st2)))%nat
      by lia.
    rewrite seq_app. do 2 f_equal. lia.
  - intros n nd1 Hn. destruct (N1 n nd1 Hn) as (nd2 & Hn2 & K12).
    destruct (N2 n nd2 Hn2) as (nd3 & Hn3 & K23).
    exists nd3. split; [exact Hn3 | ].
    exact (node_kept_trans _ _ _ K12 K23).
  - congruence.
  - intros b blk1 Hb. destruct (B1 b blk1 Hb) as (blk2 & Hb2 & E12 & n12 & Hn12 & F12).
    destruct (B2 b blk2 Hb2) as (blk3 & Hb3 & E23 & n23 & Hn23 & F23).
    exists blk3. split; [exact Hb3 | ]. split; [congruence | ].
    exists (n23 ++ n12). split; [rewrite Hn23, Hn12, app_assoc; reflexivity | ].
    apply Forall_app. split; [ | exact F12].
    eapply List.Forall_impl; [ | exact F23]. simpl. intros; lia.
  - intros n nd3 Hle Hn3.
    destruct (decide (n < length (graph_nodes st2))%nat) as [Hlt | Hge].
    + destruct (lookup_lt_is_Some_2 _ _ Hlt) as [nd2 Hn2].
      destruct (C1 n nd2 Hle Hn2)
        as (T & [site O] & D & U & b & blk2 & Hb & Hblk2 & Hin).
      destruct (N2 n nd2 Hn2) as (nd3' & Hn3' & K1 & K2 & K3 & K4 & K5 & _).
      assert (nd3' = nd3) as -> by congruence.
      destruct (B2 b blk2 Hblk2) as (blk3 & Hb3 & _ & news & Hnews & _).
      split; [congruence | ]. split; [exists site; congruence | ].
      split; [congruence | ]. split; [congruence | ].
      exists b, blk3. split; [congruence | ]. split; [exact Hb3 | ].
      rewrite Hnews. apply elem_of_app. right. exact Hin.
    + apply (C2 n nd3); [lia | exact Hn3].
Qed.

Lemma extends_defuse st n nd found :
  graph_nodes st !! n = Some nd →
  extends st
    (mkMemorySSA
       (<[n := mkRWNode (getType nd) (getBBlock nd) (overwrites nd)
                 (defs nd) (uses nd)
                 (set_insert_all found (defuse nd)) (successors nd)]>
          (graph_nodes st))
       (graph_blocks st) (_phis st)).
Proof.
  intros Hn. split; simpl.
  - rewrite length_insert. reflexivity.
  - rewrite length_insert, Nat.sub_diag. simpl. rewrite app_nil_r.
    reflexivity.
  - intros m ndm Hm. destruct (decide (n = m)) as [-> | Hne].
    + eexists. split.
      * apply list_lookup_insert_eq. eapply lookup_lt_Some, Hn.
      * assert (ndm = nd) as -> by congruence.
        repeat split; try reflexivity. simpl.
        intros x Hx. apply set_insert_all_elem. right. exact Hx.
    + exists ndm. rewrite list_lookup_insert_ne by exact Hne.
      split; [exact Hm | apply node_kept_refl].
  - reflexivity.
  - intros b blk Hb. exists blk. split; [exact Hb | apply block_kept_refl].
  - intros m nd' Hle Hm. apply lookup_lt_Some in Hm.
    rewrite length_insert in Hm. lia.
Qed.

Lemma extends_definitions st b blk m :
  graph_blocks st !! b = Some blk →
  extends st
    (mkMemorySSA (graph_nodes st)
       (<[b := mkRWBBlock (getNodes blk) m (preds blk)]> (graph_blocks st))
       (_phis st)).
Proof.
  intros Hb. split; simpl.
  - reflexivity.
  - rewrite Nat.sub_diag. simpl. rewrite app_nil_r. reflexivity.
  - intros n nd Hn. exists nd. split; [exact Hn | apply node_kept_refl].
  - apply length_insert.
  - intros b' blk' Hb'. destruct (decide (b = b')) as [-> | Hne].
    + eexists. split.
      * apply list_lookup_insert_eq. eapply lookup_lt_Some, Hb.
      * assert (blk' = blk) as -> by congruence.
        split; [reflexivity | ]. exists [].
        split; [reflexivity | constructor].
    + exists blk'. rewrite list_lookup_insert_ne by exact Hne.
      split; [exact Hb' | apply block_kept_refl].
  - intros n nd' Hle Hn. apply lookup_lt_Some in Hn. lia.
Qed.

Lemma extends_emplaced st b blk site :
  graph_blocks st !! b = Some blk → extends st (emplaced st b blk site).
Proof.
  intros Hb. pose proof (lookup_lt_Some _ _ _ Hb) as Hlt. split.
  - rewrite emplaced_nodes_length. lia.
  - rewrite emplaced_nodes_length.
    replace (S (length (graph_nodes st)) - length (graph_nodes st))%nat
      with 1%nat by lia.
    reflexivity.
  - intros n nd Hn. apply emplaced_old_node, Hn.
  - simpl. apply length_insert.
  - intros b' blk' Hb'. simpl. destruct (decide (b = b')) as [-> | Hne].
    + eexists. split; [apply list_lookup_insert_eq, Hlt | ].
      assert (blk' = blk) as -> by congruence.
      split; [reflexivity | ]. exists [length (graph_nodes st)].
      split; [reflexivity | ]. constructor; [lia | constructor].
    + exists blk'. rewrite list_lookup_insert_ne by exact Hne.
      split; [exact Hb' | apply block_kept_refl].
  - intros n nd' Hle Hn. pose proof (lookup_lt_Some _ _ _ Hn) as Hn'.
    rewrite emplaced_nodes_length in Hn'.
    assert (n = length (graph_nodes st)) as -> by lia.
    rewrite emplaced_new_node in Hn. injection Hn as <-.
    split; [reflexivity | ]. split; [exists site; reflexivity | ].
    split; [reflexivity | ]. split; [reflexivity | ].
    eexists b, _. split; [reflexivity | ]. simpl.
    split; [apply list_lookup_insert_eq, Hlt | ]. simpl. left.
Qed.

Lemma run_extends addr depth fuel : keeps extends (run addr depth fuel).
Proof.
  apply (keeps_run extends extends_refl extends_trans (λ _, True)).
  - intros st n nd found Hn. apply extends_defuse, Hn.
  - intros st b blk m _ Hb. apply extends_definitions, Hb.
  - intros st b blk site _ Hb. apply extends_emplaced, Hb.
  - intros st b blk site Hb _. apply extends_emplaced, Hb.
  - intros b. exact I.
Qed.

(** X12.  LVN and GVN create nodes only as entries of the registry: after
    a run the registry is the one before followed by the numbers of the
    nodes created, in the order of their creation, and no node is
    removed. *)
Theorem run_registers_created_nodes (addr : NodeId → Z) (depth fuel : nat)
    (st st' : MemorySSATransformation) :
  run addr depth fuel st = Ok (tt, st') →
  (length (graph_nodes st) ≤ length (graph_nodes st'))%nat
  ∧ _phis st'
    = _phis st ++ seq (length (graph_nodes st))
                    (length (graph_nodes st') - length (graph_nodes st)).
Proof.
  intros Hrun. destruct (run_extends addr depth fuel st tt st' Hrun).
  split; assumption.
Qed.

Lemma run_registers_created_nodes_witness :
  (length (graph_nodes Fork.graph)
   ≤ length (graph_nodes ForkRun.analysed))%nat
  ∧ _phis ForkRun.analysed
    = _phis Fork.graph
      ++ seq (length (graph_nodes Fork.graph))
           (length (graph_nodes ForkRun.analysed)
            - length (graph_nodes Fork.graph)).
Proof.
  apply (run_registers_created_nodes Fork.ascending 2 8 Fork.graph
           ForkRun.analysed).
  vm_compute. reflexivity.
Defined.

(** X13.  LVN and GVN do not change what the nodes of the program read
    and write: a node that was in the graph keeps its kind, its block, its
    overwrites, defs and uses, and its defuse set only grows. *)
Theorem run_keeps_program_nodes (addr : NodeId → Z) (depth fuel : nat)
    (st st' : MemorySSATransformation) (n : NodeId) (nd : RWNode) :
  run addr depth fuel st = Ok (tt, st') →
  graph_nodes st !! n = Some nd →
  ∃ nd', graph_nodes st' !! n = Some nd' ∧ node_kept nd nd'.
Proof.
  intros Hrun Hn. destruct (run_extends addr depth fuel st tt st' Hrun).
  auto.
Qed.

Lemma run_keeps_program_nodes_witness :
  ∃ nd', graph_nodes ForkRun.analysed !! 3%nat = Some nd'
         ∧ node_kept (Fork.node (Some 1%nat) [mkDefSite Fork.t 0 4]) nd'.
Proof.
  apply (run_keeps_program_nodes Fork.ascending 2 8 Fork.graph
           ForkRun.analysed 3%nat).
  - vm_compute. reflexivity.
  - reflexivity.
Defined.

(** X14.  LVN and GVN keep the blocks and the edges between them: the
    number of blocks and the predecessors of each block are unchanged,
    and the nodes of a block are those it had, in their order, behind
    nodes that the run has created. *)
Theorem run_only_prepends_to_blocks (addr : NodeId → Z) (depth fuel : nat)
    (st st' : MemorySSATransformation) :
  run addr depth fuel st = Ok (tt, st') →
  length (graph_blocks st') = length (graph_blocks st)
  ∧ ∀ b blk, graph_blocks st !! b = Some blk →
      ∃ blk', graph_blocks st' !! b = Some blk'
              ∧ block_kept (length (graph_nodes st)) blk blk'.
Proof.
  intros Hrun. destruct (run_extends addr depth fuel st tt st' Hrun).
  split; assumption.
Qed.

Lemma run_only_prepends_to_blocks_witness :
  length (graph_blocks ForkRun.analysed) = length (graph_blocks Fork.graph)
  ∧ ∀ b blk, graph_blocks Fork.graph !! b = Some blk →
      ∃ blk', graph_blocks ForkRun.analysed !! b = Some blk'
              ∧ block_kept (length (graph_nodes Fork.graph)) blk blk'.
Proof.
  apply (run_only_prepends_to_blocks Fork.ascending 2 8 Fork.graph
           ForkRun.analysed).
  vm_compute. reflexivity.
Defined.

(** X15.  Every node that LVN and GVN create, and so every entry they add
    to the registry, is a PHI with exactly one overwrites entry, without
    defs and uses, that is among the nodes of the block it belongs to:
    what [performGvn] asserts of a PHI it pops holds of the PHIs the
    transformation made. *)
Theorem run_creates_only_phis (addr : NodeId → Z) (depth fuel : nat)
    (st st' : MemorySSATransformation) :
  run addr depth fuel st = Ok (tt, st') →
  (∀ n nd', (length (graph_nodes st) ≤ n)%nat →
     graph_nodes st' !! n = Some nd' → created_phi st' n nd')
  ∧ ∀ p, p ∈ _phis st' →
      p ∈ _phis st
      ∨ ∃ nd', graph_nodes st' !! p = Some nd' ∧ created_phi st' p nd'.
Proof.
  intros Hrun.
  destruct (run_extends addr depth fuel st tt st' Hrun)
    as [L P _ _ _ C].
  split; [exact C | ]. intros p Hp. rewrite P in Hp.
  apply elem_of_app in Hp as [Hp | Hp]; [left; exact Hp | right].
  apply list_elem_of_In, in_seq in Hp.
  assert (p < length (graph_nodes st'))%nat as Hlt by lia.
  destruct (lookup_lt_is_Some_2 _ _ Hlt) as [nd' Hnd'].
  exists nd'. split; [exact Hnd' | ]. apply C; [lia | exact Hnd'].
Qed.

Lemma run_creates_only_phis_witness :
  (∀ n nd', (length (graph_nodes Fork.graph) ≤ n)%nat →
     graph_nodes ForkRun.analysed !! n = Some nd' →
     created_phi ForkRun.analysed n nd')
  ∧ ∀ p, p ∈ _phis ForkRun.analysed →
      p ∈ _phis Fork.graph
      ∨ ∃ nd', graph_nodes ForkRun.analysed !! p = Some nd'
               ∧ created_phi ForkRun.analysed p nd'.
Proof.
  apply (run_creates_only_phis Fork.ascending 2 8 Fork.graph
           ForkRun.analysed).
  vm_compute. reflexivity.
Defined.

(** ** Which blocks the two phases change *)

Lemma elsewhere_refl b st : elsewhere b st st.
Proof. intros b' _. reflexivity. Qed.

Lemma elsewhere_trans b st1 st2 st3 :
  elsewhere b st1 st2 → elsewhere b st2 st3 → elsewhere b st1 st3.
Proof. intros H1 H2 b' Hb'. rewrite (H2 b' Hb'). apply H1, Hb'. Qed.

(** X16.  Local value numbering is local: [performLvn(block)] changes
    the definitions and the nodes of no other block. *)
Theorem performLvn_block_is_local (block b' : BlockId)
    (st st' : MemorySSATransformation) :
  performLvn_block block st = Ok (tt, st') →
  b' ≠ block → graph_blocks st' !! b' = graph_blocks st !! b'.
Proof.
  intros Hrun.
  assert (keeps (elsewhere block) (performLvn_block block)) as Hkeeps.
  { apply (keeps_performLvn_block (elsewhere block) (elsewhere_refl block)
             (elsewhere_trans block) (λ b, b = block)).
    - intros s n nd found _ b0 _. reflexivity.
    - intros s b blk m -> _ b0 Hb0. simpl.
      apply list_lookup_insert_ne. congruence.
    - intros s b blk site -> _ b0 Hb0. simpl.
      apply list_lookup_insert_ne. congruence.
    - reflexivity. }
  exact (Hkeeps st tt st' Hrun b').
Qed.

Lemma performLvn_block_is_local_witness :
  graph_blocks ForkRun.after_lvn_of_block_1 !! 2%nat
  = graph_blocks Fork.graph !! 2%nat.
Proof.
  apply (performLvn_block_is_local 1%nat 2%nat Fork.graph
           ForkRun.after_lvn_of_block_1).
  - vm_compute. reflexivity.
  - lia.
Defined.

Lemma single_pred_kept_refl st : single_pred_kept st st.
Proof. intros b blk Hb _. exact Hb. Qed.

Lemma single_pred_kept_trans st1 st2 st3 :
  single_pred_kept st1 st2 → single_pred_kept st2 st3 →
  single_pred_kept st1 st3.
Proof. intros H1 H2 b blk Hb Hs. apply H2; [apply H1 | ]; assumption. Qed.

(** X17.  Global value numbering puts PHIs only in blocks that do not
    have a single predecessor: a block with a single predecessor has the
    same nodes and the same definitions after [performGvn] as before. *)
Theorem performGvn_keeps_single_pred_blocks (addr : NodeId → Z)
    (depth fuel : nat) (st st' : MemorySSATransformation)
    (b : BlockId) (blk : RWBBlock) :
  performGvn addr depth fuel st = Ok (tt, st') →
  graph_blocks st !! b = Some blk →
  is_Some (getSinglePredecessor blk) →
  graph_blocks st' !! b = Some blk.
Proof.
  intros Hrun.
  assert (keeps single_pred_kept (performGvn addr depth fuel)) as Hkeeps.
  { apply (keeps_performGvn single_pred_kept single_pred_kept_refl
             single_pred_kept_trans).
    - intros s n nd found _ b0 blk0 Hb0 _. exact Hb0.
    - intros s b0 blk0 site Hb0 Hnone b1 blk1 Hb1 Hsingle. simpl.
      rewrite list_lookup_insert_ne; [exact Hb1 | ].
      intros ->. assert (blk1 = blk0) as -> by congruence.
      rewrite Hnone in Hsingle. destruct Hsingle as [? ?]. discriminate. }
  exact (Hkeeps st tt st' Hrun b blk).
Qed.

Lemma performGvn_keeps_single_pred_blocks_witness :
  ∃ blk, graph_blocks ForkRun.after_lvn !! 1%nat = Some blk
         ∧ graph_blocks ForkRun.analysed !! 1%nat = Some blk.
Proof.
  eexists. split; [vm_compute; reflexivity | ].
  apply (performGvn_keeps_single_pred_blocks Fork.ascending 2 8
           ForkRun.after_lvn ForkRun.analysed 1%nat).
  - vm_compute. reflexivity.
  - vm_compute. reflexivity.
  - vm_compute. eexists. reflexivity.
Defined.

(** ** What [gatherNonPhisDefs] gathers *)

Section GatherExact.
Variable g : list RWNode.
Variable nodes : list NodeId.
Implicit Types (acc : list NodeId * list NodeId).

Lemma handled_mono acc acc' n :
  fst acc ⊆ fst acc' → snd acc ⊆ snd acc' →
  handled g acc n → handled g acc' n.
Proof.
  intros H1 H2 (nd & Hn & H). exists nd. split; [exact Hn | ].
  destruct (isPhi nd); auto.
Qed.

Lemma expanded_mono acc acc' p :
  fst acc ⊆ fst acc' → snd acc ⊆ snd acc' →
  expanded g acc p → expanded g acc' p.
Proof.
  intros H1 H2 H nd n Hp Hn. eapply handled_mono; [exact H1 | exact H2 | ].
  eapply H; eassumption.
Qed.

Lemma set_insert_elem (x y : nat) (s : list nat) :
  x ∈ set_insert y s ↔ x = y ∨ x ∈ s.
Proof.
  unfold set_insert. destruct (decide (y ∈ s)) as [Hy | Hy].
  - split; [auto | intros [-> | H]; auto].
  - rewrite elem_of_app, list_elem_of_singleton. tauto.
Qed.

Lemma set_insert_NoDup (y : nat) (s : list nat) :
  NoDup s → NoDup (set_insert y s).
Proof.
  intros Hs. unfold set_insert. destruct (decide (y ∈ s)) as [Hy | Hy];
    [exact Hs | ].
  apply list.NoDup_app. split; [exact Hs | ]. split.
  - intros x Hx Hx'. apply list_elem_of_singleton in Hx'. congruence.
  - apply list.NoDup_singleton.
Qed.

Lemma gather_post_refl ns acc :
  (∀ n, n ∈ ns → handled g acc n) → gather_post g nodes ns acc acc.
Proof.
  intros H. split; [reflexivity | ]. split; [reflexivity | ].
  split; [exact H | ]. split; [auto | auto].
Qed.

Lemma gather_post_step
    (recur : NodeId → list NodeId * list NodeId
             → result (list NodeId * list NodeId)) :
  (∀ phi acc acc', recur phi acc = Ok acc' →
     gather_post g nodes [phi] acc acc') →
  ∀ n acc acc', gather_step recur g acc n = Ok acc' →
    gather_post g nodes [n] acc acc'.
Proof.
  intros Hrec n acc acc' H. unfold gather_step, mbind, result_bind in H.
  destruct (g !! n) as [nd | ] eqn:Hn; simpl in H; [ | discriminate].
  destruct (isPhi nd) eqn:Hphi; simpl in H; [apply Hrec, H | ].
  assert (acc' = (fst acc, set_insert n (snd acc))) as -> by congruence.
  simpl. split; [reflexivity | ].
  split; [intros x Hx; apply set_insert_elem; right; exact Hx | ].
  split.
  { intros m Hm. apply list_elem_of_singleton in Hm as ->.
    exists nd. split; [exact Hn | ]. rewrite Hphi. simpl.
    apply set_insert_elem. left. reflexivity. }
  split; [auto | ].
  intros Hreach (S1 & S2 & S3). split; [exact S1 | ]. split.
  - simpl. intros x Hx. apply set_insert_elem in Hx as [-> | Hx];
      [ | apply S2, Hx].
    split; [apply Hreach; left | ].
    exists nd. split; [exact Hn | ].
    unfold isPhi in Hphi. apply bool_decide_eq_false_1 in Hphi.
    exact Hphi.
  - simpl. apply set_insert_NoDup, S3.
Qed.

Lemma gather_post_fold
    (recur : NodeId → list NodeId * list NodeId
             → result (list NodeId * list NodeId)) :
  (∀ phi acc acc', recur phi acc = Ok acc' →
     gather_post g nodes [phi] acc acc') →
  ∀ ns acc acc', fold_result (gather_step recur g) acc ns = Ok acc' →
    gather_post g nodes ns acc acc'.
Proof.
  intros Hrec. induction ns as [ | n rest IH]; intros acc acc' H;
    simpl in H.
  - assert (acc' = acc) as -> by congruence.
    apply gather_post_refl. intros n Hn. inversion Hn.
  - unfold mbind, result_bind in H.
    destruct (gather_step recur g acc n) as [acc1 | e | ] eqn:Hstep;
      try discriminate.
    destruct (gather_post_step recur Hrec n acc acc1 Hstep)
      as (G1 & G2 & G3 & G4 & G5).
    destruct (IH acc1 acc' H) as (K1 & K2 & K3 & K4 & K5).
    split; [intros x Hx; apply K1, G1, Hx | ].
    split; [intros x Hx; apply K2, G2, Hx | ].
    split.
    { intros m Hm. apply elem_of_cons in Hm as [-> | Hm]; [ | apply K3, Hm].
      apply (handled_mono acc1); [exact K1 | exact K2 | ].
      apply G3. left. }
    split.
    { intros p Hp. destruct (K4 p Hp) as [Hp1 | Hp1]; [ | right; exact Hp1].
      destruct (G4 p Hp1) as [Hp0 | Hp0]; [left; exact Hp0 | right].
      apply (expanded_mono acc1); assumption. }
    intros Hreach Hsound. apply K5.
    + intros m Hm. apply Hreach. right. exact Hm.
    + apply G5; [ | exact Hsound].
      intros m Hm. apply list_elem_of_singleton in Hm as ->.
      apply Hreach. left.
Qed.

Lemma recGatherNonPhisDefs_post fuel :
  ∀ phi acc acc', recGatherNonPhisDefs g fuel phi acc = Ok acc' →
    gather_post g nodes [phi] acc acc'.
Proof.
  induction fuel as [ | fuel IH]; intros phi acc acc' H; simpl in H;
    [discriminate | ].
  unfold mbind, result_bind in H.
  destruct (g !! phi) as [nd | ] eqn:Hphi; simpl in H; [ | discriminate].
  destruct (isPhi nd) eqn:Hnd; simpl in H; [ | discriminate].
  destruct (decide (phi ∈ fst acc)) as [Hin | Hnotin].
  - assert (acc' = acc) as -> by congruence.
    apply gather_post_refl. intros n Hn.
    apply list_elem_of_singleton in Hn as ->.
    exists nd. split; [exact Hphi | ]. rewrite Hnd. exact Hin.
  - destruct (gather_post_fold (recGatherNonPhisDefs g fuel) IH
                (defuse nd) (phi :: fst acc, snd acc) acc' H)
      as (K1 & K2 & K3 & K4 & K5). simpl in *.
    assert (phi ∈ fst acc') as Hvisited by (apply K1; left).
    split; [intros x Hx; apply K1; right; exact Hx | ].
    split; [exact K2 | ].
    split.
    { intros n Hn. apply list_elem_of_singleton in Hn as ->.
      exists nd. split; [exact Hphi | ]. rewrite Hnd. exact Hvisited. }
    split.
    { intros p Hp. destruct (K4 p Hp) as [Hp0 | Hp0]; [ | right; exact Hp0].
      apply elem_of_cons in Hp0 as [-> | Hp0]; [right | left; exact Hp0].
      intros nd' n Hnd' Hn. apply K3.
      assert (nd' = nd) as -> by congruence. exact Hn. }
    intros Hreach (S1 & S2 & S3).
    assert (reaches g nodes phi) as Hr by (apply Hreach; left).
    apply K5.
    + intros n Hn. exact (reaches_defuse g nodes phi nd n Hr Hphi Hnd Hn).
    + split; [ | split; assumption]. simpl.
      intros p Hp. apply elem_of_cons in Hp as [-> | Hp]; auto.
Qed.

End GatherExact.

(** X18.  [gatherNonPhisDefs] returns, each once, exactly the nodes that
    are not PHIs and are reached from the given nodes through the defuse
    sets of PHIs. *)
Theorem gatherNonPhisDefs_exact (g : list RWNode) (fuel : nat)
    (nodes l : list NodeId) :
  gatherNonPhisDefs g fuel nodes = Ok l →
  NoDup l ∧ ∀ x, x ∈ l ↔ reaches g nodes x ∧ non_phi g x.
Proof.
  intros H. unfold gatherNonPhisDefs, mbind, result_bind in H.
  destruct (fold_result _ _ nodes) as [acc | e | ] eqn:Hfold;
    try discriminate.
  assert (l = snd acc) as -> by congruence.
  destruct (gather_post_fold g nodes (recGatherNonPhisDefs g fuel)
              (recGatherNonPhisDefs_post g nodes fuel) nodes ([], []) acc
              Hfold) as (_ & _ & K3 & K4 & K5).
  destruct K5 as (_ & S2 & S3).
  { intros n Hn. apply reaches_root, Hn. }
  { split; [intros p Hp; inversion Hp | ].
    split; [intros x Hx; inversion Hx | constructor]. }
  split; [exact S3 | ]. intros x. split; [apply S2 | ].
  intros [Hreach (nd & Hx & Hty)].
  assert (handled g acc x) as (nd' & Hx' & Hh).
  { clear nd Hx Hty. induction Hreach as [n Hn | p ndp n _ IH Hp Hphi Hn].
    - apply K3, Hn.
    - destruct IH as (ndp' & Hp' & Hh).
      assert (ndp' = ndp) as -> by congruence. rewrite Hphi in Hh.
      destruct (K4 p Hh) as [Hnil | Hexp]; [inversion Hnil | ].
      exact (Hexp ndp n Hp Hn). }
  assert (nd' = nd) as -> by congruence.
  assert (isPhi nd = false) as Hphi
    by (unfold isPhi; apply bool_decide_eq_false_2, Hty).
  rewrite Hphi in Hh. exact Hh.
Qed.

Lemma gatherNonPhisDefs_exact_witness :
  NoDup [2%nat]
  ∧ ∀ x, x ∈ [2%nat]
         ↔ reaches (graph_nodes Cycle.graph) [4%nat; 3%nat] x
           ∧ non_phi (graph_nodes Cycle.graph) x.
Proof.
  apply (gatherNonPhisDefs_exact (graph_nodes Cycle.graph) 7
           [4%nat; 3%nat] [2%nat]).
  vm_compute. reflexivity.
Defined.

(** ** Strong updates that LVN rejects *)

Lemma performLvn_overwrite_cases block node ds st blk :
  graph_blocks st !! block = Some blk →
  performLvn_overwrite block node ds st
  = if negb (Offset.isUnknown (offset ds)) && negb (targetIsUnknown ds)
    then Ok (tt, mkMemorySSA (graph_nodes st)
                   (<[block := mkRWBBlock (getNodes blk)
                                 (DefinitionsMap.update (definitions blk)
                                    ds node)
                                 (preds blk)]> (graph_blocks st))
                   (_phis st))
    else Abort AssertionFailed.
Proof.
  intros Hb.
  unfold performLvn_overwrite, setDefinitions, modifyBlock, getBlock, assert.
  unfold mbind, M_bind, mret, M_ret, abort.
  destruct (Offset.isUnknown (offset ds)); simpl; [reflexivity | ].
  destruct (targetIsUnknown ds); simpl; [reflexivity | ].
  rewrite Hb. simpl. rewrite Hb. reflexivity.
Qed.

(** X20.  LVN rejects a strong update of an unknown offset or of unknown
    memory: on a node with such an overwrites entry [performLvn] stops on
    a failed assertion, before it looks at the defs and uses of the
    node. *)
Theorem performLvn_rejects_unknown_overwrite (block : BlockId)
    (blk : RWBBlock) (node : NodeId) (nd : RWNode) (ds : DefSite)
    (st : MemorySSATransformation) :
  graph_blocks st !! block = Some blk →
  graph_nodes st !! node = Some nd →
  ds ∈ overwrites nd →
  Offset.isUnknown (offset ds) = true ∨ targetIsUnknown ds = true →
  performLvn_node block node st = Abort AssertionFailed.
Proof.
  intros Hb Hn Hds Hbad.
  assert (∀ l s, is_Some (graph_blocks s !! block) → ds ∈ l →
            forM_ l (performLvn_overwrite block node) s
            = Abort AssertionFailed) as Hloop.
  { unfold forM_. induction l as [ | x rest IH]; intros s [b0 Hs] Hin;
      [inversion Hin | ].
    cbn [foldM]. unfold mbind, M_bind.
    rewrite (performLvn_overwrite_cases block node x s b0 Hs).
    destruct (negb (Offset.isUnknown (offset x))
              && negb (targetIsUnknown x)) eqn:Hx; [ | reflexivity].
    apply elem_of_cons in Hin as [-> | Hin].
    - destruct Hbad as [Hbad | Hbad]; rewrite Hbad in Hx;
        [discriminate | rewrite andb_false_r in Hx; discriminate].
    - apply IH; [ | exact Hin]. simpl.
      apply lookup_lt_is_Some_2. rewrite length_insert.
      eapply lookup_lt_Some, Hs. }
  unfold performLvn_node, mbind at 1, M_bind at 1, getNode. rewrite Hn.
  unfold mbind, M_bind. rewrite (Hloop (overwrites nd) st); [reflexivity | | exact Hds].
  exists blk. exact Hb.
Qed.

Lemma performLvn_rejects_unknown_overwrite_witness :
  performLvn_node 0%nat 2%nat
    (mkMemorySSA
       [ mkRWNode UNKNOWN None [] [] [] [] [];
         mkRWNode GENERIC None [] [] [] [] [];
         mkRWNode GENERIC (Some 0%nat)
           [mkDefSite 1%nat 0 4; mkDefSite 1%nat Offset.UNKNOWN 4]
           [] [] [] [] ]
       [ mkRWBBlock [2%nat] DefinitionsMap.empty [] ]
       [])
  = Abort AssertionFailed.
Proof.
  apply (performLvn_rejects_unknown_overwrite 0%nat
           (mkRWBBlock [2%nat] DefinitionsMap.empty []) 2%nat
           (mkRWNode GENERIC (Some 0%nat)
              [mkDefSite 1%nat 0 4; mkDefSite 1%nat Offset.UNKNOWN 4]
              [] [] [] [])
           (mkDefSite 1%nat Offset.UNKNOWN 4)).
  - reflexivity.
  - reflexivity.
  - right. left.
  - left. reflexivity.
Defined.

(** ** What the block walker finds *)

Lemma definesTarget_replace m k b t :
  DefinitionsMap.definesTarget (DefinitionsMap.replace m k b) t
  = DefinitionsMap.definesTarget m t || Nat.eqb k t.
Proof.
  unfold DefinitionsMap.definesTarget.
  induction m as [ | [k0 b0] rest IH]; simpl.
  - apply orb_false_r.
  - destruct (Nat.eqb_spec k0 k) as [-> | Hne]; simpl.
    + destruct (Nat.eqb k t), (existsb _ rest); reflexivity.
    + rewrite IH. apply orb_assoc.
Qed.

Lemma definesTarget_add m ds v t :
  DefinitionsMap.definesTarget (DefinitionsMap.add m ds v) t
  = DefinitionsMap.definesTarget m t || Nat.eqb (target ds) t.
Proof. unfold DefinitionsMap.add. apply definesTarget_replace. Qed.

Lemma definesTarget_add_set_true m ds vs t :
  DefinitionsMap.definesTarget m t = true →
  DefinitionsMap.definesTarget (DefinitionsMap.add_set m ds vs) t = true.
Proof.
  unfold DefinitionsMap.add_set. revert m.
  induction vs as [ | v rest IH]; intros m Hm; simpl; [exact Hm | ].
  apply IH. rewrite definesTarget_add, Hm. reflexivity.
Qed.

Lemma definesTarget_add_set_other m ds vs t :
  target ds ≠ t →
  DefinitionsMap.definesTarget (DefinitionsMap.add_set m ds vs) t
  = DefinitionsMap.definesTarget m t.
Proof.
  intros Hne. unfold DefinitionsMap.add_set. revert m.
  induction vs as [ | v rest IH]; intros m; simpl; [reflexivity | ].
  rewrite IH, definesTarget_add.
  destruct (Nat.eqb_spec (target ds) t); [contradiction | ].
  apply orb_false_r.
Qed.

(** The branch of [absorb_entry] for a target that is defined already. *)
Lemma absorb_defined_fold (k : NodeId) (P : DefinitionsMap.t → Prop) :
  (∀ m ds vs, target ds = k → P m → P (DefinitionsMap.add_set m ds vs)) →
  ∀ (entries : list (Interval * list NodeId)) defs0,
    P defs0 →
    P (fold_left
         (λ m (it2 : Interval * list NodeId),
            fold_left (λ m' undefInterv,
                         DefinitionsMap.add_set m'
                           (mkDefSite k (start undefInterv)
                              (len undefInterv))
                           (snd it2))
              (DefinitionsMap.undefinedIntervals m
                 (mkDefSite k (start (fst it2)) (len (fst it2))))
              m)
         entries defs0).
Proof.
  intros Hadd. induction entries as [ | it2 rest IH]; intros defs0 H0;
    simpl; [exact H0 | ].
  apply IH.
  generalize (DefinitionsMap.undefinedIntervals defs0
                (mkDefSite k (start (fst it2)) (len (fst it2)))).
  intros gaps. revert defs0 H0.
  induction gaps as [ | u gaps IHg]; intros defs0 H0; simpl; [exact H0 | ].
  apply IHg, Hadd; [reflexivity | exact H0].
Qed.

Lemma absorb_entry_defines acc it t :
  DefinitionsMap.definesTarget (fst acc) t = true →
  DefinitionsMap.definesTarget (fst (absorb_entry acc it)) t = true.
Proof.
  destruct acc as [defs0 found]. simpl. intros H.
  destruct (negb (DefinitionsMap.definesTarget defs0 (fst it))); simpl.
  - rewrite definesTarget_replace, H. reflexivity.
  - apply (absorb_defined_fold (fst it)
             (λ m, DefinitionsMap.definesTarget m t = true));
      [ | exact H].
    intros m ds vs _. apply definesTarget_add_set_true.
Qed.

Lemma absorb_entry_other acc it t :
  fst it ≠ t →
  DefinitionsMap.definesTarget (fst (absorb_entry acc it)) t
  = DefinitionsMap.definesTarget (fst acc) t.
Proof.
  destruct acc as [defs0 found]. simpl. intros Hne.
  destruct (negb (DefinitionsMap.definesTarget defs0 (fst it))); simpl.
  - rewrite definesTarget_replace.
    destruct (Nat.eqb_spec (fst it) t); [contradiction | ].
    apply orb_false_r.
  - apply (absorb_defined_fold (fst it)
             (λ m, DefinitionsMap.definesTarget m t
                   = DefinitionsMap.definesTarget defs0 t));
      [ | reflexivity].
    intros m ds vs Hds Hm. rewrite definesTarget_add_set_other; [exact Hm | ].
    congruence.
Qed.

Lemma absorb_entry_found_mono acc it : snd acc ⊆ snd (absorb_entry acc it).
Proof.
  destruct acc as [defs0 found]. simpl.
  destruct (negb (DefinitionsMap.definesTarget defs0 (fst it))); simpl;
    [ | reflexivity].
  intros x Hx. apply set_insert_all_elem. right. exact Hx.
Qed.

Lemma absorb_entries_found_mono entries :
  ∀ acc, snd acc ⊆ snd (fold_left absorb_entry entries acc).
Proof.
  induction entries as [ | it rest IH]; intros acc; simpl; [reflexivity | ].
  intros x Hx. apply IH, absorb_entry_found_mono, Hx.
Qed.

Lemma absorb_entries_all_defined (P : NodeId → Prop) entries :
  ∀ acc,
    (∀ t, P t → DefinitionsMap.definesTarget (fst acc) t = true) →
    Forall (λ it : NodeId * list (Interval * list NodeId), P (fst it))
      entries →
    snd (fold_left absorb_entry entries acc) = snd acc
    ∧ ∀ t, P t →
        DefinitionsMap.definesTarget
          (fst (fold_left absorb_entry entries acc)) t = true.
Proof.
  induction entries as [ | it rest IH]; intros acc Hacc Hall; simpl;
    [split; [reflexivity | exact Hacc] | ].
  apply List.Forall_cons_iff in Hall as [Hit Hrest].
  destruct (IH (absorb_entry acc it)) as [Hfound Hdefs];
    [ | exact Hrest | ].
  { intros t Ht. apply absorb_entry_defines, Hacc, Ht. }
  split; [ | exact Hdefs]. rewrite Hfound.
  specialize (Hacc (fst it) Hit).
  destruct acc as [defs0 found]. simpl in *.
  rewrite Hacc. reflexivity.
Qed.

(** X21.  The block walker takes definitions from a block only for the
    targets that the map it carries does not define yet: when every target
    written in the blocks has an entry in that map already, on whatever
    bytes, the walk adds nothing to the definitions found. *)
Theorem walk_ignores_defined_targets (bs : list RWBBlock) (fuel : nat)
    (defs0 : DefinitionsMap.t) (from : option BlockId)
    (acc acc' : list NodeId * list BlockId) :
  all_defined bs defs0 →
  findAllReachingDefinitions_walk bs fuel defs0 from acc = Ok acc' →
  fst acc' = fst acc.
Proof.
  revert defs0 from acc acc'.
  induction fuel as [ | fuel IH]; intros defs0 [b | ] acc acc' Hall H;
    simpl in H; try discriminate; try congruence.
  destruct (decide (b ∈ snd acc)); [congruence | ].
  unfold mbind, result_bind in H.
  destruct (bs !! b) as [blk | ] eqn:Hb; simpl in H; [ | discriminate].
  destruct (absorb_entries_all_defined
              (λ t, DefinitionsMap.definesTarget defs0 t = true)
              (definitions blk) (defs0, fst acc)) as [Hfound Hdefs].
  { auto. }
  { exact (proj1 (Forall_lookup _ _) Hall b blk Hb). }
  destruct (fold_left absorb_entry (definitions blk) (defs0, fst acc))
    as [defs1 foundDefs]. simpl in Hfound, Hdefs. subst foundDefs.
  assert (all_defined bs defs1) as Hall1.
  { eapply List.Forall_impl; [ | exact Hall]. intros blk' Hblk'.
    eapply List.Forall_impl; [ | exact Hblk']. intros it Hit.
    apply Hdefs, Hit. }
  destruct (getSinglePredecessor blk) as [singlePred | ].
  - apply (IH _ _ _ _ Hall1) in H. exact H.
  - assert (∀ ps a,
              fold_result
                (λ a0 I, findAllReachingDefinitions_walk bs fuel defs1 I a0)
                a ps = Ok acc' →
              fst acc' = fst a) as Hloop.
    { induction ps as [ | I rest IHps]; intros a Ha; simpl in Ha.
      - assert (acc' = a) as -> by congruence. reflexivity.
      - unfold mbind, result_bind in Ha.
        destruct (findAllReachingDefinitions_walk bs fuel defs1 I a)
          as [a1 | e | ] eqn:Hstep; try discriminate.
        rewrite (IHps a1 Ha). exact (IH _ _ _ _ Hall1 Hstep). }
    exact (Hloop _ _ H).
Qed.

Lemma walk_ignores_defined_targets_witness :
  fst ([], [0%nat; 1%nat; 2%nat]) = fst (([] : list NodeId), ([] : list BlockId)).
Proof.
  apply (walk_ignores_defined_targets (graph_blocks Cycle.graph) 7
           [(Cycle.t, [(mkInterval 8 4, [9%nat])])] (Some 2%nat)
           ([], []) ([], [0%nat; 1%nat; 2%nat])).
  - repeat constructor.
  - vm_compute. reflexivity.
Defined.

Lemma walk_found_mono bs fuel :
  ∀ defs0 from acc acc',
    findAllReachingDefinitions_walk bs fuel defs0 from acc = Ok acc' →
    fst acc ⊆ fst acc'.
Proof.
  induction fuel as [ | fuel IH]; intros defs0 [b | ] acc acc' H;
    simpl in H; try discriminate;
    try (assert (acc' = acc) as -> by congruence; reflexivity).
  destruct (decide (b ∈ snd acc));
    [assert (acc' = acc) as -> by congruence; reflexivity | ].
  unfold mbind, result_bind in H.
  destruct (bs !! b) as [blk | ] eqn:Hb; simpl in H; [ | discriminate].
  pose proof (absorb_entries_found_mono (definitions blk) (defs0, fst acc))
    as Hmono.
  destruct (fold_left absorb_entry (definitions blk) (defs0, fst acc))
    as [defs1 foundDefs]. simpl in Hmono.
  destruct (getSinglePredecessor blk) as [singlePred | ].
  - apply IH in H. simpl in H. intros x Hx. apply H, Hmono, Hx.
  - assert (∀ ps a,
              fold_result
                (λ a0 I, findAllReachingDefinitions_walk bs fuel defs1 I a0)
                a ps = Ok acc' →
              fst a ⊆ fst acc') as Hloop.
    { induction ps as [ | I rest IHps]; intros a Ha; simpl in Ha.
      - assert (acc' = a) as -> by congruence. reflexivity.
      - unfold mbind, result_bind in Ha.
        destruct (findAllReachingDefinitions_walk bs fuel defs1 I a)
          as [a1 | e | ] eqn:Hstep; try discriminate.
        intros x Hx. apply (IHps a1 Ha). exact (IH _ _ _ _ Hstep x Hx). }
    intros x Hx. apply (Hloop _ _ H). simpl. apply Hmono, Hx.
Qed.

Lemma absorb_entries_copy entries :
  ∀ acc it x,
    NoDup (map fst entries) → it ∈ entries →
    DefinitionsMap.definesTarget (fst acc) (fst it) = false →
    x ∈ concat (map snd (snd it)) →
    x ∈ snd (fold_left absorb_entry entries acc).
Proof.
  induction entries as [ | e rest IH]; intros acc it x Hnd Hit Hdef Hx;
    [inversion Hit | ].
  simpl in Hnd. apply list.NoDup_cons in Hnd as [Hfresh Hnd]. simpl.
  apply elem_of_cons in Hit as [<- | Hit].
  - apply absorb_entries_found_mono.
    destruct acc as [defs0 found]. simpl in *. rewrite Hdef. simpl.
    apply set_insert_all_elem. left. exact Hx.
  - apply (IH _ it x Hnd Hit); [ | exact Hx].
    rewrite absorb_entry_other; [exact Hdef | ].
    intros Heq. apply Hfresh. rewrite Heq.
    apply list_elem_of_fmap. exists it. split; [reflexivity | exact Hit].
Qed.

(** X22.  When the walker enters a block it has not visited, every node
    recorded in the block's definitions under a target that the carried
    map does not define yet is among the definitions found when the walk
    returns. *)
Theorem walk_finds_undefined_targets (bs : list RWBBlock) (fuel : nat)
    (defs0 : DefinitionsMap.t) (b : BlockId) (blk : RWBBlock)
    (acc acc' : list NodeId * list BlockId)
    (it : NodeId * list (Interval * list NodeId)) (x : NodeId) :
  bs !! b = Some blk → b ∉ snd acc →
  NoDup (map fst (definitions blk)) → it ∈ definitions blk →
  DefinitionsMap.definesTarget defs0 (fst it) = false →
  x ∈ concat (map snd (snd it)) →
  findAllReachingDefinitions_walk bs fuel defs0 (Some b) acc = Ok acc' →
  x ∈ fst acc'.
Proof.
  intros Hb Hfresh Hnd Hit Hdef Hx H.
  destruct fuel as [ | fuel]; simpl in H; [discriminate | ].
  destruct (decide (b ∈ snd acc)); [contradiction | ].
  unfold mbind, result_bind in H. rewrite Hb in H. simpl in H.
  pose proof (absorb_entries_copy (definitions blk) (defs0, fst acc) it x
                Hnd Hit Hdef Hx) as Hfound.
  destruct (fold_left absorb_entry (definitions blk) (defs0, fst acc))
    as [defs1 foundDefs]. simpl in Hfound.
  destruct (getSinglePredecessor blk) as [singlePred | ].
  - apply walk_found_mono in H. apply H. exact Hfound.
  - assert (∀ ps a,
              fold_result
                (λ a0 I, findAllReachingDefinitions_walk bs fuel defs1 I a0)
                a ps = Ok acc' →
              fst a ⊆ fst acc') as Hloop.
    { induction ps as [ | I rest IHps]; intros a Ha; simpl in Ha.
      - assert (acc' = a) as -> by congruence. reflexivity.
      - unfold mbind, result_bind in Ha.
        destruct (findAllReachingDefinitions_walk bs fuel defs1 I a)
          as [a1 | e | ] eqn:Hstep; try discriminate.
        intros y Hy. apply (IHps a1 Ha).
        exact (walk_found_mono _ _ _ _ _ _ Hstep y Hy). }
    apply (Hloop _ _ H). exact Hfound.
Qed.

Lemma walk_finds_undefined_targets_witness :
  4%nat ∈ fst ([4%nat], [0%nat; 1%nat; 2%nat]).
Proof.
  apply (walk_finds_undefined_targets (graph_blocks Cycle.graph) 7
           DefinitionsMap.empty 2%nat
           (mkRWBBlock [4%nat; 5%nat]
              [(Cycle.t, [(mkInterval 0 4, [4%nat])])] [Some 1%nat])
           ([], []) ([4%nat], [0%nat; 1%nat; 2%nat])
           (Cycle.t, [(mkInterval 0 4, [4%nat])]) 4%nat).
  - reflexivity.
  - simpl. apply not_elem_of_nil.
  - simpl. apply list.NoDup_singleton.
  - left.
  - reflexivity.
  - simpl. left.
  - vm_compute. reflexivity.
Defined.

(** ** The transformation keeps the graph well formed *)

Lemma triple_ret {A} (P : MemorySSATransformation → Prop)
    (Q : A → MemorySSATransformation → Prop) (a : A) :
  (∀ st, P st → Q a st) → triple P (mret a) Q.
Proof.
  intros H st a' st' HP Hrun. unfold mret, M_ret in Hrun.
  assert (a' = a ∧ st' = st) as [-> ->] by (split; congruence).
  apply H, HP.
Qed.

Lemma triple_bind {A B} (P : MemorySSATransformation → Prop)
    (R : A → MemorySSATransformation → Prop)
    (Q : B → MemorySSATransformation → Prop) (c : M A) (f : A → M B) :
  triple P c R → (∀ a, triple (R a) (f a) Q) → triple P (c ≫= f) Q.
Proof.
  intros Hc Hf st b st' HP Hrun. unfold mbind, M_bind in Hrun.
  destruct (c st) as [[a st1] | e | ] eqn:Hc1; try discriminate.
  exact (Hf a st1 b st' (Hc st a st1 HP Hc1) Hrun).
Qed.

Lemma triple_conseq {A} (P P' : MemorySSATransformation → Prop)
    (Q Q' : A → MemorySSATransformation → Prop) (c : M A) :
  triple P' c Q' → (∀ st, P st → P' st) → (∀ a st, Q' a st → Q a st) →
  triple P c Q.
Proof. intros Hc HP HQ st a st' Hst Hrun. eapply HQ, Hc; eauto. Qed.

Lemma triple_foldM {A B} (I : A → MemorySSATransformation → Prop)
    (f : A → B → M A) (l : list B) :
  (∀ a x, x ∈ l → triple (I a) (f a x) I) →
  ∀ a, triple (I a) (foldM f a l) I.
Proof.
  induction l as [ | x rest IH]; intros Hf a; simpl.
  - apply triple_ret. auto.
  - apply (triple_bind _ I).
    + apply Hf. left.
    + intros a'. apply IH. intros a'' y Hy. apply Hf. right. exact Hy.
Qed.

Lemma triple_forM_ {B} (I : MemorySSATransformation → Prop) (l : list B)
    (f : B → M unit) :
  (∀ x, x ∈ l → triple I (f x) (λ _, I)) → triple I (forM_ l f) (λ _, I).
Proof.
  intros Hf. unfold forM_.
  apply (triple_foldM (λ _ : unit, I) (λ _ x, f x) l).
  intros _ x Hx. apply Hf, Hx.
Qed.

Lemma triple_getBlock (P : MemorySSATransformation → Prop) (b : BlockId) :
  triple P (getBlock b) (λ blk st, P st ∧ graph_blocks st !! b = Some blk).
Proof.
  intros st blk st' HP Hrun. unfold getBlock in Hrun.
  destruct (graph_blocks st !! b) as [blk0 | ] eqn:Hb; [ | discriminate].
  assert (blk = blk0 ∧ st' = st) as [-> ->] by (split; congruence).
  split; assumption.
Qed.

Lemma triple_getNode (P : MemorySSATransformation → Prop) (n : NodeId) :
  triple P (getNode n) (λ nd st, P st ∧ graph_nodes st !! n = Some nd).
Proof.
  intros st nd st' HP Hrun. unfold getNode in Hrun.
  destruct (graph_nodes st !! n) as [nd0 | ] eqn:Hn; [ | discriminate].
  assert (nd = nd0 ∧ st' = st) as [-> ->] by (split; congruence).
  split; assumption.
Qed.

Lemma triple_assert (P : MemorySSATransformation → Prop) (c : bool) :
  triple P (assert c) (λ _, P).
Proof.
  destruct c; simpl; [apply triple_ret; auto | ].
  intros st a st' _ Hrun. discriminate.
Qed.

Lemma triple_abort {A} (P : MemorySSATransformation → Prop) (e : Failure)
    (Q : A → MemorySSATransformation → Prop) :
  triple P (abort e) Q.
Proof. intros st a st' _ Hrun. discriminate. Qed.

Lemma triple_out_of_fuel {A} (P : MemorySSATransformation → Prop)
    (Q : A → MemorySSATransformation → Prop) :
  triple P out_of_fuel Q.
Proof. intros st a st' _ Hrun. discriminate. Qed.

Section WellFormed.
Local Open Scope nat_scope.

Lemma well_formed_from_grow N st st' :
  well_formed_from N st → well_formed_from (length (graph_nodes st)) st' →
  well_formed_from N st'.
Proof. intros [_ H1] [H2 H3]. split; [exact H2 | lia]. Qed.

Lemma nodes_of_grow st st' l :
  nodes_of st l → length (graph_nodes st) ≤ length (graph_nodes st') →
  nodes_of st' l.
Proof. intros H Hle x Hx. specialize (H x Hx). lia. Qed.

Lemma nodes_of_app st l1 l2 :
  nodes_of st l1 → nodes_of st l2 → nodes_of st (l1 ++ l2).
Proof. intros H1 H2 x Hx. apply elem_of_app in Hx as [Hx | Hx]; auto. Qed.

Lemma nodes_of_get st b blk ds :
  well_formed st → graph_blocks st !! b = Some blk →
  nodes_of st (DefinitionsMap.get (definitions blk) ds).
Proof.
  intros (_ & _ & Hc) Hb x Hx. apply (Hc b blk x Hb). right.
  apply (get_values _ ds), Hx.
Qed.

Lemma well_formed_emplaced st b blk site :
  well_formed st → graph_blocks st !! b = Some blk →
  well_formed (emplaced st b blk site).
Proof.
  intros (Hc1 & Hc2 & Hc3) Hb. pose proof (lookup_lt_Some _ _ _ Hb) as Hlt.
  split; [ | split].
  - intros n nd m Hn Hm. rewrite emplaced_nodes_length.
    destruct (decide (n < length (graph_nodes st))) as [Hold | Hnew].
    + destruct (lookup_lt_is_Some_2 _ _ Hold) as [nd0 Hn0].
      destruct (emplaced_old_node st b blk site n nd0 Hn0)
        as (nd' & Hn' & _ & _ & _ & _ & _ & _).
      assert (nd' = nd) as -> by congruence.
      assert (defuse nd = defuse nd0) as Hd.
      { revert Hn. unfold emplaced. simpl.
        destruct (head (getNodes blk)) as [h | ].
        - rewrite lookup_app_l by (rewrite length_fmap; exact Hold).
          rewrite list_lookup_fmap, Hn0. simpl. intros [= <-]. reflexivity.
        - rewrite lookup_app_l by exact Hold. congruence. }
      rewrite Hd in Hm. specialize (Hc1 n nd0 m Hn0 Hm). lia.
    + pose proof (lookup_lt_Some _ _ _ Hn) as Hn'.
      rewrite emplaced_nodes_length in Hn'.
      assert (n = length (graph_nodes st)) as -> by lia.
      rewrite emplaced_new_node in Hn. injection Hn as <-.
      simpl in Hm. inversion Hm.
  - intros b0 blk0 p Hb0 Hp. simpl in *. rewrite length_insert.
    destruct (decide (b = b0)) as [-> | Hne].
    + rewrite (list_lookup_insert_eq _ _ _ Hlt) in Hb0.
      injection Hb0 as <-. simpl in Hp. exact (Hc2 b0 blk p Hb Hp).
    + rewrite list_lookup_insert_ne in Hb0 by exact Hne.
      exact (Hc2 b0 blk0 p Hb0 Hp).
  - intros b0 blk0 n Hb0 Hn. rewrite emplaced_nodes_length.
    simpl in Hb0. destruct (decide (b = b0)) as [-> | Hne].
    + rewrite (list_lookup_insert_eq _ _ _ Hlt) in Hb0.
      injection Hb0 as <-. simpl in Hn. destruct Hn as [Hn | Hn].
      * apply elem_of_cons in Hn as [-> | Hn]; [lia | ].
        specialize (Hc3 b0 blk n Hb (or_introl Hn)). lia.
      * apply values_update in Hn as [-> | Hn]; [lia | ].
        specialize (Hc3 b0 blk n Hb (or_intror Hn)). lia.
    + rewrite list_lookup_insert_ne in Hb0 by exact Hne.
      specialize (Hc3 b0 blk0 n Hb0 Hn). lia.
Qed.

Lemma wf_emplacePhi N b ds i :
  triple (well_formed_from N) (emplacePhi b ds i)
    (λ phi st', well_formed_from N st' ∧ nodes_of st' [phi]).
Proof.
  intros st phi st' [Hwf HN] Hrun. rewrite emplacePhi_cases in Hrun.
  destruct (graph_blocks st !! b) as [blk | ] eqn:Hb; [ | discriminate].
  simpl in Hrun. case_bool_decide; [ | discriminate].
  assert (phi = length (graph_nodes st)
          ∧ st' = emplaced st b blk
                    (mkDefSite (target ds) (start i) (len i)))
    as [-> ->] by (split; congruence).
  split; [split | ].
  - apply well_formed_emplaced; assumption.
  - rewrite emplaced_nodes_length. lia.
  - intros x Hx. apply list_elem_of_singleton in Hx as ->.
    rewrite emplaced_nodes_length. lia.
Qed.

Lemma wf_defuse_add N n found :
  triple (λ st, well_formed_from N st ∧ nodes_of st found)
    (defuse_add n found) (λ _, well_formed_from N).
Proof.
  intros st a st' [[(Hc1 & Hc2 & Hc3) HN] Hfound] Hrun.
  unfold defuse_add, modifyNode in Hrun.
  destruct (graph_nodes st !! n) as [nd | ] eqn:Hn; [ | discriminate].
  injection Hrun as _ <-. split; [ | simpl; rewrite length_insert; exact HN].
  split; [ | split; [exact Hc2 | ]].
  - intros k ndk m Hk Hm. simpl in *. rewrite length_insert.
    destruct (decide (n = k)) as [-> | Hne].
    + rewrite list_lookup_insert_eq in Hk
        by (eapply lookup_lt_Some, Hn).
      injection Hk as <-. simpl in Hm.
      apply set_insert_all_elem in Hm as [Hm | Hm];
        [apply Hfound, Hm | exact (Hc1 k nd m Hn Hm)].
    + rewrite list_lookup_insert_ne in Hk by exact Hne.
      exact (Hc1 k ndk m Hk Hm).
  - intros b blk m Hb Hm. simpl in *. rewrite length_insert.
    exact (Hc3 b blk m Hb Hm).
Qed.

Lemma wf_setDefinitions N b m :
  triple (λ st, well_formed_from N st
                ∧ nodes_of st (DefinitionsMap.values m))
    (setDefinitions b m) (λ _, well_formed_from N).
Proof.
  intros st a st' [[(Hc1 & Hc2 & Hc3) HN] Hm] Hrun.
  unfold setDefinitions, modifyBlock in Hrun.
  destruct (graph_blocks st !! b) as [blk | ] eqn:Hb; [ | discriminate].
  pose proof (lookup_lt_Some _ _ _ Hb) as Hlt.
  injection Hrun as _ <-. split; [ | exact HN].
  split; [exact Hc1 | split].
  - intros b0 blk0 p Hb0 Hp. simpl in *. rewrite length_insert.
    destruct (decide (b = b0)) as [-> | Hne].
    + rewrite (list_lookup_insert_eq _ _ _ Hlt) in Hb0.
      injection Hb0 as <-. simpl in Hp. exact (Hc2 b0 blk p Hb Hp).
    + rewrite list_lookup_insert_ne in Hb0 by exact Hne.
      exact (Hc2 b0 blk0 p Hb0 Hp).
  - intros b0 blk0 n Hb0 Hn. simpl in *.
    destruct (decide (b = b0)) as [-> | Hne].
    + rewrite (list_lookup_insert_eq _ _ _ Hlt) in Hb0.
      injection Hb0 as <-. simpl in Hn. destruct Hn as [Hn | Hn].
      * exact (Hc3 b0 blk n Hb (or_introl Hn)).
      * apply Hm, Hn.
    + rewrite list_lookup_insert_ne in Hb0 by exact Hne.
      exact (Hc3 b0 blk0 n Hb0 Hn).
Qed.

(** A loop that appends to the definitions it has found. *)
Lemma wf_foldM_append {B} (f : list NodeId → B → M (list NodeId))
    (l : list B) :
  (∀ defs0 x M,
     triple (well_formed_from M) (f defs0 x)
       (λ r st', well_formed_from M st'
                 ∧ ∃ new, r = defs0 ++ new ∧ nodes_of st' new)) →
  ∀ N defs0,
    triple (λ st, well_formed_from N st ∧ nodes_of st defs0)
      (foldM f defs0 l)
      (λ r st', well_formed_from N st' ∧ nodes_of st' r).
Proof.
  intros Hf N. induction l as [ | x rest IH]; intros defs0; simpl.
  - apply triple_ret. auto.
  - intros st r st' [HN Hdefs] Hrun. unfold mbind, M_bind in Hrun.
    destruct (f defs0 x st) as [[r1 st1] | e | ] eqn:Hstep;
      try discriminate.
    destruct (Hf defs0 x (length (graph_nodes st)) st r1 st1)
      as (Hwf1 & new & -> & Hnew);
      [split; [apply HN | reflexivity] | exact Hstep | ].
    apply (IH (defs0 ++ new) st1 r st'); [ | exact Hrun].
    split; [exact (well_formed_from_grow N st st1 HN Hwf1) | ].
    apply nodes_of_app; [ | exact Hnew].
    apply (nodes_of_grow st); [exact Hdefs | apply Hwf1].
Qed.

Lemma wf_findDefinitionsInBlock N block ds :
  triple (well_formed_from N) (findDefinitionsInBlock block ds)
    (λ r st', well_formed_from N st' ∧ nodes_of st' r).
Proof.
  unfold findDefinitionsInBlock.
  eapply triple_bind; [apply triple_getBlock | ]. intros blk.
  eapply triple_conseq.
  - apply (wf_foldM_append _ _) with (N := N).
    intros defs0 interval M.
    eapply triple_bind; [apply wf_emplacePhi | ].
    intros phi. apply triple_ret. intros st [HM Hphi].
    split; [exact HM | ]. exists [phi]. split; [reflexivity | exact Hphi].
  - intros st [HN Hb]. split; [exact HN | ].
    apply nodes_of_app; eapply nodes_of_get; try exact Hb; apply HN.
  - auto.
Qed.

Lemma wf_findDefinitions fuel :
  ∀ N block ds,
    triple (well_formed_from N) (findDefinitions fuel block ds)
      (λ r st', well_formed_from N st' ∧ nodes_of st' r).
Proof.
  induction fuel as [ | fuel IH]; intros N [b | ] ds; simpl;
    try apply triple_out_of_fuel;
    try (apply triple_ret; intros st HN; split; [exact HN | ];
         intros x Hx; inversion Hx).
  eapply triple_bind; [apply triple_getBlock | ]. intros blk.
  eapply triple_conseq; [ | | intros r st H; exact H].
  - apply (wf_foldM_append _ _) with (N := N).
    intros defs0 interval M. unfold findDefinitions_step.
    eapply triple_bind; [apply triple_getBlock | ]. intros blk'.
    destruct (getSinglePredecessor blk') as [pred | ].
    + eapply triple_bind.
      * eapply triple_conseq; [apply (IH M (Some pred) ds) | tauto | ].
        intros a st H. exact H.
      * intros pdefs. apply triple_ret. intros st [HM Hp].
        split; [exact HM | ]. exists pdefs. split; [reflexivity | exact Hp].
    + eapply triple_bind.
      * eapply triple_conseq; [apply (wf_emplacePhi M) | tauto | ].
        intros a st H. exact H.
      * intros phi. apply triple_ret. intros st [HM Hphi].
        split; [exact HM | ]. exists [phi]. split; [reflexivity | exact Hphi].
  - intros st [HN Hb]. split; [exact HN | ].
    apply nodes_of_app; eapply nodes_of_get; try exact Hb; apply HN.
Qed.

Lemma nodes_of_values st b blk :
  well_formed st → graph_blocks st !! b = Some blk →
  nodes_of st (DefinitionsMap.values (definitions blk)).
Proof. intros (_ & _ & Hc) Hb x Hx. apply (Hc b blk x Hb). right. exact Hx. Qed.

Lemma wf_performLvn_node N block node :
  node < N →
  triple (well_formed_from N) (performLvn_node block node)
    (λ _, well_formed_from N).
Proof.
  intros Hnode. unfold performLvn_node.
  eapply triple_bind; [apply triple_getNode | ]. intros nd.
  eapply triple_bind with (R := λ _, well_formed_from N).
  { eapply triple_conseq;
      [apply (triple_forM_ (well_formed_from N)) | tauto | auto].
    intros ds _. unfold performLvn_overwrite.
    eapply triple_bind; [apply triple_assert | ]. intros ?.
    eapply triple_bind; [apply triple_assert | ]. intros ?.
    eapply triple_bind; [apply triple_getBlock | ]. intros blk.
    eapply triple_conseq; [apply (wf_setDefinitions N) | | auto].
    intros st [HN Hb]. split; [exact HN | ].
    intros x Hx. apply values_update in Hx as [-> | Hx].
    - destruct HN as [_ HN]. lia.
    - eapply nodes_of_values; [apply HN | exact Hb | exact Hx]. }
  intros ?.
  eapply triple_bind with (R := λ _, well_formed_from N).
  { apply triple_forM_. intros ds _. unfold performLvn_def.
    destruct (targetIsUnknown ds).
    - eapply triple_bind; [apply triple_getBlock | ]. intros blk.
      eapply triple_conseq; [apply (wf_setDefinitions N) | | auto].
      intros st [HN Hb]. split; [exact HN | ].
      intros x Hx. apply values_add in Hx as [-> | Hx];
        [destruct HN as [_ HN]; lia | ].
      apply values_addAll in Hx as [-> | Hx];
        [destruct HN as [_ HN]; lia | ].
      eapply nodes_of_values; [apply HN | exact Hb | exact Hx].
    - eapply triple_bind; [apply (wf_findDefinitionsInBlock N) | ].
      intros found.
      eapply triple_bind; [apply (wf_defuse_add N) | ]. intros ?.
      eapply triple_bind; [apply triple_getBlock | ]. intros blk.
      eapply triple_conseq; [apply (wf_setDefinitions N) | | auto].
      intros st [HN Hb]. split; [exact HN | ].
      intros x Hx. apply values_add in Hx as [-> | Hx];
        [destruct HN as [_ HN]; lia | ].
      eapply nodes_of_values; [apply HN | exact Hb | exact Hx]. }
  intros ?. apply triple_forM_. intros ds _. unfold performLvn_use.
  eapply triple_bind; [apply (wf_findDefinitionsInBlock N) | ].
  intros found. apply wf_defuse_add.
Qed.

Lemma wf_performLvn_block N block :
  triple (well_formed_from N) (performLvn_block block)
    (λ _, well_formed_from N).
Proof.
  unfold performLvn_block.
  eapply triple_bind; [apply triple_getBlock | ]. intros blk.
  intros st r0 st' [HN Hb] Hrun.
  apply (well_formed_from_grow N st st' HN).
  apply (triple_forM_ (well_formed_from (length (graph_nodes st)))
           (getNodes blk) (performLvn_node block)) with (st := st) (a := r0);
    [ | split; [apply HN | reflexivity] | exact Hrun].
  intros node Hnode. apply wf_performLvn_node.
  destruct HN as [(_ & _ & Hc) _]. apply (Hc block blk node Hb). left.
  exact Hnode.
Qed.

Lemma wf_performLvn N :
  triple (well_formed_from N) performLvn (λ _, well_formed_from N).
Proof.
  intros st r0 st' HN Hrun. unfold performLvn in Hrun.
  apply (triple_forM_ (well_formed_from N)
           (seq 0 (length (graph_blocks st))) performLvn_block)
    with (st := st) (a := r0); [ | exact HN | exact Hrun].
  intros block _. apply wf_performLvn_block.
Qed.

Lemma wf_performGvn_pred N depth phi ds phis I :
  triple (well_formed_from N) (performGvn_pred depth phi ds phis I)
    (λ _, well_formed_from N).
Proof.
  unfold performGvn_pred.
  eapply triple_bind with (R := λ _, well_formed_from N).
  { intros st r0 st' HN Hrun. unfold phis_size in Hrun.
    assert (st' = st) as -> by congruence. exact HN. }
  intros old. eapply triple_bind; [apply (wf_findDefinitions depth N) | ].
  intros found. eapply triple_bind; [apply (wf_defuse_add N) | ].
  intros ?. eapply triple_bind with (R := λ _, well_formed_from N).
  { intros st r0 st' HN Hrun. unfold phis_from in Hrun.
    assert (st' = st) as -> by congruence. exact HN. }
  intros new. apply triple_ret. auto.
Qed.

Lemma wf_performGvn_loop N addr depth fuel :
  ∀ phis,
    triple (well_formed_from N) (performGvn_loop addr depth fuel phis)
      (λ _, well_formed_from N).
Proof.
  induction fuel as [ | fuel IH]; intros phis; simpl;
    destruct (pop_begin addr phis) as [[phi rest] | ];
    try apply triple_out_of_fuel; try (apply triple_ret; auto).
  eapply triple_bind with (R := λ _, well_formed_from N).
  { intros st r0 st' HN Hrun. unfold getNode in Hrun.
    destruct (graph_nodes st !! phi); [ | discriminate].
    assert (st' = st) as -> by congruence. exact HN. }
  intros nd. eapply triple_bind; [apply triple_assert | ]. intros ?.
  destruct (overwrites nd) as [ | ds others]; [apply triple_abort | ].
  destruct (getBBlock nd) as [block | ]; [ | apply triple_abort].
  eapply triple_bind with (R := λ _, well_formed_from N).
  { intros st r0 st' HN Hrun. unfold getBlock in Hrun.
    destruct (graph_blocks st !! block); [ | discriminate].
    assert (st' = st) as -> by congruence. exact HN. }
  intros blk. eapply triple_bind with (R := λ _, well_formed_from N);
    [ | intros phis'; apply IH].
  apply (triple_foldM (λ _ : list NodeId, well_formed_from N)).
  intros phis' I _. apply wf_performGvn_pred.
Qed.

End WellFormed.

(** X23.  LVN and GVN leave a well-formed graph well formed: when every
    pointer held by a defuse set, a list of predecessors, a list of nodes
    or a definitions map is a pointer to a node or a block of the graph
    before the run, the same holds after it; and a node that was ready to
    be queried (it exists and, if it reads unknown memory, lies in a block
    of the graph) is ready to be queried in the result. *)
Theorem run_keeps_well_formed (addr : NodeId → Z) (depth fuel : nat)
    (st st' : MemorySSATransformation) :
  well_formed st → run addr depth fuel st = Ok (tt, st') →
  well_formed st' ∧ ∀ use, query_ready st use → query_ready st' use.
Proof.
  intros Hwf Hrun.
  assert (triple (well_formed_from 0) (run addr depth fuel)
            (λ _, well_formed_from 0)) as Htriple.
  { unfold run. eapply triple_bind; [apply wf_performLvn | ].
    intros ?. intros s r0 s' Hs Hgvn. unfold performGvn in Hgvn.
    exact (wf_performGvn_loop 0 addr depth fuel _ s r0 s' Hs Hgvn). }
  assert (well_formed st') as Hwf'.
  { apply (Htriple st tt st'); [ | exact Hrun].
    split; [exact Hwf | apply Nat.le_0_l]. }
  split; [exact Hwf' | ].
  intros use (_ & nd & Hnd & Hblock). split; [exact Hwf' | ].
  destruct (run_extends addr depth fuel st tt st' Hrun)
    as [_ _ Hnodes Hlen _ _].
  destruct (Hnodes use nd Hnd) as (nd' & Hnd' & _ & Hb & _ & _ & Hu & _).
  exists nd'. split; [exact Hnd' | ].
  unfold usesUnknown. rewrite Hu, Hb, Hlen. exact Hblock.
Qed.

Lemma run_keeps_well_formed_witness :
  well_formed ForkRun.analysed
  ∧ ∀ use, query_ready Fork.graph use → query_ready ForkRun.analysed use.
Proof.
  apply (run_keeps_well_formed Fork.ascending 2 8 Fork.graph
           ForkRun.analysed).
  - split; [ | split].
    + intros n nd m Hn Hm.
      repeat (destruct n as [ | n];
              [injection Hn as <-; inversion Hm | ]).
      discriminate Hn.
    + intros b blk p Hb Hp.
      do 3 (destruct b as [ | b];
            [injection Hb as <-; simpl in Hp;
             first [ inversion Hp; fail
                   | apply list_elem_of_singleton in Hp;
                     injection Hp as ->; simpl; lia ] | ]).
      discriminate Hb.
    + intros b blk n Hb Hn.
      repeat (destruct b as [ | b];
              [injection Hb as <-; simpl in Hn; destruct Hn as [Hn | Hn];
               [apply list_elem_of_singleton in Hn as ->; simpl; lia
               | inversion Hn] | ]).
      discriminate Hb.
  - vm_compute. reflexivity.
Defined.

(** ** The bytes of a [DisjointIntervalSet] *)

Lemma covers_nil z : ¬ covers [] z.
Proof. intros (i & Hi & _). inversion Hi. Qed.

Lemma covers_cons x l z : covers (x :: l) z ↔ contains x z ∨ covers l z.
Proof.
  split.
  - intros (i & Hi & Hz). apply elem_of_cons in Hi as [-> | Hi];
      [left; exact Hz | right; exists i; split; assumption].
  - intros [Hz | (i & Hi & Hz)];
      [exists x; split; [left | exact Hz]
      | exists i; split; [right; exact Hi | exact Hz]].
Qed.

Lemma covers_app l1 l2 z : covers (l1 ++ l2) z ↔ covers l1 z ∨ covers l2 z.
Proof.
  induction l1 as [ | x rest IH]; simpl.
  - split; [auto | intros [H | H]; [destruct (covers_nil z H) | exact H]].
  - rewrite !covers_cons, IH. tauto.
Qed.

Lemma insert_loop_bytes (l : list Interval) :
  ∀ c, proper c → Forall proper l →
    let '(c', kept) := DisjointIntervalSet.insert_loop c l in
    proper c' ∧ Forall proper kept
    ∧ ∀ z, covers (kept ++ [c']) z ↔ covers l z ∨ contains c z.
Proof.
  induction l as [ | it rest IH]; intros c Hc Hl; simpl.
  - split; [exact Hc | ]. split; [constructor | ]. intros z.
    rewrite covers_cons. pose proof (covers_nil z). tauto.
  - apply List.Forall_cons_iff in Hl as [Hit Hrest].
    rewrite (unite_proper c it Hc Hit).
    destruct ((start it <=? start c + len c)
              && (start c <=? start it + len it)) eqn:Hu.
    + apply andb_true_iff in Hu as [Hu1 Hu2].
      apply Z.leb_le in Hu1, Hu2.
      set (c1 := mkInterval (Z.min (start c) (start it))
                   (Z.max (start c + len c) (start it + len it)
                    - Z.min (start c) (start it))).
      assert (proper c1) as Hc1.
      { destruct Hc as (A1 & A2 & A3), Hit as (B1 & B2 & B3).
        unfold proper, c1. simpl. lia. }
      assert (∀ z, contains c1 z ↔ contains c z ∨ contains it z) as Hbytes.
      { intros z. unfold contains, c1. simpl.
        destruct Hc as (A1 & A2 & A3), Hit as (B1 & B2 & B3). lia. }
      specialize (IH c1 Hc1 Hrest).
      destruct (DisjointIntervalSet.insert_loop c1 rest) as [c' kept].
      destruct IH as (P1 & P2 & P3).
      split; [exact P1 | ]. split; [exact P2 | ]. intros z.
      rewrite P3, covers_cons, Hbytes. tauto.
    + specialize (IH c Hc Hrest).
      destruct (DisjointIntervalSet.insert_loop c rest) as [c' kept].
      destruct IH as (P1 & P2 & P3).
      split; [exact P1 | ]. split; [constructor; assumption | ].
      intros z. simpl. rewrite !covers_cons, P3. tauto.
Qed.

Lemma insert_bytes (i : Interval) (l : list Interval) :
  proper i → Forall proper l →
  Forall proper (DisjointIntervalSet.insert i l)
  ∧ ∀ z, covers (DisjointIntervalSet.insert i l) z
         ↔ covers l z ∨ contains i z.
Proof.
  intros Hi Hl. unfold DisjointIntervalSet.insert.
  pose proof (insert_loop_bytes l i Hi Hl) as H.
  destruct (DisjointIntervalSet.insert_loop i l) as [c' kept].
  destruct H as (P1 & P2 & P3). split; [ | exact P3].
  apply Forall_app. split; [exact P2 | constructor; [exact P1 | constructor]].
Qed.

Lemma of_container_bytes (c : list Interval) :
  Forall proper c →
  Forall proper (DisjointIntervalSet.of_container c)
  ∧ ∀ z, covers (DisjointIntervalSet.of_container c) z ↔ covers c z.
Proof.
  intros Hc. unfold DisjointIntervalSet.of_container.
  assert (∀ s, Forall proper s →
            Forall proper (fold_left (λ s0 i, DisjointIntervalSet.insert i s0)
                             c s)
            ∧ ∀ z, covers (fold_left
                             (λ s0 i, DisjointIntervalSet.insert i s0) c s) z
                   ↔ covers s z ∨ covers c z) as Hfold.
  { induction Hc as [ | i rest Hi _ IH]; intros s Hs; simpl.
    - split; [exact Hs | ]. intros z. pose proof (covers_nil z). tauto.
    - destruct (insert_bytes i s Hi Hs) as [Hp Hb].
      destruct (IH _ Hp) as [Hp' Hb']. split; [exact Hp' | ].
      intros z. rewrite Hb', Hb, covers_cons. tauto. }
  destruct (Hfold [] (List.Forall_nil _)) as [Hp Hb].
  split; [exact Hp | ]. intros z. rewrite Hb.
  pose proof (covers_nil z). tauto.
Qed.

(** X24.  [insert] adds the bytes of the interval and no other byte: on
    known intervals of positive length with known ends, a byte lies in an
    interval of the set after the insertion exactly when it lay in one
    before or lies in the inserted interval; and the set built from a
    container has exactly the bytes of the container's intervals. *)
Theorem insert_adds_exactly (i : Interval) (l c : list Interval) (z : Z) :
  proper i → Forall proper l → Forall proper c →
  (covers (DisjointIntervalSet.insert i l) z
   ↔ covers l z ∨ contains i z)
  ∧ (covers (DisjointIntervalSet.of_container c) z ↔ covers c z).
Proof.
  intros Hi Hl Hc. split.
  - apply (insert_bytes i l Hi Hl).
  - apply (of_container_bytes c Hc).
Qed.

Lemma insert_adds_exactly_witness :
  (covers (DisjointIntervalSet.insert (mkInterval 4 4)
             [mkInterval 0 4; mkInterval 10 2]) 9
   ↔ covers [mkInterval 0 4; mkInterval 10 2] 9
     ∨ contains (mkInterval 4 4) 9)
  ∧ (covers (DisjointIntervalSet.of_container
               [mkInterval 0 4; mkInterval 10 2; mkInterval 4 4]) 9
     ↔ covers [mkInterval 0 4; mkInterval 10 2; mkInterval 4 4] 9).
Proof.
  apply (insert_adds_exactly (mkInterval 4 4)
           [mkInterval 0 4; mkInterval 10 2]
           [mkInterval 0 4; mkInterval 10 2; mkInterval 4 4] 9).
  - unfold proper, Offset.UNKNOWN. simpl. lia.
  - repeat constructor; simpl; lia.
  - repeat constructor; simpl; lia.
Defined.

Section CollectSound.
Context {V : Type}.

(** X25.  The flag of [collect] is sound: on known intervals of positive
    length with known ends, when [collect] reports the interval covered,
    every byte of the interval lies in one of the intervals given as
    covered or in the key of a bucket that overlaps the interval. *)
Theorem collect_covered_is_sound (q : Interval) (covered : list Interval)
    (buckets : list (Interval * V)) (z : Z) :
  proper q → Forall proper covered →
  Forall (λ kv : Interval * V, proper (fst kv)) buckets →
  snd (IntervalMap.collect q covered buckets) = true →
  contains q z →
  covers covered z
  ∨ ∃ kv, kv ∈ buckets ∧ IntervalOps.overlaps (fst kv) q = true
          ∧ contains (fst kv) z.
Proof.
  intros Hq Hcov Hkeys Hflag Hz.
  set (sound := λ st : list V * list Interval * bool,
         Forall proper (snd (fst st))
         ∧ (snd st = true → IntervalMap.isCovered q (snd (fst st)) = true)
         ∧ ∀ y, covers (snd (fst st)) y →
             covers covered y
             ∨ ∃ kv, kv ∈ buckets
                     ∧ IntervalOps.overlaps (fst kv) q = true
                     ∧ contains (fst kv) y).
  assert (∀ l st, (∀ b, b ∈ l → b ∈ buckets) → sound st →
            sound (fold_left (IntervalMap.collect_step q) l st)) as Hfold.
  { induction l as [ | b rest IH]; intros st Hl Hst; simpl; [exact Hst | ].
    apply IH; [intros b' Hb'; apply Hl; right; exact Hb' | ].
    assert (b ∈ buckets) as Hb by (apply Hl; left).
    assert (proper (fst b)) as Hpb.
    { apply list_elem_of_In in Hb.
      exact (proj1 (List.Forall_forall _ _) Hkeys b Hb). }
    destruct st as [[result intervals] c].
    destruct Hst as (S1 & S2 & S3). simpl in S1, S2, S3.
    unfold IntervalMap.collect_step.
    rewrite (proper_known q Hq), (proper_known _ Hpb). cbn [orb].
    destruct (IntervalOps.overlaps (fst b) q) eqn:Ho; cbn [andb];
      [ | split; [exact S1 | split; [exact S2 | exact S3]]].
    destruct (negb (IntervalMap.isCovered (fst b) intervals));
      [ | split; [exact S1 | split; [exact S2 | exact S3]]].
    destruct (insert_bytes (fst b) intervals Hpb S1) as [Hp Hbytes].
    split; [exact Hp | ]. split; [auto | ]. cbn [fst snd].
    intros y Hy. apply Hbytes in Hy as [Hy | Hy]; [apply S3, Hy | right].
    exists b. split; [exact Hb | ]. split; [exact Ho | exact Hy]. }
  destruct (of_container_bytes covered Hcov) as [Hp0 Hb0].
  assert (sound ([], DisjointIntervalSet.of_container covered, false))
    as Hinit.
  { split; [exact Hp0 | ]. split; [discriminate | ].
    cbn [fst snd]. intros y Hy. left. apply Hb0, Hy. }
  specialize (Hfold (rev buckets) _
                (λ b Hb, proj2 (list_elem_of_In _ _)
                           (proj2 (in_rev _ _)
                              (proj1 (list_elem_of_In _ _) Hb)))
                Hinit).
  unfold IntervalMap.collect in Hflag.
  destruct (fold_left (IntervalMap.collect_step q) (rev buckets)
              ([], DisjointIntervalSet.of_container covered, false))
    as [[result intervals] c].
  destruct Hfold as (S1 & S2 & S3). simpl in *.
  apply S3. apply S2 in Hflag.
  apply (isCovered_proper q intervals Hq S1) in Hflag as (e & He & Hin).
  exists e. split; [exact He | ]. unfold contains, inside in *. lia.
Qed.

End CollectSound.

Lemma collect_covered_is_sound_witness :
  covers [] 5
  ∨ ∃ kv, kv ∈ [(mkInterval 0 4, 1%nat); (mkInterval 4 4, 2%nat)]
          ∧ IntervalOps.overlaps (fst kv) (mkInterval 0 8) = true
          ∧ contains (fst kv) 5.
Proof.
  apply (collect_covered_is_sound (mkInterval 0 8) []
           [(mkInterval 0 4, 1%nat); (mkInterval 4 4, 2%nat)] 5).
  - unfold proper, Offset.UNKNOWN. simpl. lia.
  - constructor.
  - repeat constructor; simpl; lia.
  - reflexivity.
  - unfold contains. simpl. lia.
Defined.

Lemma insert_covered_mono (i q : Interval) (l : list Interval) :
  proper i → Forall proper l → proper q →
  IntervalMap.isCovered q l = true ∨ inside q i →
  IntervalMap.isCovered q (DisjointIntervalSet.insert i l) = true.
Proof.
  intros Hi Hl Hq H.
  destruct (insert_bytes i l Hi Hl) as [Hl' _].
  apply (isCovered_proper q _ Hq Hl').
  pose proof (insert_loop_proper l i Hi Hl) as Hloop.
  unfold DisjointIntervalSet.insert.
  destruct (DisjointIntervalSet.insert_loop i l) as [c' kept].
  destruct Hloop as (_ & Hic & _ & Hkept & _).
  destruct H as [H | H].
  - apply (isCovered_proper q l Hq Hl) in H as (e & He & Hqe).
    destruct (Hkept e He) as [Hk | Hec].
    + exists e. split; [apply elem_of_app; left; exact Hk | exact Hqe].
    + exists c'. split; [apply elem_of_app; right; left | ].
      exact (inside_trans _ _ _ Hqe Hec).
  - exists c'. split; [apply elem_of_app; right; left | ].
    exact (inside_trans _ _ _ H Hic).
Qed.

Section CollectComplete.
Context {V : Type}.

(** X26.  Without intervals given as covered, the flag of [collect] is
    complete for single buckets: on known intervals of positive length
    with known ends, when the key of some bucket contains the interval,
    [collect] reports the interval covered. *)
Theorem collect_reports_covered (q k : Interval) (v : V)
    (buckets : list (Interval * V)) :
  proper q →
  Forall (λ kv : Interval * V, proper (fst kv)) buckets →
  (k, v) ∈ buckets → IntervalOps.isSubsetOf q k = true →
  snd (IntervalMap.collect q [] buckets) = true.
Proof.
  intros Hq Hkeys Hin Hsub.
  assert (proper k) as Hk.
  { apply list_elem_of_In in Hin.
    exact (proj1 (List.Forall_forall _ _) Hkeys (k, v) Hin). }
  apply (isSubsetOf_proper q k Hq Hk) in Hsub.
  set (inv := λ st : list V * list Interval * bool,
         Forall proper (snd (fst st))
         ∧ snd st = match fst (fst st) with
                    | [] => false
                    | _ :: _ => IntervalMap.isCovered q (snd (fst st))
                    end
         ∧ (fst (fst st) = [] → snd (fst st) = [])).
  assert (∀ l st, inv st →
            Forall (λ kv : Interval * V, proper (fst kv)) l →
            (k, v) ∈ l ∨ IntervalMap.isCovered q (snd (fst st)) = true →
            snd (fold_left (IntervalMap.collect_step q) l st) = true)
    as Hfold.
  { induction l as [ | b rest IH]; intros [[result intervals] c]
      (I1 & I2 & I3) Hl Hcase; simpl in I1, I2, I3.
    - destruct Hcase as [Hnil | Hcov]; [inversion Hnil | ].
      simpl in *. destruct result as [ | r result].
      + rewrite (I3 eq_refl) in Hcov. unfold IntervalMap.isCovered in Hcov.
        rewrite (proper_known q Hq) in Hcov. discriminate.
      + rewrite I2. exact Hcov.
    - apply List.Forall_cons_iff in Hl as [Hpb Hrest].
      cbn [fold_left]. unfold IntervalMap.collect_step at 2.
      rewrite (proper_known q Hq), (proper_known _ Hpb). cbn [orb].
      assert (inv (result ++ [snd b],
                   DisjointIntervalSet.insert (fst b) intervals,
                   IntervalMap.isCovered q
                     (DisjointIntervalSet.insert (fst b) intervals)))
        as Htaken.
      { split; [apply (insert_bytes (fst b) intervals Hpb I1) | ].
        split; [destruct result; reflexivity | ].
        cbn [fst snd]. intros Habs. destruct result; discriminate. }
      assert (inv (result, intervals, c)) as Hsame
        by (split; [exact I1 | split; [exact I2 | exact I3]]).
      destruct Hcase as [Hhere | Hcov]; cbn [fst snd] in *.
      + apply elem_of_cons in Hhere as [<- | Hrest'].
        * cbn [fst snd] in *.
          assert (IntervalOps.overlaps k q = true) as ->.
          { apply (overlaps_proper k q Hk Hq).
            destruct Hq as (Q1 & Q2 & Q3). unfold inside in Hsub. lia. }
          cbn [andb].
          destruct (IntervalMap.isCovered k intervals) eqn:Hkc; cbn [negb].
          -- apply (IH _ Hsame Hrest). right. cbn [fst snd].
             apply (isCovered_proper k intervals Hk I1) in Hkc
               as (e & He & Hke).
             apply (isCovered_proper q intervals Hq I1).
             exists e. split; [exact He | ].
             exact (inside_trans _ _ _ Hsub Hke).
          -- apply (IH _ Htaken Hrest). right. cbn [fst snd].
             apply insert_covered_mono; auto.
        * destruct (IntervalOps.overlaps (fst b) q
                    && negb (IntervalMap.isCovered (fst b) intervals)).
          -- apply (IH _ Htaken Hrest). left. exact Hrest'.
          -- apply (IH _ Hsame Hrest). left. exact Hrest'.
      + destruct (IntervalOps.overlaps (fst b) q
                  && negb (IntervalMap.isCovered (fst b) intervals)).
        * apply (IH _ Htaken Hrest). right. cbn [fst snd].
          apply insert_covered_mono; auto.
        * apply (IH _ Hsame Hrest). right. exact Hcov. }
  unfold IntervalMap.collect. apply Hfold.
  - split; [constructor | ]. split; reflexivity.
  - apply List.Forall_forall. intros b Hb. apply in_rev in Hb.
    exact (proj1 (List.Forall_forall _ _) Hkeys b Hb).
  - left. apply list_elem_of_In, in_rev. rewrite rev_involutive.
    apply list_elem_of_In, Hin.
Qed.

End CollectComplete.

Lemma collect_reports_covered_witness :
  snd (IntervalMap.collect (mkInterval 2 2) []
         [(mkInterval 0 8, 1%nat); (mkInterval 1 2, 2%nat)]) = true.
Proof.
  apply (collect_reports_covered (mkInterval 2 2) (mkInterval 0 8) 1%nat
           [(mkInterval 0 8, 1%nat); (mkInterval 1 2, 2%nat)]).
  - unfold proper, Offset.UNKNOWN. simpl. lia.
  - repeat constructor; simpl; lia.
  - left.
  - reflexivity.
Defined.

(** ** The offsets stay values of the offset type

    The theorems on the strong update and on the uncovered intervals ask
    that the offsets of the def-site and of the keys are values of the
    offset type.  A graph whose def-sites are such values keeps them, and
    gets no other key, through LVN and GVN. *)

Lemma find_replace_ne (m : DefinitionsMap.t) (tgt tgt' : NodeId)
    (b : list (Interval * list NodeId)) :
  tgt ≠ tgt' →
  DefinitionsMap.find (DefinitionsMap.replace m tgt b) tgt'
  = DefinitionsMap.find m tgt'.
Proof.
  intros Hne. induction m as [ | [k b0] rest IH]; simpl.
  - destruct (Nat.eqb_spec tgt tgt'); [contradiction | reflexivity].
  - destruct (Nat.eqb_spec k tgt) as [-> | Hk]; simpl.
    + destruct (Nat.eqb_spec tgt tgt'); [contradiction | reflexivity].
    + destruct (Nat.eqb_spec k tgt'); [reflexivity | exact IH].
Qed.

Lemma valid_map_replace (m : DefinitionsMap.t) (tgt : NodeId)
    (b : list (Interval * list NodeId)) :
  valid_map m →
  Forall (λ kv : Interval * list NodeId, valid_interval (fst kv)) b →
  valid_map (DefinitionsMap.replace m tgt b).
Proof.
  intros Hm Hb tgt'. unfold valid_keys.
  destruct (decide (tgt = tgt')) as [<- | Hne].
  - rewrite find_replace. exact Hb.
  - rewrite (find_replace_ne _ _ _ _ Hne). apply Hm.
Qed.

Lemma valid_map_update (m : DefinitionsMap.t) (ds : DefSite) (v : NodeId) :
  valid_site ds → valid_map m → valid_map (DefinitionsMap.update m ds v).
Proof.
  intros Hv Hm.
  pose proof (valid_keys_update m ds v Hv (Hm (target ds))) as H.
  unfold valid_keys, DefinitionsMap.update in H. rewrite find_replace in H.
  unfold DefinitionsMap.update. apply valid_map_replace; assumption.
Qed.

Lemma valid_map_add (m : DefinitionsMap.t) (ds : DefSite) (v : NodeId) :
  valid_site ds → valid_map m → valid_map (DefinitionsMap.add m ds v).
Proof.
  intros Hv Hm. unfold DefinitionsMap.add.
  apply valid_map_replace; [exact Hm | ].
  destruct (undefinedIntervals_spec m ds Hv (Hm (target ds)))
    as (Hgaps & _ & _).
  assert (∀ gaps acc,
            Forall (λ q, valid_interval q
                         ∧ IntervalOps.isUnknown q = false) gaps →
            Forall (λ kv : Interval * list NodeId, valid_interval (fst kv))
              acc →
            Forall (λ kv : Interval * list NodeId, valid_interval (fst kv))
              (fold_left (λ acc gap, IntervalMap.add gap [v] acc) gaps acc))
    as Hfold.
  { induction gaps as [ | gap gaps IH]; intros acc Hg Hacc; simpl;
      [exact Hacc | ].
    apply List.Forall_cons_iff in Hg as [[Hgap _] Hg].
    apply IH; [exact Hg | ]. unfold IntervalMap.add.
    apply Forall_app. split; [exact Hacc | ].
    constructor; [exact Hgap | constructor]. }
  apply Hfold; [exact Hgaps | ].
  apply List.Forall_map.
  eapply List.Forall_impl; [ | exact (Hm (target ds))].
  intros kv Hkv.
  destruct (IntervalMap.hits (DefinitionsMap.getInterval ds) (fst kv));
    exact Hkv.
Qed.

Lemma find_addAll (m : DefinitionsMap.t) (v : NodeId) (tgt : NodeId) :
  DefinitionsMap.find (DefinitionsMap.addAll m v) tgt
  = map (λ kv : Interval * list NodeId, (fst kv, set_insert v (snd kv)))
      (DefinitionsMap.find m tgt).
Proof.
  induction m as [ | [k b] rest IH]; simpl; [reflexivity | ].
  destruct (Nat.eqb k tgt); [reflexivity | exact IH].
Qed.

Lemma valid_map_addAll (m : DefinitionsMap.t) (v : NodeId) :
  valid_map m → valid_map (DefinitionsMap.addAll m v).
Proof.
  intros Hm tgt. unfold valid_keys. rewrite find_addAll.
  apply List.Forall_map.
  eapply List.Forall_impl; [ | exact (Hm tgt)].
  intros kv Hkv. exact Hkv.
Qed.

Lemma valid_offsets_emplaced st b blk site :
  valid_offsets st → graph_blocks st !! b = Some blk → valid_site site →
  valid_offsets (emplaced st b blk site).
Proof.
  intros [Hn Hb] Hblk Hsite. unfold emplaced, valid_offsets. simpl. split.
  - apply Forall_app. split.
    + destruct (head (getNodes blk)); [ | exact Hn].
      apply Forall_fmap. eapply List.Forall_impl; [ | exact Hn].
      intros nd Hnd. exact Hnd.
    + constructor; [ | constructor]. unfold valid_node, phi_node. simpl.
      split; [constructor; [exact Hsite | constructor] | ].
      split; constructor.
  - apply Forall_insert; [exact Hb | ]. simpl.
    apply valid_map_update; [exact Hsite | ].
    exact (Forall_lookup_1 _ _ _ _ Hb Hblk).
Qed.

Lemma triple_pure {A} (φ : Prop) (P : MemorySSATransformation → Prop)
    (c : M A) (Q : A → MemorySSATransformation → Prop) :
  (φ → triple P c Q) → triple (λ st, P st ∧ φ) c Q.
Proof. intros H st a st' [HP Hφ]. apply (H Hφ), HP. Qed.

Lemma vo_getNode (n : NodeId) :
  triple valid_offsets (getNode n)
    (λ nd st, valid_offsets st ∧ valid_node nd).
Proof.
  intros st nd st' Hst Hrun. unfold getNode in Hrun.
  destruct (graph_nodes st !! n) as [nd0 | ] eqn:Hn; [ | discriminate].
  assert (nd = nd0 ∧ st' = st) as [-> ->] by (split; congruence).
  split; [exact Hst | ]. exact (Forall_lookup_1 _ _ _ _ (proj1 Hst) Hn).
Qed.

Lemma vo_getBlock (b : BlockId) :
  triple valid_offsets (getBlock b)
    (λ blk st, valid_offsets st ∧ valid_map (definitions blk)).
Proof.
  intros st blk st' Hst Hrun. unfold getBlock in Hrun.
  destruct (graph_blocks st !! b) as [blk0 | ] eqn:Hb; [ | discriminate].
  assert (blk = blk0 ∧ st' = st) as [-> ->] by (split; congruence).
  split; [exact Hst | ]. exact (Forall_lookup_1 _ _ _ _ (proj2 Hst) Hb).
Qed.

Lemma vo_emplacePhi (b : BlockId) (ds : DefSite) (i : Interval) :
  valid_interval i →
  triple valid_offsets (emplacePhi b ds i) (λ _, valid_offsets).
Proof.
  intros Hi st phi st' Hst Hrun. rewrite emplacePhi_cases in Hrun.
  destruct (graph_blocks st !! b) as [blk | ] eqn:Hb; [ | discriminate].
  simpl in Hrun. case_bool_decide; [ | discriminate].
  assert (st' = emplaced st b blk
                  (mkDefSite (target ds) (start i) (len i)))
    as -> by congruence.
  apply valid_offsets_emplaced; [exact Hst | exact Hb | exact Hi].
Qed.

Lemma vo_defuse_add (n : NodeId) (found : list NodeId) :
  triple valid_offsets (defuse_add n found) (λ _, valid_offsets).
Proof.
  intros st r st' [Hn Hb] Hrun. unfold defuse_add, modifyNode in Hrun.
  destruct (graph_nodes st !! n) as [nd | ] eqn:Hnd; [ | discriminate].
  injection Hrun as _ <-. split; simpl; [ | exact Hb].
  apply Forall_insert; [exact Hn | ].
  exact (Forall_lookup_1 _ _ _ _ Hn Hnd).
Qed.

Lemma vo_setDefinitions (b : BlockId) (m : DefinitionsMap.t) :
  valid_map m →
  triple valid_offsets (setDefinitions b m) (λ _, valid_offsets).
Proof.
  intros Hm st r st' [Hn Hb] Hrun.
  unfold setDefinitions, modifyBlock in Hrun.
  destruct (graph_blocks st !! b) as [blk | ] eqn:Hblk; [ | discriminate].
  injection Hrun as _ <-. split; simpl; [exact Hn | ].
  apply Forall_insert; [exact Hb | exact Hm].
Qed.

Lemma vo_uncovered (m : DefinitionsMap.t) (ds : DefSite) (i : Interval) :
  valid_site ds → valid_map m →
  i ∈ DefinitionsMap.undefinedIntervals m ds → valid_interval i.
Proof.
  intros Hds Hm Hi.
  destruct (undefinedIntervals_spec m ds Hds (Hm (target ds)))
    as (Hgaps & _ & _).
  apply list_elem_of_In in Hi.
  exact (proj1 (proj1 (List.Forall_forall _ _) Hgaps i Hi)).
Qed.

Lemma vo_findDefinitionsInBlock (block : BlockId) (ds : DefSite) :
  valid_site ds →
  triple valid_offsets (findDefinitionsInBlock block ds)
    (λ _, valid_offsets).
Proof.
  intros Hds. unfold findDefinitionsInBlock.
  eapply triple_bind; [apply vo_getBlock | ]. intros blk.
  apply triple_pure. intros Hm.
  apply (triple_foldM (λ _ : list NodeId, valid_offsets)).
  intros defs0 i Hi.
  eapply triple_bind;
    [apply vo_emplacePhi, (vo_uncovered _ ds i Hds Hm Hi) | ].
  intros phi. apply triple_ret. auto.
Qed.

Lemma vo_findDefinitions (fuel : nat) :
  ∀ block ds,
    valid_site ds →
    triple valid_offsets (findDefinitions fuel block ds)
      (λ _, valid_offsets).
Proof.
  induction fuel as [ | fuel IH]; intros [b | ] ds Hds; simpl;
    try apply triple_out_of_fuel; try (apply triple_ret; auto).
  eapply triple_bind; [apply vo_getBlock | ]. intros blk.
  apply triple_pure. intros Hm.
  apply (triple_foldM (λ _ : list NodeId, valid_offsets)).
  intros defs0 i Hi. unfold findDefinitions_step.
  eapply triple_bind; [apply triple_getBlock | ]. intros blk'.
  eapply triple_conseq with (P' := valid_offsets)
                            (Q' := λ _, valid_offsets);
    [ | tauto | auto].
  destruct (getSinglePredecessor blk') as [pred | ].
  - eapply triple_bind; [apply (IH (Some pred) ds Hds) | ].
    intros pdefs. apply triple_ret. auto.
  - eapply triple_bind;
      [apply vo_emplacePhi, (vo_uncovered _ ds i Hds Hm Hi) | ].
    intros phi. apply triple_ret. auto.
Qed.

Lemma vo_performLvn_node (block : BlockId) (node : NodeId) :
  triple valid_offsets (performLvn_node block node) (λ _, valid_offsets).
Proof.
  unfold performLvn_node.
  eapply triple_bind; [apply vo_getNode | ]. intros nd.
  apply triple_pure. intros (Hover & Hdefs & Huses).
  eapply triple_bind with (R := λ _, valid_offsets).
  { apply triple_forM_. intros ds Hds. unfold performLvn_overwrite.
    apply list_elem_of_In in Hds.
    pose proof (proj1 (List.Forall_forall _ _) Hover ds Hds) as Hv.
    eapply triple_bind; [apply triple_assert | ]. intros ?.
    eapply triple_bind; [apply triple_assert | ]. intros ?.
    eapply triple_bind; [apply vo_getBlock | ]. intros blk.
    apply triple_pure. intros Hm.
    apply vo_setDefinitions, valid_map_update; assumption. }
  intros ?.
  eapply triple_bind with (R := λ _, valid_offsets).
  { apply triple_forM_. intros ds Hds. unfold performLvn_def.
    apply list_elem_of_In in Hds.
    pose proof (proj1 (List.Forall_forall _ _) Hdefs ds Hds) as Hv.
    destruct (targetIsUnknown ds).
    - eapply triple_bind; [apply vo_getBlock | ]. intros blk.
      apply triple_pure. intros Hm.
      apply vo_setDefinitions, valid_map_add;
        [ | apply valid_map_addAll, Hm].
      unfold valid_site, is_offset, Offset.UNKNOWN. simpl. lia.
    - eapply triple_bind; [apply (vo_findDefinitionsInBlock _ _ Hv) | ].
      intros found. eapply triple_bind; [apply vo_defuse_add | ].
      intros ?. eapply triple_bind; [apply vo_getBlock | ]. intros blk.
      apply triple_pure. intros Hm.
      apply vo_setDefinitions, valid_map_add; assumption. }
  intros ?. apply triple_forM_. intros ds Hds. unfold performLvn_use.
  apply list_elem_of_In in Hds.
  pose proof (proj1 (List.Forall_forall _ _) Huses ds Hds) as Hv.
  eapply triple_bind; [apply (vo_findDefinitionsInBlock _ _ Hv) | ].
  intros found. apply vo_defuse_add.
Qed.

Lemma vo_performLvn :
  triple valid_offsets performLvn (λ _, valid_offsets).
Proof.
  intros st r0 st' Hst Hrun. unfold performLvn in Hrun.
  apply (triple_forM_ valid_offsets
           (seq 0 (length (graph_blocks st))) performLvn_block)
    with (st := st) (a := r0); [ | exact Hst | exact Hrun].
  intros block _. unfold performLvn_block.
  eapply triple_bind; [apply triple_getBlock | ]. intros blk.
  eapply triple_conseq with (P' := valid_offsets)
                            (Q' := λ _, valid_offsets);
    [ | tauto | auto].
  apply triple_forM_. intros node _. apply vo_performLvn_node.
Qed.

Lemma vo_performGvn_pred depth phi ds phis I :
  valid_site ds →
  triple valid_offsets (performGvn_pred depth phi ds phis I)
    (λ _, valid_offsets).
Proof.
  intros Hds. unfold performGvn_pred.
  eapply triple_bind with (R := λ _, valid_offsets).
  { intros st r0 st' Hst Hrun. unfold phis_size in Hrun.
    assert (st' = st) as -> by congruence. exact Hst. }
  intros old. eapply triple_bind; [apply (vo_findDefinitions depth _ _ Hds) | ].
  intros found. eapply triple_bind; [apply vo_defuse_add | ].
  intros ?. eapply triple_bind with (R := λ _, valid_offsets).
  { intros st r0 st' Hst Hrun. unfold phis_from in Hrun.
    assert (st' = st) as -> by congruence. exact Hst. }
  intros new. apply triple_ret. auto.
Qed.

Lemma vo_performGvn_loop addr depth fuel :
  ∀ phis,
    triple valid_offsets (performGvn_loop addr depth fuel phis)
      (λ _, valid_offsets).
Proof.
  induction fuel as [ | fuel IH]; intros phis; simpl;
    destruct (pop_begin addr phis) as [[phi rest] | ];
    try apply triple_out_of_fuel; try (apply triple_ret; auto).
  eapply triple_bind; [apply vo_getNode | ]. intros nd.
  apply triple_pure. intros (Hover & _ & _).
  eapply triple_bind; [apply triple_assert | ]. intros ?.
  destruct (overwrites nd) as [ | ds others]; [apply triple_abort | ].
  apply List.Forall_cons_iff in Hover as [Hds _].
  destruct (getBBlock nd) as [block | ]; [ | apply triple_abort].
  eapply triple_bind; [apply triple_getBlock | ]. intros blk.
  eapply triple_bind with (R := λ _, valid_offsets);
    [ | intros phis'; apply IH].
  eapply triple_conseq with (P' := valid_offsets)
                            (Q' := λ _, valid_offsets);
    [ | tauto | auto].
  apply (triple_foldM (λ _ : list NodeId, valid_offsets)).
  intros phis' I _. apply vo_performGvn_pred, Hds.
Qed.

(** LVN and GVN keep the offsets of the graph in the offset type. *)
Lemma run_keeps_offsets (addr : NodeId → Z) (depth fuel : nat)
    (st st' : MemorySSATransformation) :
  valid_offsets st →
  (performLvn st = Ok (tt, st') → valid_offsets st')
  ∧ (run addr depth fuel st = Ok (tt, st') → valid_offsets st').
Proof.
  intros Hst. split; intros Hrun.
  - exact (vo_performLvn st tt st' Hst Hrun).
  - assert (triple valid_offsets (run addr depth fuel)
              (λ _, valid_offsets)) as Htriple.
    { unfold run. eapply triple_bind; [apply vo_performLvn | ].
      intros ?. intros s r s' Hs Hr. unfold performGvn in Hr.
      exact (vo_performGvn_loop addr depth fuel _ s r s' Hs Hr). }
    exact (Htriple st tt st' Hst Hrun).
Qed.
